(** * html_to_pdf: HTML preparation, conversion pipeline and CLI margin parsing

    A shallow embedding of [src/html_to_pdf.py].

    - Python [str] values are lists of characters.  A character is a code
      point in the range 0..255 (type [ascii]); on that range [str.lower],
      [str.isspace], [str.strip] and the regular-expression classes used by
      the program are modelled exactly.
    - [re.sub(pattern, repl, string, count=1)] is modelled by a small
      backtracking matcher for the fragment of regular expressions the two
      patterns of the program use, together with the replacement-template
      compiler of the [re] module (escape sequences and group references).
    - [html_to_pdf] and [main] run in a state-and-exception monad over a
      world made of a file system and a trace of the external calls
      (pathlib, tempfile, Playwright) in the order the program issues them. *)

From Stdlib Require Import Ascii String.
From Stdlib Require Import Floats.
From stdpp Require Import gmap strings list fin_maps.

Local Open Scope list_scope.

(** ** Strings *)

Abbreviation str := (list ascii).

(** A string literal of the source. *)
Definition lit (s : string) : str := list_ascii_of_string s.

Definition ord (c : ascii) : nat := nat_of_ascii c.
Definition chr (n : nat) : ascii := ascii_of_nat n.

Definition in_range (lo hi : nat) (c : ascii) : bool :=
  (lo <=? ord c) && (ord c <=? hi).

(** [str.lower] on one character: A-Z, and the Latin-1 capitals
    U+00C0..U+00D6 and U+00D8..U+00DE, move up by 32. *)
Definition lower_char (c : ascii) : ascii :=
  if in_range 65 90 c || in_range 192 214 c || in_range 216 222 c
  then chr (ord c + 32) else c.

Definition lower (s : str) : str := map lower_char s.

(** [str.isspace] on one character, which is also the class [\s] of a
    [str] pattern: TAB..CR, FS..US, space, NEL and NBSP. *)
Definition isspace (c : ascii) : bool :=
  in_range 9 13 c || in_range 28 32 c || (ord c =? 133) || (ord c =? 160).

Definition char_eqb (a b : ascii) : bool := Ascii.eqb a b.

(** [s.startswith(p)] *)
Fixpoint startswith (p s : str) {struct p} : bool :=
  match p, s with
  | [], _ => true
  | _ :: _, [] => false
  | a :: p', b :: s' => char_eqb a b && startswith p' s'
  end.

(** [needle in hay] *)
Fixpoint contains (needle hay : str) : bool :=
  startswith needle hay ||
  match hay with
  | [] => false
  | _ :: hay' => contains needle hay'
  end.

(** ** Exceptions *)

Inductive exn :=
| ValueError (msg : str)
| FileNotFoundError (msg : str)
| HtmlToPdfError (msg : str) (cause : exn)
| TemplateError   (* re.error, or IndexError for an unknown group name,
                     raised by re.sub while compiling the replacement *)
| External (msg : str).  (* raised inside pathlib, tempfile or Playwright *)

Inductive result (A : Type) :=
| Ok (a : A)
| Raise (e : exn).
Arguments Ok {A} a.
Arguments Raise {A} e.

Definition result_map {A B} (f : A -> B) (r : result A) : result B :=
  match r with
  | Ok a => Ok (f a)
  | Raise e => Raise e
  end.

(** ** Regular expressions *)

Module Re.

(** The fragment used by the program: a sequence of atoms, each one
    character of a class or a greedy star over a class. *)
Inductive atom :=
| One (p : ascii -> bool)
| Star (p : ascii -> bool).

Definition regex := list atom.

(** A literal under the flag [(?i)]: the subject character is compared
    after lowering ([c] is given in lower case). *)
Definition lit_i (c : ascii) : atom := One (fun x => char_eqb (lower_char x) c).
Definition not_char (c : ascii) : ascii -> bool := fun x => negb (char_eqb c x).

(** Backtracking match anchored at the start of the subject; the result
    is the length of the match.  A star first tries to take one more
    character and falls back to the rest of the pattern. *)
Fixpoint match_here (re : regex) : str -> option nat :=
  match re with
  | [] => fun _ => Some 0
  | One p :: re' => fun s =>
      match s with
      | c :: s' => if p c then option_map S (match_here re' s') else None
      | [] => None
      end
  | Star p :: re' =>
      fix star (s : str) : option nat :=
        match s with
        | c :: s' =>
            if p c then
              match star s' with
              | Some n => Some (S n)
              | None => match_here re' s
              end
            else match_here re' s
        | [] => match_here re' []
        end
  end.

(** [pattern.search]: the leftmost position with a match, and its length. *)
Fixpoint search (re : regex) (s : str) : option (nat * nat) :=
  match match_here re s with
  | Some n => Some (0, n)
  | None =>
      match s with
      | [] => None
      | _ :: s' =>
          match search re s' with
          | Some (i, n) => Some (S i, n)
          | None => None
          end
      end
  end.

(** *** Replacement templates *)

Inductive titem :=
| TLit (c : ascii)
| TGroup (n : nat).

Definition is_digit (c : ascii) : bool := in_range 48 57 c.
Definition is_octdigit (c : ascii) : bool := in_range 48 55 c.
Definition is_ascii_letter (c : ascii) : bool :=
  in_range 97 122 c || in_range 65 90 c.
Definition digit_val (c : ascii) : nat := ord c - 48.

(** [int(name)] for a string of decimal digits. *)
Definition int_of_digits (ds : str) : nat :=
  fold_left (fun acc d => 10 * acc + digit_val d) ds 0.

(** The table [ESCAPES] of the template compiler. *)
Definition escape_char (c : ascii) : option ascii :=
  if char_eqb c "a"%char then Some (chr 7)
  else if char_eqb c "b"%char then Some (chr 8)
  else if char_eqb c "f"%char then Some (chr 12)
  else if char_eqb c "n"%char then Some (chr 10)
  else if char_eqb c "r"%char then Some (chr 13)
  else if char_eqb c "t"%char then Some (chr 9)
  else if char_eqb c "v"%char then Some (chr 11)
  else if char_eqb c "\"%char then Some "\"%char
  else None.

(** [Tokenizer.getuntil(">")]: the text up to the next [>], and what
    follows it. *)
Fixpoint getuntil_gt (s : str) : option (str * str) :=
  match s with
  | [] => None
  | c :: s' =>
      if char_eqb c ">"%char then Some ([], s')
      else match getuntil_gt s' with
           | Some (name, rest) => Some (c :: name, rest)
           | None => None
           end
  end.

(** [parse_template]: the replacement is cut into literal characters and
    group references.  [groups] is the number of capture groups of the
    pattern.  Every way the compiler has of rejecting a template is the one
    outcome [TemplateError].  A group name [\g<...>] is accepted only when
    it is made of decimal digits (the patterns of the program have no named
    group), so reading it character by character and reading it token by
    token agree.  Each round consumes at least one character: [fuel] above
    the length of the template is never used up. *)
Fixpoint parse_template_aux (fuel groups : nat) (t : str) : result (list titem) :=
  match fuel with
  | 0 => Raise TemplateError
  | S fuel' =>
      let continue items rest :=
        result_map (app items) (parse_template_aux fuel' groups rest) in
      let addgroup index rest :=
        if index <=? groups then continue [TGroup index] rest
        else Raise TemplateError in
      match t with
      | [] => Ok []
      | c :: t1 =>
          if negb (char_eqb c "\"%char) then continue [TLit c] t1
          else
            match t1 with
            | [] => Raise TemplateError
            | c1 :: t2 =>
                if char_eqb c1 "g"%char then
                  match t2 with
                  | lt :: t3 =>
                      if char_eqb lt "<"%char then
                        match getuntil_gt t3 with
                        | Some (name, t4) =>
                            if negb (bool_decide (name = [])) && forallb is_digit name
                            then addgroup (int_of_digits name) t4
                            else Raise TemplateError
                        | None => Raise TemplateError
                        end
                      else Raise TemplateError
                  | [] => Raise TemplateError
                  end
                else if char_eqb c1 "0"%char then
                  match t2 with
                  | d1 :: t3 =>
                      if is_octdigit d1 then
                        match t3 with
                        | d2 :: t4 =>
                            if is_octdigit d2
                            then continue
                                   [TLit (chr ((8 * digit_val d1 + digit_val d2) mod 256))] t4
                            else continue [TLit (chr (digit_val d1))] t3
                        | [] => continue [TLit (chr (digit_val d1))] t3
                        end
                      else continue [TLit (chr 0)] t2
                  | [] => continue [TLit (chr 0)] t2
                  end
                else if is_digit c1 then
                  match t2 with
                  | d1 :: t3 =>
                      if is_digit d1 then
                        let two := 10 * digit_val c1 + digit_val d1 in
                        match t3 with
                        | d2 :: t4 =>
                            if is_octdigit c1 && is_octdigit d1 && is_octdigit d2 then
                              let v := 64 * digit_val c1 + 8 * digit_val d1 + digit_val d2 in
                              if 255 <? v then Raise TemplateError
                              else continue [TLit (chr v)] t4
                            else addgroup two t3
                        | [] => addgroup two t3
                        end
                      else addgroup (digit_val c1) t2
                  | [] => addgroup (digit_val c1) t2
                  end
                else
                  match escape_char c1 with
                  | Some e => continue [TLit e] t2
                  | None =>
                      if is_ascii_letter c1 then Raise TemplateError
                      else continue [TLit c; TLit c1] t2
                  end
            end
      end
  end.

Definition parse_template (groups : nat) (t : str) : result (list titem) :=
  parse_template_aux (S (length t)) groups t.

(** Expansion of a compiled template for one match.  Both patterns of the
    program are a single capture group around the whole expression, so
    group 1 and group 0 are the matched text [m]. *)
Fixpoint expand (tpl : list titem) (m : str) : str :=
  match tpl with
  | [] => []
  | TLit c :: tpl' => c :: expand tpl' m
  | TGroup _ :: tpl' => m ++ expand tpl' m
  end.

(** [re.sub(re, repl, s, count=1)] for a pattern with one capture group
    around the whole expression.  The template is compiled before the
    subject is searched; without a match the subject is returned as it is. *)
Definition sub1 (re : regex) (repl s : str) : result str :=
  match parse_template 1 repl with
  | Raise e => Raise e
  | Ok tpl =>
      match search re s with
      | None => Ok s
      | Some (i, n) =>
          Ok (take i s ++ expand tpl (take n (drop i s)) ++ drop (i + n) s)
      end
  end.

(** [(?i)(<head[^>]*>)] *)
Definition head_open : regex :=
  map lit_i (lit "<head") ++ [Star (not_char ">"%char); One (char_eqb ">"%char)].

(** [(?i)(</head\s*>)] *)
Definition head_close : regex :=
  map lit_i (lit "</head") ++ [Star isspace; One (char_eqb ">"%char)].

End Re.

(** ** HtmlPreparer *)

Definition dquote : ascii := chr 34.
Definition newline : ascii := chr 10.

(** f'<base href="{base_href}">' *)
Definition base_tag (base_href : str) : str :=
  lit "<base href=" ++ [dquote] ++ base_href ++ [dquote] ++ lit ">".

Definition _inject_base_tag (html base_href : str) : result str :=
  let base_tag := base_tag base_href in
  if contains (lit "<head") (lower html) then
    Re.sub1 Re.head_open (lit "\1\n  " ++ base_tag) html
  else
    Ok (lit "<!doctype html><html><head>" ++ base_tag ++ lit "</head><body>"
          ++ html ++ lit "</body></html>").

(** f"<style>\n{css_text}\n</style>" *)
Definition style_tag (css_text : str) : str :=
  lit "<style>" ++ [newline] ++ css_text ++ [newline] ++ lit "</style>".

Definition _wrap_with_css (html css_text : str) : result str :=
  let style_tag := style_tag css_text in
  if contains (lit "<head") (lower html) then
    Re.sub1 Re.head_close (style_tag ++ lit "\n\1") html
  else
    Ok (lit "<!doctype html><html><head>" ++ style_tag ++ lit "</head><body>"
          ++ html ++ lit "</body></html>").

(** ** More string functions *)

(** [s.split(sep)] for a one-character separator. *)
Fixpoint split (sep : ascii) (s : str) : list str :=
  match s with
  | [] => [[]]
  | c :: s' =>
      if char_eqb c sep then [] :: split sep s'
      else match split sep s' with
           | t :: ts => (c :: t) :: ts
           | [] => [[c]]
           end
  end.

Fixpoint lstrip (s : str) : str :=
  match s with
  | c :: s' => if isspace c then lstrip s' else s
  | [] => []
  end.

(** [s.strip()] *)
Definition strip (s : str) : str := rev (lstrip (rev (lstrip s))).

(** [sep.join(l)] *)
Fixpoint join (sep : str) (l : list str) : str :=
  match l with
  | [] => []
  | [x] => x
  | x :: l' => x ++ sep ++ join sep l'
  end.

(** ** Paths (pathlib, POSIX flavour, no symbolic links) *)

Record Path := { anchored : bool; parts : list str }.

Definition is_name (c : str) : bool :=
  negb (bool_decide (c = [])) && negb (bool_decide (c = lit ".")).

(** [Path(s)]: empty components and [.] are dropped, [..] is kept.  A
    leading [//] is read as the root. *)
Definition Path_of_str (s : str) : Path :=
  {| anchored := startswith (lit "/") s;
     parts := filter (fun c => is_name c = true) (split "/"%char s) |}.

(** [str(p)] *)
Definition Path_str (p : Path) : str :=
  if anchored p then lit "/" ++ join (lit "/") (parts p)
  else match parts p with
       | [] => lit "."
       | _ => join (lit "/") (parts p)
       end.

(** [p.parent] *)
Definition Path_parent (p : Path) : Path :=
  {| anchored := anchored p; parts := removelast (parts p) |}.

(** [p / name] for a plain name. *)
Definition Path_div (p : Path) (name : str) : Path :=
  {| anchored := anchored p; parts := parts p ++ [name] |}.

(** Components of an absolute path after [..] has been followed; the
    parent of the root is the root. *)
Definition normalize (ps : list str) : list str :=
  fold_left
    (fun acc c => if bool_decide (c = lit "..") then removelast acc else acc ++ [c])
    ps [].

(** [p.resolve()] in the working directory [cwd]. *)
Definition Path_resolve (cwd : list str) (p : Path) : Path :=
  {| anchored := true;
     parts := normalize ((if anchored p then [] else cwd) ++ parts p) |}.

(** The bytes of [os.fsencode]: UTF-8. *)
Definition utf8 (c : ascii) : str :=
  if ord c <? 128 then [c]
  else [chr (192 + ord c / 64); chr (128 + ord c mod 64)].

Definition hexdigit (n : nat) : ascii :=
  nth n (lit "0123456789ABCDEF") "0"%char.

Definition url_safe (b : ascii) : bool :=
  in_range 97 122 b || in_range 65 90 b || in_range 48 57 b
  || existsb (char_eqb b) (lit "_.-~/").

(** [urllib.parse.quote_from_bytes] *)
Definition quote_byte (b : ascii) : str :=
  if url_safe b then [b]
  else ["%"%char; hexdigit (ord b / 16); hexdigit (ord b mod 16)].

Definition quote (s : str) : str :=
  concat (map quote_byte (concat (map utf8 s))).

(** [p.as_uri()] *)
Definition Path_as_uri (p : Path) : result str :=
  if anchored p then Ok (lit "file://" ++ quote (Path_str p))
  else Raise (ValueError (lit "relative path can't be expressed as a file URI")).

(** ** Options *)

Inductive wait_condition := Load | DomContentLoaded | NetworkIdle.
Inductive media := MediaScreen | MediaPrint.

Record PdfOptions := {
  format : option str;
  width : option str;
  height : option str;
  margin_top : str;
  margin_right : str;
  margin_bottom : str;
  margin_left : str;
  print_background : bool;
  prefer_css_page_size : bool;
  scale : float;
  display_header_footer : bool;
  header_template : str;
  footer_template : str;
}.

Definition PdfOptions_default : PdfOptions :=
  {| format := Some (lit "A4"); width := None; height := None;
     margin_top := lit "16mm"; margin_right := lit "14mm";
     margin_bottom := lit "16mm"; margin_left := lit "14mm";
     print_background := true; prefer_css_page_size := true;
     scale := 1%float;
     display_header_footer := false;
     header_template := []; footer_template := [] |}.

Record RenderOptions := {
  timeout_ms : Z;
  wait_until : wait_condition;
  emulate_media : media;
  allow_network : bool;
  extra_css_path : option Path;
  add_base_tag : bool;
}.

Definition RenderOptions_default : RenderOptions :=
  {| timeout_ms := 60000; wait_until := NetworkIdle; emulate_media := MediaPrint;
     allow_network := true; extra_css_path := None; add_base_tag := true |}.

(** The dictionary [pdf_kwargs]; a key that the program may leave out is
    an option. *)
Record margins := { top : str; right : str; bottom : str; left : str }.

Record pdf_kwargs := {
  kw_path : str;
  kw_print_background : bool;
  kw_prefer_css_page_size : bool;
  kw_scale : float;
  kw_margin : margins;
  kw_width : option str;
  kw_height : option str;
  kw_format : option (option str);
  kw_display_header_footer : option bool;
  kw_header_template : option str;
  kw_footer_template : option str;
}.

(** Truth value of an [Optional[str]]. *)
Definition truthy (s : option str) : bool :=
  match s with
  | Some (_ :: _) => true
  | _ => false
  end.

(** ** The world *)

Inductive node :=
| File (content : str)
| Dir.

(** The calls that leave the program, in the order they are issued. *)
Inductive event :=
| EvResolve (p : Path)
| EvCwd
| EvMkdir (p : Path)
| EvExists (p : Path)
| EvReadText (p : Path)
| EvMkdtemp
| EvWriteText (p : Path) (text : str)
| EvCleanup (p : Path)
| EvPlaywrightStart
| EvLaunch
| EvNewContext
| EvNewPage
| EvRoute (pattern : str)
| EvRouteContinue (url : str)
| EvRouteAbort (url : str)
| EvEmulateMedia (m : media)
| EvGoto (uri : str) (w : wait_condition) (timeout : Z)
| EvEvaluate (js : str)
| EvPdf (kwargs : pdf_kwargs)
| EvContextClose
| EvBrowserClose
| EvPlaywrightStop
| EvPrint (s : str)
| EvLog (s : str).

(** What the program does not decide: the working directory, the name
    [tempfile] picks, the requests the page makes while it loads, the
    bytes of the document the browser prints, and which external calls
    fail (with the text of the exception). *)
Record env := {
  cwd : list str;
  tmpdir : list str;
  requests : list str;
  pdf_bytes : str;
  fault : event -> option str;
}.

Record world := {
  nodes : gmap (list str) node;
  trace : list event;
}.

Definition set_nodes (n : gmap (list str) node) (w : world) : world :=
  {| nodes := n; trace := trace w |}.

Definition log_event (ev : event) (w : world) : world :=
  {| nodes := nodes w; trace := trace w ++ [ev] |}.

(** ** State and exceptions *)

Definition M (A : Type) : Type := world -> result A * world.

Definition ret {A} (a : A) : M A := fun w => (Ok a, w).
Definition raise {A} (e : exn) : M A := fun w => (Raise e, w).
Definition lift {A} (r : result A) : M A := fun w => (r, w).

Definition bind {A B} (m : M A) (k : A -> M B) : M B :=
  fun w =>
    match m w with
    | (Ok a, w') => k a w'
    | (Raise e, w') => (Raise e, w')
    end.

Declare Scope m_scope.
Delimit Scope m_scope with M.
Notation "x <- m ;; k" := (bind m (fun x => k))
  (at level 20, m at level 99, k at level 200, only parsing) : m_scope.
Notation "' pat <- m ;; k" := (bind m (fun x => match x with pat => k end))
  (at level 20, pat pattern, m at level 99, k at level 200, only parsing) : m_scope.
Notation "m ;; k" := (bind m (fun _ => k))
  (at level 100, k at level 200, only parsing, right associativity) : m_scope.

(** [try: body  except Exception as e: handler(e)] *)
Definition try_except {A} (body : M A) (handler : exn -> M A) : M A :=
  fun w =>
    match body w with
    | (Ok a, w') => (Ok a, w')
    | (Raise e, w') => handler e w'
    end.

(** [try: body  finally: fin], also the exit of a [with] block: [fin]
    runs on every way out of [body]; an exception of [fin] replaces the
    outcome of [body]. *)
Definition finally {A} (body : M A) (fin : M unit) : M A :=
  fun w =>
    match body w with
    | (r, w') =>
        match fin w' with
        | (Ok _, w'') => (r, w'')
        | (Raise e, w'') => (Raise e, w'')
        end
    end.

(** [str(e)] (the text of a template error is not modelled). *)
Definition str_exn (e : exn) : str :=
  match e with
  | ValueError msg => msg
  | FileNotFoundError msg => msg
  | HtmlToPdfError msg _ => msg
  | TemplateError => lit "re.error"
  | External msg => msg
  end.

Inductive route_action := RouteContinue | RouteAbort.

(** The handler installed by [page.route] when the network is not
    allowed. *)
Definition route_handler (url : str) : route_action :=
  if startswith (lit "file://") url then RouteContinue else RouteAbort.

Definition route_event (handler : str -> route_action) (url : str) : event :=
  match handler url with
  | RouteContinue => EvRouteContinue url
  | RouteAbort => EvRouteAbort url
  end.

(** [mkdir(parents=True, exist_ok=True)] on the node table: every prefix
    of the path becomes a directory, unless one of them is a file. *)
Definition prefixes (ps : list str) : list (list str) :=
  map (fun n => take n ps) (seq 0 (S (length ps))).

Definition is_file (n : gmap (list str) node) (p : list str) : bool :=
  match n !! p with
  | Some (File _) => true
  | _ => false
  end.

Definition mkdir_p (n : gmap (list str) node) (ps : list str)
  : option (gmap (list str) node) :=
  if existsb (is_file n) (prefixes ps) then None
  else Some (fold_left (fun acc p => <[p := Dir]> acc) (prefixes ps) n).

(** [shutil.rmtree]: the directory and all below it go. *)
Definition rmtree (n : gmap (list str) node) (ps : list str) : gmap (list str) node :=
  filter (fun kv => ~ (ps `prefix_of` kv.1)) n.

Section Program.
Variable E : env.
Local Open Scope m_scope.

(** An external call: it is recorded, then it fails if the environment
    says so. *)
Definition call (ev : event) : M unit :=
  fun w =>
    match fault E ev with
    | Some msg => (Raise (External msg), log_event ev w)
    | None => (Ok tt, log_event ev w)
    end.

(** Where a path points. *)
Definition loc (p : Path) : list str := parts (Path_resolve (cwd E) p).

Definition resolve (p : Path) : M Path :=
  call (EvResolve p) ;; ret (Path_resolve (cwd E) p).

Definition Path_cwd : M Path :=
  call EvCwd ;; ret {| anchored := true; parts := cwd E |}.

Definition mkdir (p : Path) : M unit :=
  call (EvMkdir p) ;;
  fun w =>
    match mkdir_p (nodes w) (loc p) with
    | Some n => (Ok tt, set_nodes n w)
    | None => (Raise (External (lit "[Errno 17] File exists: " ++ Path_str p)), w)
    end.

Definition exists_ (p : Path) : M bool :=
  call (EvExists p) ;;
  fun w => (Ok (bool_decide (is_Some (nodes w !! loc p))), w).

Definition read_text (p : Path) : M str :=
  call (EvReadText p) ;;
  fun w =>
    match nodes w !! loc p with
    | Some (File content) => (Ok content, w)
    | Some Dir =>
        (Raise (External (lit "[Errno 21] Is a directory: " ++ Path_str p)), w)
    | None =>
        (Raise (FileNotFoundError
                  (lit "[Errno 2] No such file or directory: " ++ Path_str p)), w)
    end.

Definition write_text (p : Path) (text : str) : M unit :=
  call (EvWriteText p text) ;;
  fun w =>
    match nodes w !! loc (Path_parent p) with
    | Some Dir =>
        match nodes w !! loc p with
        | Some Dir =>
            (Raise (External (lit "[Errno 21] Is a directory: " ++ Path_str p)), w)
        | _ => (Ok tt, set_nodes (<[loc p := File text]> (nodes w)) w)
        end
    | Some (File _) =>
        (Raise (External (lit "[Errno 20] Not a directory: " ++ Path_str p)), w)
    | None =>
        (Raise (FileNotFoundError
                  (lit "[Errno 2] No such file or directory: " ++ Path_str p)), w)
    end.

(** [with tempfile.TemporaryDirectory(prefix="html2pdf_") as tmp: body].
    The directory is new: [tempfile] gives up when the name it is left
    with is taken. *)
Definition is_fresh (n : gmap (list str) node) (ps : list str) : bool :=
  forallb (fun k => negb (bool_decide (ps `prefix_of` k))) (map fst (map_to_list n)).

Definition mkdtemp : M Path :=
  let tmp := {| anchored := true; parts := tmpdir E |} in
  call EvMkdtemp ;;
  fun w =>
    if is_fresh (nodes w) (loc tmp)
    then (Ok tmp, set_nodes (<[loc tmp := Dir]> (nodes w)) w)
    else (Raise (External (lit "[Errno 17] No usable temporary directory name found")), w).

Definition cleanup (tmp : Path) : M unit :=
  call (EvCleanup tmp) ;;
  fun w => (Ok tt, set_nodes (rmtree (nodes w) (loc tmp)) w).

Definition with_TemporaryDirectory {A} (body : Path -> M A) : M A :=
  tmp <- mkdtemp ;;
  finally (body tmp) (cleanup tmp).

(** [async with async_playwright() as p: body] *)
Definition with_async_playwright {A} (body : M A) : M A :=
  call EvPlaywrightStart ;;
  finally body (call EvPlaywrightStop).

(** The page asks for the document and for what the document refers to;
    with a handler installed each request is continued or aborted.  Then
    the navigation returns or raises. *)
Definition goto (handler : option (str -> route_action)) (uri : str)
    (wait : wait_condition) (timeout : Z) : M unit :=
  fun w =>
    let ev := EvGoto uri wait timeout in
    let w1 := log_event ev w in
    let w2 :=
      match handler with
      | Some h => fold_left (fun acc url => log_event (route_event h url) acc)
                    (uri :: requests E) w1
      | None => w1
      end in
    match fault E ev with
    | Some msg => (Raise (External msg), w2)
    | None => (Ok tt, w2)
    end.

(** [page.pdf] with the keyword arguments [pdf_kwargs] writes the document
    to [path]. *)
Definition page_pdf (kwargs : pdf_kwargs) : M unit :=
  call (EvPdf kwargs) ;;
  fun w =>
    (Ok tt,
     set_nodes (<[loc (Path_of_str (kw_path kwargs)) := File (pdf_bytes E)]> (nodes w)) w).

Definition make_pdf_kwargs (output_pdf_path : Path) (pdf : PdfOptions) : pdf_kwargs :=
  let size := truthy (width pdf) && truthy (height pdf) in
  {| kw_path := Path_str output_pdf_path;
     kw_print_background := print_background pdf;
     kw_prefer_css_page_size := prefer_css_page_size pdf;
     kw_scale := scale pdf;
     kw_margin := {| top := margin_top pdf; right := margin_right pdf;
                     bottom := margin_bottom pdf; left := margin_left pdf |};
     kw_width := if size then width pdf else None;
     kw_height := if size then height pdf else None;
     kw_format := if size then None else Some (format pdf);
     kw_display_header_footer := if display_header_footer pdf then Some true else None;
     kw_header_template :=
       if display_header_footer pdf then Some (header_template pdf) else None;
     kw_footer_template :=
       if display_header_footer pdf then Some (footer_template pdf) else None |}.

Definition is_None {A} (o : option A) : bool :=
  match o with
  | None => true
  | Some _ => false
  end.

(** The [try] statement of [html_to_pdf]: navigation, the wait for the
    fonts (its failure is dropped), the export; any exception becomes
    [HtmlToPdfError]; context and browser are closed in the [finally]
    clause. *)
Definition render_export (handler : option (str -> route_action))
    (tmp_html output_pdf_path : Path) (pdf : PdfOptions) (render : RenderOptions)
  : M unit :=
  finally
    (try_except
       (uri <- lift (Path_as_uri tmp_html) ;;
        goto handler uri (wait_until render) (timeout_ms render) ;;
        try_except
          (call (EvEvaluate (lit "() => document.fonts && document.fonts.ready")))
          (fun _ => ret tt) ;;
        page_pdf (make_pdf_kwargs output_pdf_path pdf))
       (fun e =>
          raise (HtmlToPdfError (lit "PDF render xatosi: " ++ str_exn e) e)))
    (call EvContextClose ;;
     call EvBrowserClose).

Definition html_to_pdf (html : option str) (html_path : option Path)
    (output_pdf_path : Path) (base_dir : option Path)
    (pdf : PdfOptions) (render : RenderOptions) : M Path :=
  if Bool.eqb (is_None html) (is_None html_path) then
    raise (ValueError (lit "Faqat bittasini bering: html (string) yoki html_path (file)."))
  else
    output_pdf_path <- resolve output_pdf_path ;;
    mkdir (Path_parent output_pdf_path) ;;
    '(html_text, base_dir) <-
      match html_path with
      | Some html_path =>
          html_path <- resolve html_path ;;
          found <- exists_ html_path ;;
          if negb found then
            raise (FileNotFoundError (lit "HTML topilmadi: " ++ Path_str html_path))
          else
            html_text <- read_text html_path ;;
            ret (html_text, default (Path_parent html_path) base_dir)
      | None =>
          base_dir <- match base_dir with
                      | Some d => ret d
                      | None => Path_cwd
                      end ;;
          ret (default [] html, base_dir)
      end ;;
    html_text <-
      match extra_css_path render with
      | Some extra_css_path =>
          css_path <- resolve extra_css_path ;;
          found <- exists_ css_path ;;
          if negb found then
            raise (FileNotFoundError (lit "CSS topilmadi: " ++ Path_str css_path))
          else
            css_text <- read_text css_path ;;
            lift (_wrap_with_css html_text css_text)
      | None => ret html_text
      end ;;
    html_text <-
      (if add_base_tag render then
         base_dir <- resolve base_dir ;;
         uri <- lift (Path_as_uri base_dir) ;;
         lift (_inject_base_tag html_text (uri ++ lit "/"))
       else ret html_text) ;;
    with_TemporaryDirectory (fun tmp =>
      let tmp_html := Path_div tmp (lit "index.html") in
      write_text tmp_html html_text ;;
      with_async_playwright (
        call EvLaunch ;;
        call EvNewContext ;;
        call EvNewPage ;;
        handler <-
          (if negb (allow_network render) then
             call (EvRoute (lit "**/*")) ;; ret (Some route_handler)
           else ret None) ;;
        call (EvEmulateMedia (emulate_media render)) ;;
        render_export handler tmp_html output_pdf_path pdf render)) ;;
    ret output_pdf_path.

(** ** Command line *)

(** The result of [parse_args]. *)
Record Args := {
  arg_input : str;
  arg_output : str;
  arg_base_dir : option str;
  arg_css : option str;
  arg_no_network : bool;
  arg_timeout : Z;
  arg_format : str;
  arg_margin : str;
  arg_header_footer : bool;
  arg_wait_until : wait_condition;
}.

Definition quoted (s : string) : str := [dquote] ++ lit s ++ [dquote].

Definition _default_footer : str :=
  [newline]
  ++ lit "    <div style=" ++ quoted "width:100%; font-size:9px; color:#666; padding:0 10mm;"
  ++ lit ">" ++ [newline]
  ++ lit "      <div style=" ++ quoted "float:left;" ++ lit ">Generated</div>" ++ [newline]
  ++ lit "      <div style=" ++ quoted "float:right;" ++ lit ">" ++ [newline]
  ++ lit "        <span class=" ++ quoted "pageNumber" ++ lit "></span> / <span class="
  ++ quoted "totalPages" ++ lit "></span>" ++ [newline]
  ++ lit "      </div>" ++ [newline]
  ++ lit "    </div>" ++ [newline]
  ++ lit "    ".

(** [a, b, c, d = l] *)
Definition unpack4 (l : list str) : option (str * str * str * str) :=
  match l with
  | [a; b; c; d] => Some (a, b, c, d)
  | _ => None
  end.

(** [top, right, bottom, left = [x.strip() for x in margin.split(",")]];
    [None] stands for the exception of the assignment. *)
Definition parse_margin (margin : str) : option (str * str * str * str) :=
  unpack4 (map strip (split ","%char margin)).

(** The apostrophe of the message, U+2019, as written to standard
    output in UTF-8. *)
Definition rsquo : str := [chr 226; chr 128; chr 153].

Definition margin_message : str :=
  lit "Margin formati noto" ++ rsquo ++ lit "g" ++ rsquo
  ++ lit "ri. Masalan: 16mm,14mm,16mm,14mm".

(** How the process ends. *)
Inductive exit_status :=
| Returned
| SysExit (code : Z)
| Uncaught (e : exn).

(** [Path(s) if s else None] *)
Definition optional_path (s : option str) : option Path :=
  match s with
  | Some (c :: s') => Some (Path_of_str (c :: s'))
  | _ => None
  end.

Definition main (args : Args) : world -> exit_status * world :=
  fun w =>
    let html_path := Path_of_str (arg_input args) in
    let out_pdf := Path_of_str (arg_output args) in
    let base_dir := optional_path (arg_base_dir args) in
    let css_path := optional_path (arg_css args) in
    match parse_margin (arg_margin args) with
    | None => (SysExit 2, log_event (EvPrint margin_message) w)
    | Some (top, right, bottom, left) =>
        let pdf_opts :=
          {| format := Some (arg_format args); width := None; height := None;
             margin_top := top; margin_right := right;
             margin_bottom := bottom; margin_left := left;
             print_background := true; prefer_css_page_size := true;
             scale := 1%float;
             display_header_footer := arg_header_footer args;
             header_template := [];
             footer_template :=
               if arg_header_footer args then _default_footer else [] |} in
        let render_opts :=
          {| timeout_ms := arg_timeout args; wait_until := arg_wait_until args;
             emulate_media := MediaPrint;
             allow_network := negb (arg_no_network args);
             extra_css_path := css_path; add_base_tag := true |} in
        match html_to_pdf None (Some html_path) out_pdf base_dir pdf_opts render_opts w with
        | (Ok result, w') => (Returned, log_event (EvLog (lit "OK: " ++ Path_str result)) w')
        | (Raise e, w') => (Uncaught e, w')
        end
    end.

End Program.
(** * Notions used to state the properties *)

(** A text without backslash is a template that stands for itself. *)
Definition no_backslash (t : str) : bool :=
  forallb (fun c => negb (char_eqb c "\"%char)) t.

(** Position of the first occurrence of a character. *)
Fixpoint index_of (c : ascii) (s : str) : option nat :=
  match s with
  | [] => None
  | x :: s' => if char_eqb c x then Some 0 else option_map S (index_of c s')
  end.

(** Length of the longest prefix made of characters of a class. *)
Fixpoint span_len (p : ascii -> bool) (s : str) : nat :=
  match s with
  | [] => 0
  | x :: s' => if p x then S (span_len p s') else 0
  end.

(** ** Tags, as the claims speak of them *)

(** An opening head tag: [<head] in any letter case, then anything but
    [>], then [>]. *)
Definition is_head_open_tag (tag : str) : Prop :=
  exists name attrs,
    tag = name ++ attrs ++ [">"%char] /\ lower name = lit "<head" /\ (">"%char ∉ attrs).

(** A head-closing tag: [</head] in any letter case, white space, [>]. *)
Definition is_head_close_tag (tag : str) : Prop :=
  exists name ws,
    tag = name ++ ws ++ [">"%char] /\ lower name = lit "</head" /\
    forallb isspace ws = true.

(** [html] contains a tag of the kind [P]. *)
Definition has_tag (P : str -> Prop) (html : str) : Prop :=
  exists pre tag post, html = pre ++ tag ++ post /\ P tag.

(** [html] is [pre ++ tag ++ post] and no tag of the kind [P] starts
    earlier in it. *)
Definition first_tag (P : str -> Prop) (html pre tag post : str) : Prop :=
  html = pre ++ tag ++ post /\ P tag /\
  forall pre' tag' post',
    html = pre' ++ tag' ++ post' -> P tag' -> length pre <= length pre'.

(** [_inject_base_tag] applied to its own output. *)
Definition inject_base_tag_twice (html base_href : str) : result str :=
  match _inject_base_tag html base_href with
  | Ok once => _inject_base_tag once base_href
  | Raise e => Raise e
  end.

(** Number of positions of [s] at which the pattern matches. *)
Fixpoint count_starts (re : Re.regex) (s : str) : nat :=
  (match Re.match_here re s with Some _ => 1 | None => 0 end) +
  match s with
  | [] => 0
  | _ :: s' => count_starts re s'
  end.

(** Number of head-closing tags in a text. *)
Definition count_head_close (s : str) : nat := count_starts Re.head_close s.


(** A margin argument made of exactly four comma-separated tokens. *)
Definition four_tokens (margin : str) : Prop :=
  exists t1 t2 t3 t4,
    Forall (fun t => ","%char ∉ t) [t1; t2; t3; t4] /\
    margin = t1 ++ ","%char :: t2 ++ ","%char :: t3 ++ ","%char :: t4.

(** The same environment with other requests made by the page. *)
Definition with_requests (E : env) (reqs : list str) : env :=
  {| cwd := cwd E; tmpdir := tmpdir E; requests := reqs;
     pdf_bytes := pdf_bytes E; fault := fault E |}.

(** Two computations that, from worlds with the same files, end with the
    same outcome and the same files: they differ by their traces at most. *)
Definition agree {A} (m1 m2 : M A) : Prop :=
  forall w1 w2, nodes w1 = nodes w2 ->
    (m1 w1).1 = (m2 w2).1 /\ nodes (m1 w1).2 = nodes (m2 w2).2.

(** A small world for the examples: the working directory [/home/u]
    holds [page.html] and [extra.css]. *)
Definition example_env : env :=
  {| cwd := [lit "home"; lit "u"];
     tmpdir := [lit "tmp"; lit "html2pdf_k3"];
     requests := [lit "https://cdn.example/a.css"; lit "file:///home/u/img.png"];
     pdf_bytes := lit "%PDF-1.4";
     fault := fun _ => None |}.

Definition example_world : world :=
  {| nodes :=
       list_to_map
         [([], Dir); ([lit "tmp"], Dir); ([lit "home"], Dir);
          ([lit "home"; lit "u"], Dir);
          ([lit "home"; lit "u"; lit "page.html"],
           File (lit "<html><head></head><body>hi</body></html>"));
          ([lit "home"; lit "u"; lit "extra.css"], File (lit "p{margin:0}"))];
     trace := [] |}.

(** An environment in which the navigation fails. *)
Definition failing_goto_env : env :=
  {| cwd := cwd example_env; tmpdir := tmpdir example_env;
     requests := requests example_env; pdf_bytes := pdf_bytes example_env;
     fault := fun ev => match ev with
                        | EvGoto _ _ _ => Some (lit "Timeout 60000ms exceeded.")
                        | _ => None
                        end |}.

Definition no_network : RenderOptions :=
  {| timeout_ms := 60000; wait_until := NetworkIdle; emulate_media := MediaPrint;
     allow_network := false; extra_css_path := None; add_base_tag := true |}.

Definition example_args (margin : string) : Args :=
  {| arg_input := lit "page.html"; arg_output := lit "out.pdf";
     arg_base_dir := None; arg_css := None; arg_no_network := false;
     arg_timeout := 60000; arg_format := lit "A4"; arg_margin := lit margin;
     arg_header_footer := false; arg_wait_until := NetworkIdle |}.

(** The directory [html_to_pdf] creates for the output. *)
Definition output_parent (E : env) (output_pdf_path : Path) : Path :=
  Path_parent (Path_resolve (cwd E) output_pdf_path).

(** The file the browser is pointed at, and its URI. *)
Definition tmp_html (E : env) : Path :=
  Path_div {| anchored := true; parts := tmpdir E |} (lit "index.html").

Definition tmp_uri (E : env) : str := lit "file://" ++ quote (Path_str (tmp_html E)).

(** The calls of the render and export stage that may fail in the
    statements below; every other external call is taken to return. *)
Definition is_render_event (ev : event) : bool :=
  match ev with
  | EvGoto _ _ _ | EvEvaluate _ | EvPdf _ => true
  | _ => false
  end.

Definition quiet (E : env) : Prop :=
  forall ev, is_render_event ev = false -> fault E ev = None.

(** The HTML source can be read: inline text, or an existing file. *)
Definition html_source_ok (E : env) (html_path : option Path)
    (n : gmap (list str) node) : Prop :=
  match html_path with
  | Some hp => exists content, n !! loc E hp = Some (File content)
  | None => True
  end.

(** The extra style sheet, when asked for, is an existing file without
    backslash. *)
Definition css_ok (E : env) (render : RenderOptions) (n : gmap (list str) node) : Prop :=
  match extra_css_path render with
  | Some cp => exists css, n !! loc E cp = Some (File css) /\ no_backslash css = true
  | None => True
  end.

(** From any world whose files are [n], the computation [m] ends with
    the outcome [r] and leaves the files [n']. *)
Definition ends {A} (m : M A) (n : gmap (list str) node) (r : result A)
    (n' : gmap (list str) node) : Prop :=
  forall w, nodes w = n -> exists w', m w = (r, w') /\ nodes w' = n'.

(** No component is [..]. *)
Definition no_dotdot (ps : list str) : Prop := Forall (fun c => c <> lit "..") ps.

(** The files of the example world once [/home/u/out] has been made. *)
Definition example_nodes_out : gmap (list str) node :=
  fold_left (fun acc p => <[p := Dir]> acc)
    (prefixes [lit "home"; lit "u"; lit "out"]) (nodes example_world).

(** Exactly one of the inline text and the file path is given. *)
Definition exactly_one (html : option str) (html_path : option Path) : Prop :=
  (html <> None /\ html_path = None) \/ (html = None /\ html_path <> None).

(** The two calls of the render and export stage whose failure ends the
    conversion, in a run that reaches the stage. *)
Definition goto_event (E : env) (render : RenderOptions) : event :=
  EvGoto (tmp_uri E) (wait_until render) (timeout_ms render).

Definition pdf_event (E : env) (output_pdf_path : Path) (pdf : PdfOptions) : event :=
  EvPdf (make_pdf_kwargs (Path_resolve (cwd E) output_pdf_path) pdf).

(** The domain error around the exception of an external call. *)
Definition wrapped (msg : str) : exn :=
  HtmlToPdfError (lit "PDF render xatosi: " ++ msg) (External msg).

(** Outcome of the stage as the environment decides it: the navigation
    fails, or the export fails, or both return. *)
Definition render_outcome (E : env) (output_pdf_path : Path) (pdf : PdfOptions)
    (render : RenderOptions) : result unit :=
  match fault E (goto_event E render) with
  | Some msg => Raise (wrapped msg)
  | None =>
      match fault E (pdf_event E output_pdf_path pdf) with
      | Some msg => Raise (wrapped msg)
      | None => Ok tt
      end
  end.

(** Default options with an extra style sheet. *)
Definition render_with_css (css : string) : RenderOptions :=
  {| timeout_ms := 60000; wait_until := NetworkIdle; emulate_media := MediaPrint;
     allow_network := true; extra_css_path := Some (Path_of_str (lit css));
     add_base_tag := true |}.

(** Two runs in which a call after the page is there fails.  In the
    first, [page.emulate_media] raises (the call comes before the [try]
    statement); in the second, [context.close()] raises in the [finally]
    clause. *)
Definition failing_media_env : env :=
  {| cwd := cwd example_env; tmpdir := tmpdir example_env;
     requests := requests example_env; pdf_bytes := pdf_bytes example_env;
     fault := fun ev => match ev with
                        | EvEmulateMedia _ =>
                            Some (lit "Target page, context or browser has been closed")
                        | _ => None
                        end |}.

Definition failing_close_env : env :=
  {| cwd := cwd example_env; tmpdir := tmpdir example_env;
     requests := requests example_env; pdf_bytes := pdf_bytes example_env;
     fault := fun ev => match ev with
                        | EvContextClose => Some (lit "Connection closed")
                        | _ => None
                        end |}.

Definition media_failure_run : result Path * world :=
  html_to_pdf failing_media_env (Some (lit "<p>x</p>")) None
    (Path_of_str (lit "out.pdf")) None PdfOptions_default RenderOptions_default
    example_world.

Definition close_failure_run : result Path * world :=
  html_to_pdf failing_close_env (Some (lit "<p>x</p>")) None
    (Path_of_str (lit "out.pdf")) None PdfOptions_default RenderOptions_default
    example_world.

Definition is_new_page (ev : event) : bool :=
  match ev with EvNewPage => true | _ => false end.

Definition is_context_close (ev : event) : bool :=
  match ev with EvContextClose => true | _ => false end.

Definition is_browser_close (ev : event) : bool :=
  match ev with EvBrowserClose => true | _ => false end.

Definition is_playwright_stop (ev : event) : bool :=
  match ev with EvPlaywrightStop => true | _ => false end.

(** * Notions for the properties of the rest of the program *)

(** The two transformations in the order [html_to_pdf] applies them: the
    style sheet first, then the base tag. *)
Definition prepare (html css_text base_href : str) : result str :=
  match _wrap_with_css html css_text with
  | Ok text => _inject_base_tag text base_href
  | Raise e => Raise e
  end.

(** An ASCII letter that is no escape of a replacement template. *)
Definition bad_escape_letter (c : ascii) : bool :=
  Re.is_ascii_letter c && negb (existsb (char_eqb c) (lit "abfnrtvg")).

(** A text that neither starts nor ends with white space. *)
Definition stripped (s : str) : Prop :=
  (forall c rest, s = c :: rest -> isspace c = false) /\
  (forall init c, s = init ++ [c] -> isspace c = false).

(** Outcomes of a computation: a value that satisfies [P], or the
    exception of an external call. *)
Definition only_external {A} (P : A -> Prop) (r : result A) : Prop :=
  match r with
  | Ok a => P a
  | Raise (External _) => True
  | Raise _ => False
  end.

(** Outcomes of a conversion with a valid input configuration: a value
    that satisfies [P]; the exception of an external call; a file that is
    not found; the domain error around the exception of an external call;
    a template error, when [tpl] allows it.  Never [ValueError]. *)
Definition shape {A} (tpl : bool) (P : A -> Prop) (r : result A) : Prop :=
  match r with
  | Ok a => P a
  | Raise (External _) => True
  | Raise (FileNotFoundError _) => True
  | Raise (HtmlToPdfError msg cause) => exists m, HtmlToPdfError msg cause = wrapped m
  | Raise TemplateError => tpl = true
  | Raise (ValueError _) => False
  end.

(** Every run of [m] ends with an outcome in [Q]. *)
Definition run_post {A} (m : M A) (Q : result A -> Prop) : Prop :=
  forall w, Q (m w).1.

(** The example world with a style sheet that holds a backslash followed
    by a letter. *)
Definition escape_css_world : world :=
  {| nodes := <[[lit "home"; lit "u"; lit "extra.css"] := File (lit "p::before{content:'\d'}")]>
                (nodes example_world);
     trace := [] |}.

(** The wait for the fonts of the document. *)
Definition is_font_wait (ev : event) : bool :=
  match ev with
  | EvEvaluate _ => true
  | _ => false
  end.

(** An environment in which the wait for the fonts fails. *)
Definition failing_fonts_env : env :=
  {| cwd := cwd example_env; tmpdir := tmpdir example_env;
     requests := requests example_env; pdf_bytes := pdf_bytes example_env;
     fault := fun ev => match ev with
                        | EvEvaluate _ => Some (lit "document.fonts is not defined")
                        | _ => None
                        end |}.

(** The temporary directory. *)
Definition tmp_root (E : env) : Path := {| anchored := true; parts := tmpdir E |}.

(** Where the browser writes the document: it reads the path from the
    text [html_to_pdf] hands over. *)
Definition pdf_loc (E : env) (output_pdf_path : Path) : list str :=
  loc E (Path_of_str (Path_str (Path_resolve (cwd E) output_pdf_path))).

(** A computation that leaves the entry [k] of the node table as it
    finds it, however it ends. *)
Definition keeps {A} (k : list str) (m : M A) : Prop :=
  forall w, nodes (m w).2 !! k = nodes w !! k.

(** A path component as [pathlib] makes them: a name without slash. *)
Definition plain (c : str) : bool :=
  is_name c && bool_decide ("/"%char ∉ c).

(** From files in [P], a run of [m] that returns [a] leaves files in
    [Q a]. *)
Definition hoare {A : Type} (P : gmap (list str) node -> Prop) (m : M A)
    (Q : A -> gmap (list str) node -> Prop) : Prop :=
  forall w, P (nodes w) -> forall a, (m w).1 = Ok a -> Q a (nodes (m w).2).

(** A run of [m] only adds events to the trace, and every event it adds
    is in [P]. *)
Definition emits {A : Type} (P : event -> Prop) (m : M A) : Prop :=
  forall w, exists evs, trace (m w).2 = trace w ++ evs /\ Forall P evs.

(** The events of request interception. *)
Definition is_route (ev : event) : bool :=
  match ev with
  | EvRoute _ | EvRouteContinue _ | EvRouteAbort _ => true
  | _ => false
  end.

(** What the external calls of a conversion to [output_pdf_path] are
    about: the directory made is the one of the resolved output; the file
    written and the address the browser is sent to are [index.html] in the
    temporary directory; the directory removed is the temporary one; the
    document goes to the resolved output; nothing is printed or logged. *)
Definition expected (E : env) (output_pdf_path : Path) (ev : event) : Prop :=
  match ev with
  | EvMkdir p => p = output_parent E output_pdf_path
  | EvWriteText p _ => p = tmp_html E
  | EvGoto uri _ _ => uri = tmp_uri E
  | EvCleanup p => p = tmp_root E
  | EvPdf kwargs => kw_path kwargs = Path_str (Path_resolve (cwd E) output_pdf_path)
  | EvPrint _ | EvLog _ => False
  | _ => True
  end.
(** * Properties of the string functions *)

Lemma char_eqb_eq (a b : ascii) : char_eqb a b = true <-> a = b.
Proof. apply Ascii.eqb_eq. Qed.

Lemma char_eqb_refl (a : ascii) : char_eqb a a = true.
Proof. apply Ascii.eqb_refl. Qed.

Lemma char_eqb_neq (a b : ascii) : char_eqb a b = false <-> a <> b.
Proof. apply Ascii.eqb_neq. Qed.

Lemma startswith_app (p r : str) : startswith p (p ++ r) = true.
Proof.
  induction p as [|a p IH]; simpl; [reflexivity|].
  now rewrite char_eqb_refl.
Qed.

Lemma startswith_inv (p s : str) :
  startswith p s = true -> s = p ++ drop (length p) s.
Proof.
  revert s; induction p as [|a p IH]; intros [|b s] H; simpl in *;
    try reflexivity; try discriminate.
  apply andb_true_iff in H as [Hab Hps].
  apply char_eqb_eq in Hab; subst b.
  f_equal. now apply IH.
Qed.

Lemma startswith_spec (p s : str) :
  startswith p s = true <-> exists r, s = p ++ r.
Proof.
  split.
  - intros H. eexists. now apply startswith_inv.
  - intros [r ->]. apply startswith_app.
Qed.

Lemma startswith_contains (p s : str) :
  startswith p s = true -> contains p s = true.
Proof. intros H. destruct s; simpl; now rewrite H. Qed.

Lemma contains_at (p a b : str) : contains p (a ++ p ++ b) = true.
Proof.
  induction a as [|c a IH]; simpl.
  - apply startswith_contains, startswith_app.
  - rewrite IH. apply orb_true_r.
Qed.

Lemma contains_inv (p s : str) :
  contains p s = true -> exists a b, s = a ++ p ++ b.
Proof.
  induction s as [|c s IH]; simpl; intros H.
  - apply orb_true_iff in H as [H|H]; [|discriminate].
    apply startswith_spec in H as [r ->]. now exists [], r.
  - apply orb_true_iff in H as [H|H].
    + apply startswith_spec in H as [r ->]. now exists [], r.
    + destruct (IH H) as (a & b & ->). now exists (c :: a), b.
Qed.

Lemma contains_spec (p s : str) :
  contains p s = true <-> exists a b, s = a ++ p ++ b.
Proof.
  split; [apply contains_inv|]. intros (a & b & ->). apply contains_at.
Qed.

Lemma lower_app (a b : str) : lower (a ++ b) = lower a ++ lower b.
Proof. apply map_app. Qed.

Lemma lower_length (a : str) : length (lower a) = length a.
Proof. apply length_map. Qed.


Lemma no_backslash_app (a b : str) :
  no_backslash (a ++ b) = no_backslash a && no_backslash b.
Proof. apply forallb_app. Qed.

Module ReFacts.
Import Re.

Lemma parse_literal_prefix (groups : nat) (t r : str) (fuel : nat) :
  no_backslash t = true ->
  parse_template_aux (length t + fuel) groups (t ++ r)
  = result_map (app (map TLit t)) (parse_template_aux fuel groups r).
Proof.
  induction t as [|c t IH]; intros H.
  - simpl. now destruct (parse_template_aux fuel groups r).
  - simpl in H. apply andb_true_iff in H as [Hc Ht].
    cbn [length Nat.add app parse_template_aux]. rewrite Hc.
    rewrite (IH Ht). cbn [map].
    now destruct (parse_template_aux fuel groups r).
Qed.

Lemma expand_literals (t m : str) : expand (map TLit t) m = t.
Proof. induction t as [|c t IH]; simpl; [reflexivity|now rewrite IH]. Qed.

Lemma expand_app (xs ys : list titem) (m : str) :
  expand (xs ++ ys) m = expand xs m ++ expand ys m.
Proof.
  induction xs as [|[c|n] xs IH]; simpl; [reflexivity| |].
  - now rewrite IH.
  - now rewrite IH, app_assoc.
Qed.

(** Unfolding equations of the matcher. *)
Lemma match_one_cons p re c s :
  match_here (One p :: re) (c :: s)
  = if p c then option_map S (match_here re s) else None.
Proof. reflexivity. Qed.

Lemma match_star_nil p re : match_here (Star p :: re) [] = match_here re [].
Proof. reflexivity. Qed.

Lemma match_star_cons p re c s :
  match_here (Star p :: re) (c :: s)
  = if p c then
      match match_here (Star p :: re) s with
      | Some n => Some (S n)
      | None => match_here re (c :: s)
      end
    else match_here re (c :: s).
Proof. reflexivity. Qed.

(** A match never runs past the end of the subject. *)
Lemma match_here_length re : forall s n, match_here re s = Some n -> n <= length s.
Proof.
  induction re as [|[p|p] re IH]; intros s n H.
  - injection H as <-. lia.
  - destruct s as [|c s]; [discriminate|].
    rewrite match_one_cons in H. destruct (p c); [|discriminate].
    destruct (match_here re s) as [m|] eqn:E; [|discriminate].
    injection H as <-. apply IH in E. simpl. lia.
  - revert n H. induction s as [|c s IHs]; intros n H.
    + rewrite match_star_nil in H. now apply IH in H.
    + rewrite match_star_cons in H. destruct (p c).
      * destruct (match_here (Star p :: re) s) as [m|] eqn:E.
        -- injection H as <-. specialize (IHs _ eq_refl). simpl. lia.
        -- now apply IH in H.
      * now apply IH in H.
Qed.

(** A run of case-insensitive literals is a prefix test on the lowered
    subject. *)
Lemma match_lits (p : str) (re : regex) : forall s,
  match_here (map lit_i p ++ re) s
  = if startswith p (lower s)
    then option_map (Nat.add (length p)) (match_here re (drop (length p) s))
    else None.
Proof.
  induction p as [|a p IH]; intros s.
  - simpl. rewrite drop_0. now destruct (match_here re s).
  - destruct s as [|c s]; [reflexivity|].
    cbn [map app]. unfold lit_i at 1. rewrite match_one_cons.
    cbn [lower map startswith length drop].
    rewrite Ascii.eqb_sym. fold (char_eqb a (lower_char c)).
    destruct (char_eqb a (lower_char c)); [|reflexivity].
    rewrite IH. cbn [andb]. fold (lower s).
    destruct (startswith p (lower s)); [|reflexivity].
    now destruct (match_here re (drop (length p) s)).
Qed.


Lemma index_of_app (c : ascii) (a b : str) :
  (c ∉ a) -> index_of c (a ++ c :: b) = Some (length a).
Proof.
  induction a as [|x a IH]; intros H; simpl.
  - now rewrite char_eqb_refl.
  - apply not_elem_of_cons in H as [Hx Ha].
    apply char_eqb_neq in Hx. rewrite Hx, (IH Ha). reflexivity.
Qed.

Lemma index_of_inv (c : ascii) (s : str) (k : nat) :
  index_of c s = Some k ->
  exists a b, s = a ++ c :: b /\ (c ∉ a) /\ k = length a.
Proof.
  revert k; induction s as [|x s IH]; intros k H; simpl in H; [discriminate|].
  destruct (char_eqb c x) eqn:E.
  - apply char_eqb_eq in E. subst x. injection H as <-.
    exists [], s. repeat split. apply not_elem_of_nil.
  - destruct (index_of c s) as [j|]; [|discriminate]. injection H as <-.
    destruct (IH _ eq_refl) as (a & b & -> & Ha & ->).
    exists (x :: a), b. repeat split.
    apply not_elem_of_cons. split; [|exact Ha]. now apply char_eqb_neq.
Qed.

(** [[^c]*c] stops at the first [c]. *)
Lemma match_until (c : ascii) (s : str) :
  match_here [Star (not_char c); One (char_eqb c)] s = option_map S (index_of c s).
Proof.
  induction s as [|x s IH].
  - reflexivity.
  - rewrite match_star_cons, IH, match_one_cons. unfold not_char. simpl.
    destruct (char_eqb c x); simpl; [reflexivity|].
    now destruct (index_of c s).
Qed.

Lemma span_len_app (p : ascii -> bool) (a : str) (x : ascii) (b : str) :
  forallb p a = true -> p x = false -> span_len p (a ++ x :: b) = length a.
Proof.
  intros Ha Hx. induction a as [|y a IH]; simpl in *.
  - now rewrite Hx.
  - apply andb_true_iff in Ha as [Hy Ha]. rewrite Hy. now rewrite IH.
Qed.

Lemma span_len_take (p : ascii -> bool) (s : str) :
  forallb p (take (span_len p s) s) = true.
Proof.
  induction s as [|x s IH]; simpl; [reflexivity|].
  destruct (p x) eqn:E; simpl; [|reflexivity]. now rewrite E, IH.
Qed.

(** [\s*>]: the star takes all the white space, and giving some of it
    back cannot help since [>] is not white space. *)
Lemma match_spaces_gt (s : str) :
  match_here [Star isspace; One (char_eqb ">"%char)] s
  = if startswith [">"%char] (drop (span_len isspace s) s)
    then Some (S (span_len isspace s)) else None.
Proof.
  induction s as [|x s IH].
  - reflexivity.
  - rewrite match_star_cons, IH, match_one_cons. cbn [span_len].
    destruct (isspace x) eqn:Ex.
    + cbn [drop].
      destruct (startswith [">"%char] (drop (span_len isspace s) s)); [reflexivity|].
      destruct (char_eqb ">"%char x) eqn:E; [|reflexivity].
      apply char_eqb_eq in E. subst x. discriminate.
    + cbn [drop startswith]. rewrite andb_true_r.
      now destruct (char_eqb ">"%char x).
Qed.

Lemma drop_cons_S {A} (n : nat) (x : A) (l : list A) : drop (S n) (x :: l) = drop n l.
Proof. reflexivity. Qed.

(** [search] returns the leftmost position that has a match. *)
Lemma search_sound (re : regex) : forall s i n,
  search re s = Some (i, n) ->
  match_here re (drop i s) = Some n /\ i <= length s /\
  forall j, j < i -> match_here re (drop j s) = None.
Proof.
  induction s as [|c s IH]; intros i n H; cbn [search] in H.
  - destruct (match_here re []) as [m|] eqn:E; [|discriminate].
    injection H as <- <-. rewrite drop_0.
    split; [exact E|split; [lia|]]. intros j Hj; lia.
  - destruct (match_here re (c :: s)) as [m|] eqn:E.
    + injection H as <- <-. rewrite drop_0.
      split; [exact E|split; [lia|]]. intros j Hj; lia.
    + destruct (search re s) as [[i' n']|] eqn:Es; [|discriminate].
      injection H as <- <-. destruct (IH _ _ eq_refl) as (Hm & Hle & Hmin).
      rewrite drop_cons_S. split; [exact Hm|split; [simpl; lia|]].
      intros [|j] Hj; [now rewrite drop_0|].
      rewrite drop_cons_S. apply Hmin. lia.
Qed.

Lemma search_complete (re : regex) : forall s j m,
  j <= length s -> match_here re (drop j s) = Some m ->
  exists i n, search re s = Some (i, n) /\ i <= j.
Proof.
  induction s as [|c s IH]; intros j m Hj H; cbn [search].
  - simpl in Hj. assert (j = 0) as -> by lia. rewrite drop_0 in H.
    rewrite H. exists 0, m. split; [reflexivity|lia].
  - destruct (match_here re (c :: s)) as [n|] eqn:E.
    + exists 0, n. split; [reflexivity|lia].
    + destruct j as [|j]; [rewrite drop_0 in H; congruence|].
      rewrite drop_cons_S in H. simpl in Hj.
      destruct (IH j m ltac:(lia) H) as (i & n & -> & Hi).
      exists (S i), n. split; [reflexivity|lia].
Qed.

Lemma parse_literal_fuel (groups : nat) (t : str) (fuel : nat) :
  no_backslash t = true -> length t < fuel ->
  parse_template_aux fuel groups t = Ok (map TLit t).
Proof.
  intros Ht Hf.
  pose proof (parse_literal_prefix groups t [] (S (fuel - S (length t))) Ht) as H.
  rewrite app_nil_r in H.
  replace (length t + S (fuel - S (length t))) with fuel in H by lia.
  rewrite H. simpl. now rewrite app_nil_r.
Qed.

End ReFacts.


Section FirstTag.
Import Re ReFacts.
Variable re : regex.
Variable P : str -> Prop.
Hypothesis match_iff : forall s n,
  match_here re s = Some n <-> exists tag rest, s = tag ++ rest /\ P tag /\ n = length tag.

Lemma search_first_tag (html : str) :
  has_tag P html ->
  exists pre tag post,
    first_tag P html pre tag post /\ search re html = Some (length pre, length tag).
Proof.
  intros (a & t & b & -> & Ht).
  destruct (search_complete re (a ++ t ++ b) (length a) (length t)) as (i & n & Hs & Hi).
  - rewrite length_app. lia.
  - rewrite drop_app_length. apply match_iff. now exists t, b.
  - destruct (search_sound re _ _ _ Hs) as (Hm & Hlen & Hmin).
    apply match_iff in Hm as (tag & rest & Hd & Htag & ->).
    set (html := a ++ t ++ b) in *.
    exists (take i html), tag, rest.
    assert (Hpre : length (take i html) = i) by (rewrite length_take; lia).
    rewrite Hpre. split; [|exact Hs].
    split; [|split; [exact Htag|]].
    + rewrite <- Hd. symmetry. apply take_drop.
    + intros pre' tag' post' Heq Htag'.
      rewrite Hpre.
      destruct (Nat.le_gt_cases i (length pre')) as [Hle|Hgt]; [exact Hle|].
      specialize (Hmin _ Hgt). rewrite Heq, drop_app_length in Hmin.
      assert (match_here re (tag' ++ post') = Some (length tag')) as Hc
        by (apply match_iff; now exists tag', post').
      congruence.
Qed.

Lemma search_no_tag (html : str) : ~ has_tag P html -> search re html = None.
Proof.
  intros Hno. destruct (search re html) as [[i n]|] eqn:Hs; [|reflexivity].
  exfalso. apply Hno.
  destruct (search_sound re _ _ _ Hs) as (Hm & _ & _).
  apply match_iff in Hm as (tag & rest & Hd & Htag & _).
  exists (take i html), tag, rest. split; [|exact Htag].
  rewrite <- Hd. symmetry. apply take_drop.
Qed.

Lemma sub1_at (repl : str) (tpl : list titem) (pre tag post : str) :
  parse_template 1 repl = Ok tpl ->
  search re (pre ++ tag ++ post) = Some (length pre, length tag) ->
  sub1 re repl (pre ++ tag ++ post) = Ok (pre ++ expand tpl tag ++ post).
Proof.
  intros Hp Hs. unfold sub1. rewrite Hp, Hs.
  rewrite take_app_length. rewrite drop_app_length, take_app_length.
  rewrite <- drop_drop, drop_app_length, drop_app_length. reflexivity.
Qed.

End FirstTag.

Module TagFacts.
Import Re ReFacts.

Lemma lower_take (n : nat) (s : str) : lower (take n s) = take n (lower s).
Proof. unfold lower. symmetry. apply firstn_map. Qed.

(** What [startswith p (lower s)] says about [s] itself. *)
Lemma startswith_lower_inv (p s : str) :
  startswith p (lower s) = true ->
  lower (take (length p) s) = p /\ length (take (length p) s) = length p /\
  s = take (length p) s ++ drop (length p) s.
Proof.
  intros H. apply startswith_inv in H.
  assert (Hlen : length p <= length s).
  { rewrite <- (lower_length s), H, length_app. lia. }
  split; [|split].
  - rewrite lower_take, H. apply take_app_length.
  - rewrite length_take. lia.
  - symmetry. apply take_drop.
Qed.

Lemma head_open_match (s : str) (n : nat) :
  match_here head_open s = Some n <->
  exists tag rest, s = tag ++ rest /\ is_head_open_tag tag /\ n = length tag.
Proof.
  unfold head_open. rewrite match_lits, match_until. split.
  - destruct (startswith (lit "<head") (lower s)) eqn:Hp; [|discriminate].
    destruct (index_of ">"%char (drop (length (lit "<head")) s)) as [k|] eqn:Hk;
      [|discriminate].
    intros [= <-].
    apply index_of_inv in Hk as (attrs & rest & Hd & Hattrs & ->).
    apply startswith_lower_inv in Hp as (Hname & Hlen & Hs).
    set (name := take (length (lit "<head")) s) in *.
    exists (name ++ attrs ++ [">"%char]), rest. split; [|split].
    + rewrite Hs at 1. rewrite Hd. now rewrite <- !app_assoc.
    + now exists name, attrs.
    + rewrite !length_app, Hlen. simpl. lia.
  - intros (tag & rest & -> & (name & attrs & -> & Hname & Hattrs) & ->).
    assert (Hlen : length name = length (lit "<head"))
      by now rewrite <- (lower_length name), Hname.
    rewrite <- !app_assoc, lower_app, Hname, startswith_app.
    rewrite <- Hlen, drop_app_length. cbn [app].
    rewrite index_of_app by exact Hattrs.
    cbn [option_map]. f_equal. rewrite !length_app. simpl. lia.
Qed.

Lemma head_close_match (s : str) (n : nat) :
  match_here head_close s = Some n <->
  exists tag rest, s = tag ++ rest /\ is_head_close_tag tag /\ n = length tag.
Proof.
  unfold head_close. rewrite match_lits, match_spaces_gt. split.
  - destruct (startswith (lit "</head") (lower s)) eqn:Hp; [|discriminate].
    set (d := drop (length (lit "</head")) s) in *.
    destruct (startswith [">"%char] (drop (span_len isspace d) d)) eqn:Hgt;
      [|discriminate].
    intros [= <-].
    apply startswith_lower_inv in Hp as (Hname & Hlen & Hs).
    set (name := take (length (lit "</head")) s) in *.
    apply startswith_inv in Hgt.
    set (k := span_len isspace d) in *.
    assert (Hk : length (take k d) = k).
    { rewrite length_take. apply Nat.min_l.
      assert (length (drop k d) > 0) by (rewrite Hgt; simpl; lia).
      rewrite length_drop in H. lia. }
    exists (name ++ take k d ++ [">"%char]), (drop 1 (drop k d)). split; [|split].
    + rewrite Hs at 1. fold d. rewrite <- (take_drop k d) at 1.
      rewrite Hgt at 1. now rewrite <- !app_assoc.
    + exists name, (take k d). split; [reflexivity|split; [exact Hname|]].
      apply span_len_take.
    + rewrite !length_app, Hlen, Hk. simpl. now rewrite Nat.add_1_r.
  - intros (tag & rest & -> & (name & ws & -> & Hname & Hws) & ->).
    assert (Hlen : length name = length (lit "</head"))
      by now rewrite <- (lower_length name), Hname.
    rewrite <- !app_assoc, lower_app, Hname, startswith_app.
    rewrite <- Hlen, drop_app_length. cbn [app].
    rewrite span_len_app by (exact Hws || reflexivity).
    rewrite drop_app_length. cbn [startswith]. rewrite char_eqb_refl. cbn [andb].
    rewrite !length_app. simpl. f_equal. lia.
Qed.

(** The replacement of [_inject_base_tag] compiles to: group 1, a line
    break, two blanks, the base tag. *)
Lemma inject_template (bt : str) :
  no_backslash bt = true ->
  parse_template 1 (lit "\1\n  " ++ bt)
  = Ok (TGroup 1 :: TLit newline :: TLit " "%char :: TLit " "%char :: map TLit bt).
Proof.
  intros H. unfold parse_template.
  change (lit "\1\n  " ++ bt)
    with ("\"%char :: "1"%char :: "\"%char :: "n"%char :: " "%char :: " "%char :: bt).
  cbn [length].
  pose proof (parse_literal_fuel 1 bt (S (S (S (length bt)))) H ltac:(lia)) as Hp.
  remember (S (S (length bt))) as f.
  change (parse_template_aux (S (S (S (S (S f))))) 1
            ("\"%char :: "1"%char :: "\"%char :: "n"%char :: " "%char :: " "%char :: bt))
    with (result_map (app [TGroup 1])
            (result_map (app [TLit newline])
               (result_map (app [TLit " "%char])
                  (result_map (app [TLit " "%char]) (parse_template_aux (S f) 1 bt))))).
  rewrite Hp. reflexivity.
Qed.

(** The replacement of [_wrap_with_css] compiles to: the style block, a
    line break, group 1. *)
Lemma wrap_template (st : str) :
  no_backslash st = true ->
  parse_template 1 (st ++ lit "\n\1") = Ok (map TLit st ++ [TLit newline; TGroup 1]).
Proof.
  intros H. unfold parse_template.
  rewrite length_app. change (length (lit "\n\1")) with 4.
  replace (S (length st + 4)) with (length st + 5) by lia.
  rewrite parse_literal_prefix by exact H. reflexivity.
Qed.

Lemma base_tag_no_backslash (base_href : str) :
  no_backslash base_href = true -> no_backslash (base_tag base_href) = true.
Proof.
  intros H. unfold base_tag. rewrite !no_backslash_app, H. reflexivity.
Qed.

Lemma style_tag_no_backslash (css : str) :
  no_backslash css = true -> no_backslash (style_tag css) = true.
Proof.
  intros H. unfold style_tag. rewrite !no_backslash_app, H. reflexivity.
Qed.

End TagFacts.

(** * HtmlPreparer: what holds of the two transformations *)

Section InjectBaseTag.
Import Re ReFacts TagFacts.

Lemma has_head_open_guard (html : str) :
  has_tag is_head_open_tag html -> contains (lit "<head") (lower html) = true.
Proof.
  intros (pre & tag & post & -> & name & attrs & -> & Hname & _).
  rewrite !lower_app, Hname, <- !app_assoc. apply contains_at.
Qed.

(** C4. For every HTML text that contains an opening head tag ([<head],
    in any letter case, up to the next [>]) and every base URI without a
    backslash (the program passes the output of [as_uri]),
    [_inject_base_tag] returns the text with one insertion, placed right
    after the first such tag: a line break, two blanks and the base tag.
    The text before the tag, the tag, and the text after it are unchanged. *)
Theorem inject_base_tag_after_first_head (html base_href : str) :
  no_backslash base_href = true ->
  has_tag is_head_open_tag html ->
  exists pre tag post,
    first_tag is_head_open_tag html pre tag post /\
    _inject_base_tag html base_href
    = Ok (pre ++ tag ++ (newline :: lit "  " ++ base_tag base_href) ++ post).
Proof.
  intros Hb Hhead.
  destruct (search_first_tag head_open is_head_open_tag head_open_match html Hhead)
    as (pre & tag & post & Hfirst & Hs).
  exists pre, tag, post. split; [exact Hfirst|].
  unfold _inject_base_tag. rewrite (has_head_open_guard html Hhead).
  destruct Hfirst as (-> & _ & _).
  rewrite (sub1_at head_open _ _ pre tag post
             (inject_template _ (base_tag_no_backslash _ Hb)) Hs).
  cbn [expand]. rewrite expand_literals.
  rewrite <- !app_assoc. reflexivity.
Qed.

Lemma inject_base_tag_after_first_head_witness :
  exists pre tag post,
    first_tag is_head_open_tag
      (lit "<html><HEAD lang=en><title>t</title></head><body></body></html>")
      pre tag post /\
    _inject_base_tag
      (lit "<html><HEAD lang=en><title>t</title></head><body></body></html>")
      (lit "file:///tmp/")
    = Ok (pre ++ tag ++ (newline :: lit "  " ++ base_tag (lit "file:///tmp/")) ++ post).
Proof.
  apply (inject_base_tag_after_first_head
           (lit "<html><HEAD lang=en><title>t</title></head><body></body></html>")
           (lit "file:///tmp/")).
  - reflexivity.
  - exists (lit "<html>"), (lit "<HEAD lang=en>"),
      (lit "<title>t</title></head><body></body></html>").
    split; [reflexivity|].
    exists (lit "<HEAD"), (lit " lang=en"). split; [reflexivity|].
    split; [reflexivity|]. vm_compute. intros H.
    repeat (apply elem_of_cons in H as [H|H]; [discriminate|]).
    now apply elem_of_nil in H.
Defined.

Lemma search_none_no_tag (html : str) :
  search head_open html = None -> ~ has_tag is_head_open_tag html.
Proof.
  intros Hs Hhead.
  destruct (search_first_tag head_open is_head_open_tag head_open_match html Hhead)
    as (pre & tag & post & _ & Hs').
  congruence.
Qed.

(** Without [<head] in the lowered text the result is the document
    skeleton: the base tag alone in the head, the input as the body. *)
Lemma inject_base_tag_skeleton (html base_href : str) :
  contains (lit "<head") (lower html) = false ->
  _inject_base_tag html base_href
  = Ok (lit "<!doctype html><html><head>" ++ base_tag base_href
          ++ lit "</head><body>" ++ html ++ lit "</body></html>").
Proof. intros H. unfold _inject_base_tag. now rewrite H. Qed.

(** C2 (the code departs from the claim).  The text [<p>a</p><header]
    contains no opening head tag, yet [_inject_base_tag] does not build the
    document skeleton: the test [<head in html.lower()] succeeds, the
    pattern finds no tag to insert after, and the text comes back as it
    was, without a base tag. *)
Theorem inject_base_tag_unclosed_head :
  ~ has_tag is_head_open_tag (lit "<p>a</p><header") /\
  _inject_base_tag (lit "<p>a</p><header") (lit "file:///tmp/")
  = Ok (lit "<p>a</p><header") /\
  contains (lit "<base") (lit "<p>a</p><header") = false.
Proof.
  split; [|split].
  - apply search_none_no_tag. reflexivity.
  - reflexivity.
  - reflexivity.
Qed.


(** C9 (the code departs from the claim).  On the text [<p>a</p><header]
    the first-match insertion does not succeed: two applications of
    [_inject_base_tag] return the text as it was, and it holds no base tag
    at all. *)
Theorem inject_base_tag_twice_unclosed_head :
  inject_base_tag_twice (lit "<p>a</p><header") (lit "file:///tmp/")
  = Ok (lit "<p>a</p><header") /\
  contains (base_tag (lit "file:///tmp/")) (lit "<p>a</p><header") = false.
Proof. split; reflexivity. Qed.

(** What the two departures have in common: a text that has [<head]
    somewhere but no opening head tag comes back as it was. *)
Lemma inject_base_tag_guard_without_tag (html base_href : str) :
  no_backslash base_href = true ->
  contains (lit "<head") (lower html) = true ->
  ~ has_tag is_head_open_tag html ->
  _inject_base_tag html base_href = Ok html.
Proof.
  intros Hb Hguard Hno. unfold _inject_base_tag, sub1. rewrite Hguard.
  rewrite (inject_template _ (base_tag_no_backslash _ Hb)).
  now rewrite (search_no_tag head_open is_head_open_tag head_open_match html Hno).
Qed.

(** *** The second application, where the first one inserts *)

(** An opening head tag has its only [>] at the end. *)
Lemma open_tag_shape (t : str) :
  is_head_open_tag t -> exists body, t = body ++ [">"%char] /\ (">"%char ∉ body).
Proof.
  intros (name & attrs & -> & Hname & Hattrs).
  exists (name ++ attrs). split; [now rewrite <- app_assoc|].
  intros Hin. apply elem_of_app in Hin as [Hin|Hin]; [|now apply Hattrs].
  destruct name as [|c1 [|c2 [|c3 [|c4 [|c5 [|c6 name]]]]]]; try discriminate.
  unfold lower in Hname. cbn [map] in Hname.
  change (lit "<head") with ["<"%char; "h"%char; "e"%char; "a"%char; "d"%char] in Hname.
  injection Hname as H1 H2 H3 H4 H5.
  repeat (apply elem_of_cons in Hin as [<-|Hin]; [discriminate|]).
  now apply elem_of_nil in Hin.
Qed.

(** A match does not run over a [>]. *)
Lemma open_match_stops_at_gt (x0 y : str) (n : nat) :
  match_here head_open ((x0 ++ [">"%char]) ++ y) = Some n ->
  n <= length (x0 ++ [">"%char]).
Proof.
  intros H. apply head_open_match in H as (tag & rest & Heq & Htag & ->).
  destruct (Nat.le_gt_cases (length tag) (length (x0 ++ [">"%char]))) as [Hle|Hgt];
    [exact Hle|].
  exfalso. destruct (open_tag_shape tag Htag) as (body & -> & Hbody).
  rewrite !length_app in Hgt. simpl in Hgt.
  apply Hbody. apply (list_elem_of_lookup_2 body (length x0)).
  assert (Hl : ((x0 ++ [">"%char]) ++ y) !! length x0 = Some ">"%char).
  { rewrite <- app_assoc. apply list_lookup_middle, eq_refl. }
  rewrite Heq in Hl. rewrite <- app_assoc in Hl.
  rewrite lookup_app_l in Hl by lia. exact Hl.
Qed.

Lemma open_match_local (x y y' : str) (n : nat) :
  match_here head_open (x ++ y) = Some n -> n <= length x ->
  match_here head_open (x ++ y') = Some n.
Proof.
  intros H Hn. apply head_open_match in H as (tag & rest & Heq & Htag & ->).
  apply head_open_match. exists tag, (drop (length tag) x ++ y').
  split; [|split; [exact Htag|reflexivity]].
  rewrite app_assoc. f_equal.
  rewrite <- (take_drop (length tag) x) at 1. f_equal.
  rewrite <- (take_app_le x y) by exact Hn.
  rewrite Heq. apply take_app_length.
Qed.

Lemma search_at (re : regex) (s : str) (i n : nat) :
  i <= length s ->
  (forall j, j < i -> match_here re (drop j s) = None) ->
  match_here re (drop i s) = Some n ->
  search re s = Some (i, n).
Proof.
  intros Hi Hmin Hm.
  destruct (search_complete re s i n Hi Hm) as (i' & n' & Hs & Hle).
  destruct (search_sound re s i' n' Hs) as (Hm' & _ & _).
  destruct (Nat.eq_dec i' i) as [->|Hne]; [congruence|].
  rewrite Hmin in Hm' by lia. discriminate.
Qed.

(** What follows the first opening head tag does not move it. *)
Lemma first_open_tag_stable (pre tag post post' : str) :
  first_tag is_head_open_tag (pre ++ tag ++ post) pre tag post ->
  search head_open (pre ++ tag ++ post') = Some (length pre, length tag).
Proof.
  intros (_ & Htag & Hmin).
  destruct (open_tag_shape tag Htag) as (body & -> & _).
  assert (Hcut : forall j z, j <= length pre ->
            drop j (pre ++ (body ++ [">"%char]) ++ z)
            = (drop j (pre ++ body) ++ [">"%char]) ++ z).
  { intros j z Hj. rewrite !app_assoc. rewrite (drop_app_le _ z).
    - f_equal. rewrite <- !app_assoc. rewrite (drop_app_le pre) by exact Hj.
      rewrite (drop_app_le pre) by exact Hj. now rewrite <- !app_assoc.
    - rewrite !length_app. lia. }
  apply search_at.
  - rewrite !length_app. lia.
  - intros j Hj.
    destruct (match_here head_open (drop j (pre ++ (body ++ [">"%char]) ++ post')))
      as [n|] eqn:E; [|reflexivity].
    exfalso. rewrite Hcut in E by lia.
    pose proof (open_match_stops_at_gt _ _ _ E) as Hn.
    apply (open_match_local _ _ post n) in E; [|exact Hn].
    rewrite <- Hcut in E by lia.
    apply head_open_match in E as (tag' & rest & Heq & Htag' & _).
    specialize (Hmin (take j (pre ++ (body ++ [">"%char]) ++ post)) tag' rest).
    rewrite <- Heq, take_drop in Hmin. specialize (Hmin eq_refl Htag').
    rewrite length_take in Hmin. lia.
  - rewrite drop_app_length. apply head_open_match.
    exists (body ++ [">"%char]), post'. now repeat split.
Qed.

(** For a text with an opening head tag, two applications insert twice
    after the first such tag. *)
Lemma inject_base_tag_twice_head (html base_href : str) :
  no_backslash base_href = true ->
  has_tag is_head_open_tag html ->
  exists pre tag post,
    first_tag is_head_open_tag html pre tag post /\
    inject_base_tag_twice html base_href
    = Ok (pre ++ tag ++ (newline :: lit "  " ++ base_tag base_href)
            ++ (newline :: lit "  " ++ base_tag base_href) ++ post).
Proof.
  intros Hb Hhead.
  destruct (search_first_tag head_open is_head_open_tag head_open_match html Hhead)
    as (pre & tag & post & Hfirst & Hs).
  exists pre, tag, post. split; [exact Hfirst|].
  pose proof Hfirst as (-> & Htag & _).
  pose proof (inject_template _ (base_tag_no_backslash _ Hb)) as Htpl.
  unfold inject_base_tag_twice, _inject_base_tag.
  rewrite (has_head_open_guard _ Hhead).
  rewrite (sub1_at head_open _ _ pre tag post Htpl Hs).
  cbn [expand]. rewrite expand_literals.
  set (ins := newline :: lit "  " ++ base_tag base_href).
  change (tag ++ newline :: " "%char :: " "%char :: base_tag base_href)
    with (tag ++ ins).
  rewrite <- (app_assoc tag ins post).
  assert (Hguard : contains (lit "<head") (lower (pre ++ tag ++ ins ++ post)) = true).
  { apply has_head_open_guard. now exists pre, tag, (ins ++ post). }
  rewrite Hguard.
  rewrite (sub1_at head_open _ _ pre tag (ins ++ post) Htpl
             (first_open_tag_stable pre tag post (ins ++ post) Hfirst)).
  cbn [expand]. rewrite expand_literals.
  change (newline :: " "%char :: " "%char :: base_tag base_href) with ins.
  now rewrite <- (app_assoc tag ins).
Qed.

(** For a text without [<head], the second application inserts after the
    head tag of the skeleton the first one made. *)
Lemma inject_base_tag_twice_skeleton (html base_href : str) :
  no_backslash base_href = true ->
  contains (lit "<head") (lower html) = false ->
  inject_base_tag_twice html base_href
  = Ok (lit "<!doctype html><html><head>"
          ++ (newline :: lit "  " ++ base_tag base_href) ++ base_tag base_href
          ++ lit "</head><body>" ++ html ++ lit "</body></html>").
Proof.
  intros Hb Hguard. unfold inject_base_tag_twice.
  rewrite (inject_base_tag_skeleton _ _ Hguard).
  set (rest := base_tag base_href ++ lit "</head><body>" ++ html ++ lit "</body></html>").
  unfold _inject_base_tag.
  assert (Hg : contains (lit "<head")
                 (lower (lit "<!doctype html><html><head>" ++ rest)) = true).
  { apply has_head_open_guard.
    exists (lit "<!doctype html><html>"), (lit "<head>"), rest.
    split; [reflexivity|]. exists (lit "<head"), []. repeat split.
    apply not_elem_of_nil. }
  rewrite Hg. unfold sub1.
  rewrite (inject_template _ (base_tag_no_backslash _ Hb)).
  change (search head_open (lit "<!doctype html><html><head>" ++ rest))
    with (Some (21, 6)).
  cbn [expand]. rewrite expand_literals. reflexivity.
Qed.

End InjectBaseTag.


Section WrapWithCss.
Import Re ReFacts TagFacts.

Lemma count_starts_skip (re : regex) (x y : str) :
  (forall j, j < length x -> match_here re (drop j x ++ y) = None) ->
  count_starts re (x ++ y) = count_starts re y.
Proof.
  induction x as [|c x IH]; intros H; [reflexivity|].
  pose proof (H 0 ltac:(simpl; lia)) as H0. rewrite drop_0 in H0.
  cbn [app count_starts]. cbn [app] in H0. rewrite H0.
  apply IH. intros j Hj. apply (H (S j)). simpl. lia.
Qed.

(** A head-closing tag has its only [<] in front and ends with [>]. *)
Lemma close_tag_shape (t : str) :
  is_head_close_tag t ->
  (exists c tl, t = c :: tl /\ ("<"%char ∉ tl)) /\ (exists body, t = body ++ [">"%char]).
Proof.
  intros (name & ws & -> & Hname & Hws). split.
  - destruct name as [|c1 [|c2 [|c3 [|c4 [|c5 [|c6 [|c7 name]]]]]]]; try discriminate.
    unfold lower in Hname. cbn [map] in Hname.
    change (lit "</head")
      with ["<"%char; "/"%char; "h"%char; "e"%char; "a"%char; "d"%char] in Hname.
    injection Hname as H1 H2 H3 H4 H5 H6.
    exists c1, ([c2; c3; c4; c5; c6] ++ ws ++ [">"%char]). split; [reflexivity|].
    intros Hin. apply elem_of_app in Hin as [Hin|Hin].
    + repeat (apply elem_of_cons in Hin as [<-|Hin]; [discriminate|]).
      now apply elem_of_nil in Hin.
    + apply elem_of_app in Hin as [Hin|Hin].
      * apply list_elem_of_In in Hin.
        rewrite forallb_forall in Hws. apply Hws in Hin. discriminate.
      * apply elem_of_cons in Hin as [Hin|Hin]; [discriminate|].
        now apply elem_of_nil in Hin.
  - exists (name ++ ws). now rewrite <- app_assoc.
Qed.

(** A match does not run over a second [<]. *)
Lemma close_match_stops_at_lt (x y : str) (n : nat) :
  x <> [] -> match_here head_close (x ++ "<"%char :: y) = Some n -> n <= length x.
Proof.
  intros Hx H. apply head_close_match in H as (tag & rest & Heq & Htag & ->).
  destruct (Nat.le_gt_cases (length tag) (length x)) as [Hle|Hgt]; [exact Hle|].
  exfalso. destruct (close_tag_shape tag Htag) as [(c & tl & -> & Hlt) _].
  apply Hlt. apply (list_elem_of_lookup_2 tl (length x - 1)).
  assert (Hl : (x ++ "<"%char :: y) !! length x = Some "<"%char)
    by apply list_lookup_middle, eq_refl.
  rewrite Heq, lookup_app_l in Hl by exact Hgt.
  destruct x as [|x0 x]; [congruence|]. simpl in Hl |- *.
  now rewrite Nat.sub_0_r.
Qed.

(** A match that ends inside [x] does not depend on what follows [x]. *)
Lemma close_match_local (x y y' : str) (n : nat) :
  match_here head_close (x ++ y) = Some n -> n <= length x ->
  match_here head_close (x ++ y') = Some n.
Proof.
  intros H Hn. apply head_close_match in H as (tag & rest & Heq & Htag & ->).
  apply head_close_match. exists tag, (drop (length tag) x ++ y').
  split; [|split; [exact Htag|reflexivity]].
  rewrite app_assoc. f_equal.
  rewrite <- (take_drop (length tag) x) at 1. f_equal.
  rewrite <- (take_app_le x y) by exact Hn.
  rewrite Heq. apply take_app_length.
Qed.

Lemma first_close_no_earlier (html pre tag post : str) (j : nat) :
  first_tag is_head_close_tag html pre tag post -> j < length pre ->
  match_here head_close (drop j pre ++ tag ++ post) = None.
Proof.
  intros (-> & _ & Hmin) Hj.
  destruct (match_here head_close (drop j pre ++ tag ++ post)) as [n|] eqn:E;
    [|reflexivity].
  exfalso. apply head_close_match in E as (tag' & rest & Heq & Htag' & _).
  specialize (Hmin (take j pre) tag' rest).
  rewrite length_take in Hmin.
  assert (Hd : pre ++ tag ++ post = take j pre ++ tag' ++ rest).
  { rewrite <- Heq, (app_assoc (take j pre)), take_drop. reflexivity. }
  specialize (Hmin Hd Htag'). lia.
Qed.

Lemma close_not_over_style_end (c y : str) (n : nat) :
  c <> [] -> ~ has_tag is_head_close_tag c ->
  match_here head_close (c ++ newline :: "<"%char :: y) = Some n -> False.
Proof.
  intros Hc Hno H.
  assert (Hn : n <= length c + 1).
  { change (c ++ newline :: "<"%char :: y) with (c ++ [newline] ++ "<"%char :: y) in H.
    rewrite app_assoc in H. apply close_match_stops_at_lt in H.
    - now rewrite length_app in H.
    - destruct c; discriminate. }
  destruct (Nat.le_gt_cases n (length c)) as [Hle|Hgt].
  - apply (close_match_local c _ [] n) in H; [|exact Hle].
    rewrite app_nil_r in H.
    apply head_close_match in H as (tag & rest & -> & Htag & _).
    apply Hno. now exists [], tag, rest.
  - assert (n = length (c ++ [newline])) as -> by (rewrite length_app; simpl; lia).
    change (c ++ newline :: "<"%char :: y) with (c ++ [newline] ++ "<"%char :: y) in H.
    rewrite app_assoc in H.
    apply head_close_match in H as (tag & rest & Heq & Htag & Hlen).
    assert (Ht : tag = c ++ [newline]).
    { rewrite <- (take_app_length tag rest), <- Heq, <- Hlen. apply take_app_length. }
    destruct (close_tag_shape tag Htag) as [_ (body & Hb)].
    rewrite Ht in Hb. apply app_inj_tail in Hb as [_ Hb]. discriminate.
Qed.

Lemma drop_ne_nil {A} (j : nat) (l : list A) : j < length l -> drop j l <> [].
Proof.
  intros Hj Hd. apply (f_equal length) in Hd. rewrite length_drop in Hd.
  simpl in Hd. lia.
Qed.

Lemma has_tag_drop (P : str -> Prop) (j : nat) (s : str) :
  has_tag P (drop j s) -> has_tag P s.
Proof.
  intros (a & t & b & Heq & Ht). exists (take j s ++ a), t, b.
  split; [|exact Ht]. rewrite <- app_assoc, <- Heq. symmetry. apply take_drop.
Qed.

(** Inserting the style block before the first head-closing tag neither
    adds nor removes a head-closing tag, provided the CSS text has none. *)
Lemma wrap_count (html css pre tag post : str) :
  first_tag is_head_close_tag html pre tag post ->
  ~ has_tag is_head_close_tag css ->
  count_head_close (pre ++ (style_tag css ++ [newline]) ++ tag ++ post)
  = count_head_close html.
Proof.
  intros Hfirst Hcss. unfold count_head_close.
  pose proof Hfirst as (-> & _ & _).
  rewrite (count_starts_skip head_close pre (tag ++ post))
    by (intros j Hj; now apply (first_close_no_earlier _ _ _ _ j Hfirst)).
  rewrite count_starts_skip.
  - unfold style_tag. rewrite <- !app_assoc.
    rewrite (app_assoc (lit "<style>") [newline]).
    rewrite count_starts_skip
      by (intros j Hj; do 8 (destruct j as [|j]; [reflexivity|]); simpl in Hj; lia).
    rewrite count_starts_skip.
    + rewrite (app_assoc [newline] (lit "</style>")).
      rewrite (app_assoc ([newline] ++ lit "</style>") [newline]).
      apply count_starts_skip.
      intros j Hj; do 10 (destruct j as [|j]; [reflexivity|]); simpl in Hj; lia.
    + intros j Hj.
      destruct (match_here head_close
                  (drop j css ++ [newline] ++ lit "</style>" ++ [newline] ++ tag ++ post))
        as [n|] eqn:E; [|reflexivity].
      exfalso. apply (close_not_over_style_end (drop j css) _ n) in E; [exact E| |].
      * now apply drop_ne_nil.
      * intros Hd. apply Hcss. now apply (has_tag_drop _ j).
  - intros j Hj.
    destruct (match_here head_close
                (drop j pre ++ (style_tag css ++ [newline]) ++ tag ++ post))
      as [n|] eqn:E; [|reflexivity].
    exfalso.
    assert (Hn : n <= length (drop j pre)).
    { apply (close_match_stops_at_lt _ _ n (drop_ne_nil j pre Hj) E). }
    apply (close_match_local _ _ (tag ++ post) n) in E; [|exact Hn].
    rewrite (first_close_no_earlier _ _ _ _ j Hfirst Hj) in E. discriminate.
Qed.

(** C3, as the code has it.
    - When the CSS text holds no backslash, the lowered HTML text
      contains [<head] and the text has a
      head-closing tag ([</head], white space, [>], in any letter case),
      [_wrap_with_css] inserts the style block and a line break right
      before the first head-closing tag; the text before it, the tag and
      the text after it are unchanged, so the tag moves by the length of
      what was inserted.  When the CSS text has no head-closing tag of its
      own, the number of head-closing tags is the one of the input (one, if
      the input had one).
    - When the lowered HTML text does not contain [<head], the input
      becomes the body of a document skeleton whose head is the style
      block. *)
Theorem wrap_with_css_first_close (html css : str) :
  (no_backslash css = true ->
   contains (lit "<head") (lower html) = true ->
   has_tag is_head_close_tag html ->
   exists pre tag post,
     first_tag is_head_close_tag html pre tag post /\
     _wrap_with_css html css
     = Ok (pre ++ (style_tag css ++ [newline]) ++ tag ++ post) /\
     (~ has_tag is_head_close_tag css ->
      count_head_close (pre ++ (style_tag css ++ [newline]) ++ tag ++ post)
      = count_head_close html))
  /\
  (contains (lit "<head") (lower html) = false ->
   _wrap_with_css html css
   = Ok (lit "<!doctype html><html><head>" ++ style_tag css
           ++ lit "</head><body>" ++ html ++ lit "</body></html>")).
Proof.
  split.
  - intros Hcss Hguard Hclose.
    destruct (search_first_tag head_close is_head_close_tag head_close_match html Hclose)
      as (pre & tag & post & Hfirst & Hs).
    exists pre, tag, post. split; [exact Hfirst|]. split.
    + unfold _wrap_with_css. rewrite Hguard.
      destruct Hfirst as (-> & _ & _).
      rewrite (sub1_at head_close _ _ pre tag post
                 (wrap_template _ (style_tag_no_backslash _ Hcss)) Hs).
      rewrite expand_app, expand_literals. cbn [expand].
      rewrite app_nil_r, <- !app_assoc. reflexivity.
    + intros Hno. now apply wrap_count.
  - intros Hguard. unfold _wrap_with_css. now rewrite Hguard.
Qed.

Lemma wrap_with_css_first_close_witness :
  exists pre tag post,
    first_tag is_head_close_tag
      (lit "<html><head><title>t</title></HEAD ><body></body></html>") pre tag post /\
    _wrap_with_css (lit "<html><head><title>t</title></HEAD ><body></body></html>")
      (lit "p{margin:0}")
    = Ok (pre ++ (style_tag (lit "p{margin:0}") ++ [newline]) ++ tag ++ post) /\
    (~ has_tag is_head_close_tag (lit "p{margin:0}") ->
     count_head_close (pre ++ (style_tag (lit "p{margin:0}") ++ [newline]) ++ tag ++ post)
     = count_head_close (lit "<html><head><title>t</title></HEAD ><body></body></html>")).
Proof.
  apply (proj1 (wrap_with_css_first_close
                  (lit "<html><head><title>t</title></HEAD ><body></body></html>")
                  (lit "p{margin:0}"))).
  - reflexivity.
  - reflexivity.
  - exists (lit "<html><head><title>t</title>"), (lit "</HEAD >"),
      (lit "<body></body></html>").
    split; [reflexivity|].
    exists (lit "</HEAD"), (lit " "). split; [reflexivity|].
    split; reflexivity.
Defined.

(** C3 fails as stated, at four inputs.
    - A CSS text with a backslash is not inserted raw: [\e] is no escape
      of a replacement template and [re.sub] raises.
    - [</head>] has a head-closing tag but no [<head]: the text is wrapped
      in the skeleton and the result has two head-closing tags.
    - A text with two head-closing tags keeps both.
    - [<p>a</p><header] has no head element, yet it is not wrapped: it
      comes back as it was, without the style block. *)
Lemma wrap_with_css_counterexample :
  _wrap_with_css (lit "<head></head>") (lit ".i:before{content:'\e900'}")
  = Raise TemplateError
  /\
  (has_tag is_head_close_tag (lit "</head>") /\
   _wrap_with_css (lit "</head>") (lit "p{}")
   = Ok (lit "<!doctype html><html><head>" ++ style_tag (lit "p{}")
           ++ lit "</head><body></head></body></html>") /\
   count_head_close
     (lit "<!doctype html><html><head>" ++ style_tag (lit "p{}")
        ++ lit "</head><body></head></body></html>") = 2)
  /\
  (_wrap_with_css (lit "<head></head><body></head></body>") (lit "p{}")
   = Ok (lit "<head>" ++ style_tag (lit "p{}") ++ [newline]
           ++ lit "</head><body></head></body>") /\
   count_head_close
     (lit "<head>" ++ style_tag (lit "p{}") ++ [newline]
        ++ lit "</head><body></head></body>") = 2)
  /\
  (~ has_tag is_head_open_tag (lit "<p>a</p><header") /\
   _wrap_with_css (lit "<p>a</p><header") (lit "p{}") = Ok (lit "<p>a</p><header")).
Proof.
  split; [reflexivity|]. split; [|split].
  - split; [|split; reflexivity].
    exists [], (lit "</head>"), []. split; [reflexivity|].
    exists (lit "</head"), []. repeat split.
  - split; reflexivity.
  - split; [|reflexivity]. apply search_none_no_tag. reflexivity.
Qed.

End WrapWithCss.

(** * Conversion and command line *)

Section ProgramFacts.
Variable E : env.

Lemma call_no_fault (ev : event) (w : world) :
  fault E ev = None -> call E ev w = (Ok tt, log_event ev w).
Proof. intros H. unfold call. now rewrite H. Qed.

(** C5. When both or neither of the inline HTML text and the HTML file
    path are given, [html_to_pdf] raises the input-configuration error
    and the world is the one it started in: no external call was made, no
    directory created, no file read or written. *)
Theorem html_to_pdf_rejects_before_io
    (html : option str) (html_path : option Path) (output_pdf_path : Path)
    (base_dir : option Path) (pdf : PdfOptions) (render : RenderOptions) (w : world) :
  (html = None /\ html_path = None) \/ (html <> None /\ html_path <> None) ->
  html_to_pdf E html html_path output_pdf_path base_dir pdf render w
  = (Raise (ValueError
              (lit "Faqat bittasini bering: html (string) yoki html_path (file).")), w).
Proof.
  intros [[-> ->]|[H1 H2]]; [reflexivity|].
  destruct html, html_path; try congruence. reflexivity.
Qed.

End ProgramFacts.

Lemma html_to_pdf_rejects_before_io_witness :
  html_to_pdf example_env None None (Path_of_str (lit "out.pdf")) None
    PdfOptions_default RenderOptions_default example_world
  = (Raise (ValueError
              (lit "Faqat bittasini bering: html (string) yoki html_path (file).")),
     example_world).
Proof.
  apply (html_to_pdf_rejects_before_io example_env None None).
  left. split; reflexivity.
Defined.

(** ** Margin parsing *)

Lemma split_not_nil (sep : ascii) (s : str) : split sep s <> [].
Proof.
  destruct s as [|c s]; simpl; [discriminate|].
  destruct (char_eqb c sep); [discriminate|].
  destruct (split sep s); discriminate.
Qed.

Lemma split_join (sep : ascii) (s : str) : join [sep] (split sep s) = s.
Proof.
  induction s as [|c s IH]; [reflexivity|].
  simpl. destruct (char_eqb c sep) eqn:Ec.
  - apply char_eqb_eq in Ec. subst c.
    pose proof (split_not_nil sep s) as Hne.
    destruct (split sep s) as [|t ts]; [congruence|].
    change (join [sep] ([] :: t :: ts)) with ([] ++ [sep] ++ join [sep] (t :: ts)).
    now rewrite IH.
  - pose proof (split_not_nil sep s) as Hne.
    destruct (split sep s) as [|t ts]; [congruence|].
    destruct ts as [|t' ts]; [simpl in *; now rewrite <- IH|].
    change (join [sep] ((c :: t) :: t' :: ts))
      with (c :: t ++ [sep] ++ join [sep] (t' :: ts)).
    change (join [sep] (t :: t' :: ts))
      with (t ++ [sep] ++ join [sep] (t' :: ts)) in IH.
    now rewrite IH.
Qed.

Lemma split_no_sep (sep : ascii) (s : str) : Forall (fun t => sep ∉ t) (split sep s).
Proof.
  induction s as [|c s IH]; simpl.
  - constructor; [apply not_elem_of_nil|constructor].
  - destruct (char_eqb c sep) eqn:Ec.
    + constructor; [apply not_elem_of_nil|exact IH].
    + destruct (split sep s) as [|t ts]; [repeat constructor|].
      * intros H. apply elem_of_cons in H as [H|H]; [|now apply elem_of_nil in H].
        apply char_eqb_neq in Ec. congruence.
      * inversion IH as [|? ? Ht Hts]; subst. constructor; [|exact Hts].
        apply not_elem_of_cons. split; [|exact Ht].
        apply char_eqb_neq in Ec. congruence.
Qed.

Lemma parse_margin_four (margin : str) (r : str * str * str * str) :
  parse_margin margin = Some r -> four_tokens margin.
Proof.
  unfold parse_margin. intros H.
  pose proof (split_join ","%char margin) as Hj.
  pose proof (split_no_sep ","%char margin) as Hs.
  destruct (split ","%char margin) as [|t1 [|t2 [|t3 [|t4 [|t5 l]]]]];
    try discriminate.
  exists t1, t2, t3, t4. split; [exact Hs|]. symmetry. exact Hj.
Qed.

(** C8. When the margin argument is not made of exactly four
    comma-separated tokens, [main] prints the usage message and exits with
    status 2; nothing else happens, so no rendering is attempted.  The
    margin ["16mm,14mm,16mm,14mm"] is read as top 16mm, right 14mm, bottom
    16mm, left 14mm. *)
Theorem main_margin (E : env) (args : Args) (w : world) :
  (~ four_tokens (arg_margin args) ->
   main E args w = (SysExit 2, log_event (EvPrint margin_message) w))
  /\
  parse_margin (lit "16mm,14mm,16mm,14mm")
  = Some (lit "16mm", lit "14mm", lit "16mm", lit "14mm").
Proof.
  split; [|reflexivity].
  intros Hbad. unfold main.
  destruct (parse_margin (arg_margin args)) as [r|] eqn:Hp; [|reflexivity].
  exfalso. apply Hbad. now apply (parse_margin_four _ r).
Qed.

Lemma not_four_tokens_bad : ~ four_tokens (lit "bad").
Proof.
  intros (t1 & t2 & t3 & t4 & _ & H).
  assert (Hin : ","%char ∈ lit "bad").
  { rewrite H. apply elem_of_app. right. apply elem_of_cons. now left. }
  vm_compute in Hin.
  repeat (apply elem_of_cons in Hin as [Hin|Hin]; [discriminate|]).
  now apply elem_of_nil in Hin.
Qed.

Lemma main_margin_witness :
  main example_env (example_args "bad") example_world
  = (SysExit 2, log_event (EvPrint margin_message) example_world).
Proof.
  apply (main_margin example_env (example_args "bad") example_world).
  exact not_four_tokens_bad.
Defined.

(** ** The render and export stage *)

(** C6 (the code departs from the claim).  Browser, context and page are
    there, and they are not both closed on every exit path.
    - When [page.emulate_media] raises, the exception leaves [html_to_pdf]
      as it is, and neither [context.close()] nor [browser.close()] is
      called: the call comes before the [try] statement whose [finally]
      clause closes them.  Only Playwright itself is stopped.
    - When [context.close()] raises in the [finally] clause,
      [browser.close()] is not called. *)
Theorem html_to_pdf_teardown_missed :
  (media_failure_run.1
   = Raise (External (lit "Target page, context or browser has been closed"))
   /\ existsb is_new_page (trace media_failure_run.2) = true
   /\ existsb is_context_close (trace media_failure_run.2) = false
   /\ existsb is_browser_close (trace media_failure_run.2) = false
   /\ existsb is_playwright_stop (trace media_failure_run.2) = true)
  /\
  (close_failure_run.1 = Raise (External (lit "Connection closed"))
   /\ existsb is_new_page (trace close_failure_run.2) = true
   /\ existsb is_context_close (trace close_failure_run.2) = true
   /\ existsb is_browser_close (trace close_failure_run.2) = false).
Proof. repeat split; vm_compute; reflexivity. Qed.

(** X23. What the [try] statement of [html_to_pdf] does guarantee:
    whatever happens in it (navigation, wait for the fonts, export: each
    may return or raise), its [finally] clause runs, and when
    [context.close()] returns the last two external calls of the stage are
    [context.close()] and then [browser.close()]. *)
Theorem render_export_closes (E : env) (handler : option (str -> route_action))
    (tmp_html output_pdf_path : Path) (pdf : PdfOptions) (render : RenderOptions)
    (w : world) :
  fault E EvContextClose = None ->
  exists tr,
    trace (render_export E handler tmp_html output_pdf_path pdf render w).2
    = tr ++ [EvContextClose; EvBrowserClose].
Proof.
  intros Hclose. unfold render_export, finally.
  match goal with |- context [try_except ?b ?h w] => destruct (try_except b h w) as [r w1] end.
  unfold bind. rewrite (call_no_fault E _ _ Hclose).
  unfold call. exists (trace w1).
  destruct (fault E EvBrowserClose); simpl; now rewrite <- app_assoc.
Qed.

Lemma render_export_closes_witness :
  exists tr,
    trace (render_export failing_goto_env (Some route_handler)
             {| anchored := true; parts := [lit "tmp"; lit "html2pdf_k3"; lit "index.html"] |}
             {| anchored := true; parts := [lit "home"; lit "u"; lit "out.pdf"] |}
             PdfOptions_default no_network example_world).2
    = tr ++ [EvContextClose; EvBrowserClose].
Proof.
  apply (render_export_closes failing_goto_env). reflexivity.
Defined.

(** ** Request interception *)

Lemma nodes_fold_log (f : str -> event) (l : list str) (w : world) :
  nodes (fold_left (fun acc url => log_event (f url) acc) l w) = nodes w.
Proof. revert w; induction l as [|x l IH]; intros w; simpl; [reflexivity|now rewrite IH]. Qed.

Lemma trace_fold_log (f : str -> event) (l : list str) (w : world) :
  trace (fold_left (fun acc url => log_event (f url) acc) l w) = trace w ++ map f l.
Proof.
  revert w; induction l as [|x l IH]; intros w; simpl.
  - now rewrite app_nil_r.
  - rewrite IH. simpl. now rewrite <- app_assoc.
Qed.

Section Agree.
Variables E1 E2 : env.
Hypothesis same_cwd : cwd E1 = cwd E2.
Hypothesis same_tmpdir : tmpdir E1 = tmpdir E2.
Hypothesis same_pdf : pdf_bytes E1 = pdf_bytes E2.
Hypothesis same_fault : fault E1 = fault E2.

Lemma agree_ret {A} (a : A) : agree (ret a) (ret a).
Proof. intros w1 w2 H. now split. Qed.

Lemma agree_raise {A} (e : exn) : agree (@raise A e) (raise e).
Proof. intros w1 w2 H. now split. Qed.

Lemma agree_lift {A} (r : result A) : agree (lift r) (lift r).
Proof. intros w1 w2 H. now split. Qed.

Lemma agree_bind {A B} (m1 m2 : M A) (k1 k2 : A -> M B) :
  agree m1 m2 -> (forall a, agree (k1 a) (k2 a)) -> agree (bind m1 k1) (bind m2 k2).
Proof.
  intros Hm Hk w1 w2 H. unfold bind. destruct (Hm w1 w2 H) as [Hr Hn].
  destruct (m1 w1) as [[a|e] w1'], (m2 w2) as [[a'|e'] w2']; simpl in *;
    try discriminate.
  - injection Hr as <-. now apply Hk.
  - injection Hr as <-. split; [reflexivity|assumption].
Qed.

Lemma agree_try_except {A} (b1 b2 : M A) (h1 h2 : exn -> M A) :
  agree b1 b2 -> (forall e, agree (h1 e) (h2 e)) ->
  agree (try_except b1 h1) (try_except b2 h2).
Proof.
  intros Hb Hh w1 w2 H. unfold try_except. destruct (Hb w1 w2 H) as [Hr Hn].
  destruct (b1 w1) as [[a|e] w1'], (b2 w2) as [[a'|e'] w2']; simpl in *;
    try discriminate.
  - split; assumption.
  - injection Hr as <-. now apply Hh.
Qed.

Lemma agree_finally {A} (b1 b2 : M A) (f1 f2 : M unit) :
  agree b1 b2 -> agree f1 f2 -> agree (finally b1 f1) (finally b2 f2).
Proof.
  intros Hb Hf w1 w2 H. unfold finally. destruct (Hb w1 w2 H) as [Hr Hn].
  destruct (b1 w1) as [r1 w1'], (b2 w2) as [r2 w2']; simpl in *. subst r2.
  destruct (Hf w1' w2' Hn) as [Hr Hn'].
  destruct (f1 w1') as [[u|e] w1''], (f2 w2') as [[u'|e'] w2'']; simpl in *;
    try discriminate; [|injection Hr as <-]; split; assumption || reflexivity.
Qed.

Lemma agree_call (ev : event) : agree (call E1 ev) (call E2 ev).
Proof.
  intros w1 w2 H. unfold call. rewrite same_fault.
  destruct (fault E2 ev); now split.
Qed.

Lemma agree_resolve (p : Path) : agree (resolve E1 p) (resolve E2 p).
Proof.
  unfold resolve. rewrite same_cwd.
  apply agree_bind; [apply agree_call|intros _; apply agree_ret].
Qed.

Lemma agree_Path_cwd : agree (Path_cwd E1) (Path_cwd E2).
Proof.
  unfold Path_cwd. rewrite same_cwd.
  apply agree_bind; [apply agree_call|intros _; apply agree_ret].
Qed.

Lemma loc_same (p : Path) : loc E1 p = loc E2 p.
Proof. unfold loc. now rewrite same_cwd. Qed.

Lemma agree_mkdir (p : Path) : agree (mkdir E1 p) (mkdir E2 p).
Proof.
  unfold mkdir. apply agree_bind; [apply agree_call|intros _].
  intros w1 w2 H. rewrite loc_same, H.
  destruct (mkdir_p (nodes w2) (loc E2 p)); now split.
Qed.

Lemma agree_exists (p : Path) : agree (exists_ E1 p) (exists_ E2 p).
Proof.
  unfold exists_. apply agree_bind; [apply agree_call|intros _].
  intros w1 w2 H. rewrite loc_same, H. now split.
Qed.

Lemma agree_read_text (p : Path) : agree (read_text E1 p) (read_text E2 p).
Proof.
  unfold read_text. apply agree_bind; [apply agree_call|intros _].
  intros w1 w2 H. rewrite loc_same, H.
  destruct (nodes w2 !! loc E2 p) as [[c|]|]; now split.
Qed.

Lemma agree_write_text (p : Path) (text : str) :
  agree (write_text E1 p text) (write_text E2 p text).
Proof.
  unfold write_text. apply agree_bind; [apply agree_call|intros _].
  intros w1 w2 H. rewrite !loc_same, H.
  destruct (nodes w2 !! loc E2 (Path_parent p)) as [[c|]|];
    destruct (nodes w2 !! loc E2 p) as [[c'|]|]; simpl; now rewrite ?H.
Qed.

Lemma agree_mkdtemp : agree (mkdtemp E1) (mkdtemp E2).
Proof.
  unfold mkdtemp. rewrite same_tmpdir.
  apply agree_bind; [apply agree_call|intros _].
  intros w1 w2 H. rewrite loc_same, H.
  destruct (is_fresh _ _); simpl; now rewrite ?H.
Qed.

Lemma agree_cleanup (tmp : Path) : agree (cleanup E1 tmp) (cleanup E2 tmp).
Proof.
  unfold cleanup. apply agree_bind; [apply agree_call|intros _].
  intros w1 w2 H. rewrite loc_same. simpl. now rewrite H.
Qed.

Lemma agree_page_pdf (kwargs : pdf_kwargs) :
  agree (page_pdf E1 kwargs) (page_pdf E2 kwargs).
Proof.
  unfold page_pdf. apply agree_bind; [apply agree_call|intros _].
  intros w1 w2 H. rewrite loc_same, same_pdf. simpl. now rewrite H.
Qed.

(** The requests the page makes, and what the handler answers, leave
    the outcome of the navigation and the files as they are. *)
Lemma agree_goto (h : option (str -> route_action)) (uri : str)
    (wt : wait_condition) (timeout : Z) :
  agree (goto E1 h uri wt timeout) (goto E2 h uri wt timeout).
Proof.
  intros w1 w2 H. unfold goto. rewrite same_fault.
  destruct (fault E2 (EvGoto uri wt timeout)); destruct h; simpl;
    rewrite ?nodes_fold_log; simpl; now split.
Qed.

Ltac agree_step :=
  first
    [ apply agree_ret | apply agree_raise | apply agree_lift | apply agree_call
    | apply agree_resolve | apply agree_Path_cwd | apply agree_mkdir
    | apply agree_exists | apply agree_read_text | apply agree_write_text
    | apply agree_mkdtemp | apply agree_cleanup | apply agree_page_pdf
    | apply agree_goto
    | apply agree_finally | apply agree_try_except; [|intros ?]
    | apply agree_bind; [|intros ?]
    | match goal with
      | |- agree (match ?x with _ => _ end) _ => destruct x
      | |- agree (if ?b then _ else _) _ => destruct b
      end ].

Lemma agree_render_export (h : option (str -> route_action))
    (tmp_html out : Path) (pdf : PdfOptions) (render : RenderOptions) :
  agree (render_export E1 h tmp_html out pdf render)
        (render_export E2 h tmp_html out pdf render).
Proof. unfold render_export. repeat agree_step. Qed.

Lemma agree_html_to_pdf (html : option str) (html_path : option Path)
    (out : Path) (base_dir : option Path) (pdf : PdfOptions) (render : RenderOptions) :
  agree (html_to_pdf E1 html html_path out base_dir pdf render)
        (html_to_pdf E2 html html_path out base_dir pdf render).
Proof.
  unfold html_to_pdf, with_TemporaryDirectory, with_async_playwright.
  cbv zeta.
  repeat first [apply agree_render_export | agree_step].
Qed.

End Agree.

(** C7. The handler installed when the network is not allowed continues
    exactly the requests whose URL starts with [file://] and aborts all the
    others.  During the navigation every request of the page (the document
    first) gets one of the two answers.  The requests, and so the aborted
    ones, do not change the outcome of the conversion nor the files it
    leaves: with any requests the conversion ends as it does with none. *)
Theorem route_handler_policy (E : env) :
  (forall url,
     (route_handler url = RouteContinue <-> exists rest, url = lit "file://" ++ rest) /\
     (route_handler url = RouteAbort <-> ~ exists rest, url = lit "file://" ++ rest))
  /\
  (forall uri wt timeout w,
     trace (goto E (Some route_handler) uri wt timeout w).2
     = trace w ++ EvGoto uri wt timeout
         :: map (route_event route_handler) (uri :: requests E))
  /\
  (forall reqs html html_path out base_dir pdf render,
     agree (html_to_pdf (with_requests E reqs) html html_path out base_dir pdf render)
           (html_to_pdf (with_requests E []) html html_path out base_dir pdf render)).
Proof.
  split; [|split].
  - intros url. unfold route_handler.
    destruct (startswith (lit "file://") url) eqn:Hs.
    + apply startswith_spec in Hs. split; split; intros H; try discriminate;
        try reflexivity; try exact Hs. now destruct H.
    + assert (Hn : ~ exists rest, url = lit "file://" ++ rest).
      { intros H. apply startswith_spec in H. congruence. }
      split; split; intros H; try discriminate; try reflexivity; try exact Hn.
      now destruct Hn.
  - intros uri wt timeout w. unfold goto.
    destruct (fault E (EvGoto uri wt timeout)); cbn [snd];
      rewrite trace_fold_log; cbn [log_event trace];
      now rewrite <- app_assoc.
  - intros. now apply agree_html_to_pdf.
Qed.

(** ** Paths and the node table *)

Lemma removelast_no_dotdot (ps : list str) : no_dotdot ps -> no_dotdot (removelast ps).
Proof.
  unfold no_dotdot. induction ps as [|c ps IH]; intros H; [constructor|].
  inversion H; subst. destruct ps as [|c' ps]; [constructor|].
  change (removelast (c :: c' :: ps)) with (c :: removelast (c' :: ps)).
  constructor; [assumption|]. now apply IH.
Qed.

Lemma normalize_fold_no_dotdot (ps acc : list str) :
  no_dotdot acc ->
  no_dotdot
    (fold_left
       (fun acc c => if bool_decide (c = lit "..") then removelast acc else acc ++ [c])
       ps acc).
Proof.
  revert acc; induction ps as [|c ps IH]; intros acc H; [exact H|].
  simpl. apply IH. case_bool_decide as Hc.
  - now apply removelast_no_dotdot.
  - apply Forall_app. split; [exact H|]. now constructor.
Qed.

Lemma normalize_no_dotdot (ps : list str) : no_dotdot (normalize ps).
Proof. apply normalize_fold_no_dotdot. constructor. Qed.

Lemma normalize_fold_id (ps acc : list str) :
  no_dotdot ps ->
  fold_left
    (fun acc c => if bool_decide (c = lit "..") then removelast acc else acc ++ [c])
    ps acc
  = acc ++ ps.
Proof.
  revert acc; induction ps as [|c ps IH]; intros acc H; simpl.
  - now rewrite app_nil_r.
  - inversion H; subst. rewrite bool_decide_eq_false_2 by assumption.
    rewrite IH by assumption. now rewrite <- app_assoc.
Qed.

Lemma normalize_id (ps : list str) : no_dotdot ps -> normalize ps = ps.
Proof. intros H. unfold normalize. now rewrite normalize_fold_id. Qed.

Lemma normalize_snoc (ps : list str) (c : str) :
  c <> lit ".." -> normalize (ps ++ [c]) = normalize ps ++ [c].
Proof.
  intros Hc. unfold normalize. rewrite fold_left_app. simpl.
  now rewrite bool_decide_eq_false_2.
Qed.

Section Locations.
Variable E : env.

Lemma loc_resolved (p : Path) : loc E (Path_resolve (cwd E) p) = loc E p.
Proof.
  unfold loc. simpl. apply normalize_id, normalize_no_dotdot.
Qed.

Lemma loc_tmp_html :
  loc E (tmp_html E) = loc E {| anchored := true; parts := tmpdir E |} ++ [lit "index.html"].
Proof. unfold loc. simpl. now apply normalize_snoc. Qed.

Lemma loc_tmp_html_parent :
  loc E (Path_parent (tmp_html E)) = loc E {| anchored := true; parts := tmpdir E |}.
Proof. unfold loc. simpl. now rewrite removelast_last. Qed.

End Locations.

Lemma fold_insert_dir_lookup (l : list (list str)) (n : gmap (list str) node)
    (q : list str) :
  fold_left (fun acc p => <[p := Dir]> acc) l n !! q
  = if bool_decide (q ∈ l) then Some Dir else n !! q.
Proof.
  revert n; induction l as [|p l IH]; intros n; simpl; [reflexivity|].
  rewrite IH. destruct (decide (q ∈ l)) as [Hin|Hnin].
  - rewrite !bool_decide_eq_true_2; [reflexivity| |assumption].
    apply elem_of_cons. now right.
  - rewrite (bool_decide_eq_false_2 _ Hnin).
    destruct (decide (q = p)) as [->|Hne].
    + rewrite lookup_insert_eq. rewrite bool_decide_eq_true_2; [reflexivity|].
      apply elem_of_cons. now left.
    + rewrite lookup_insert_ne by congruence.
      rewrite bool_decide_eq_false_2; [reflexivity|].
      intros H. apply elem_of_cons in H as [H|H]; congruence.
Qed.

Lemma prefixes_self (ps : list str) : ps ∈ prefixes ps.
Proof.
  unfold prefixes. apply list_elem_of_fmap. exists (length ps). split.
  - symmetry. apply take_ge. lia.
  - apply elem_of_seq. lia.
Qed.

Lemma prefixes_prefix (q ps : list str) : q ∈ prefixes ps -> q `prefix_of` ps.
Proof.
  unfold prefixes. intros H. apply list_elem_of_fmap in H as (k & -> & _).
  exists (drop k ps). symmetry. apply take_drop.
Qed.

Lemma mkdir_p_self (n n' : gmap (list str) node) (ps : list str) :
  mkdir_p n ps = Some n' -> n' !! ps = Some Dir.
Proof.
  unfold mkdir_p. pose proof (prefixes_self ps) as Hin.
  remember (prefixes ps) as l. destruct (existsb _ _); [discriminate|].
  intros [= <-]. rewrite fold_insert_dir_lookup.
  now rewrite (bool_decide_eq_true_2 _ Hin).
Qed.

Lemma mkdir_p_other (n n' : gmap (list str) node) (ps q : list str) :
  mkdir_p n ps = Some n' -> ~ q `prefix_of` ps -> n' !! q = n !! q.
Proof.
  unfold mkdir_p. pose proof (prefixes_prefix q ps) as Hpre.
  remember (prefixes ps) as l. destruct (existsb _ _); [discriminate|].
  intros [= <-] Hq.
  rewrite fold_insert_dir_lookup. rewrite bool_decide_eq_false_2; [reflexivity|].
  intros H. now apply Hq, Hpre.
Qed.

Lemma is_fresh_lookup (n : gmap (list str) node) (ps k : list str) :
  is_fresh n ps = true -> ps `prefix_of` k -> n !! k = None.
Proof.
  unfold is_fresh. intros Hf Hk.
  destruct (n !! k) as [v|] eqn:Hl; [|reflexivity]. exfalso.
  rewrite forallb_forall in Hf.
  assert (Hin : In k (map fst (map_to_list n))).
  { apply in_map_iff. exists (k, v). split; [reflexivity|].
    apply list_elem_of_In. now apply elem_of_map_to_list. }
  apply Hf in Hin. now rewrite (bool_decide_eq_true_2 _ Hk) in Hin.
Qed.

(** ** Validation of the inputs *)

Section Validation.
Variable E : env.

Lemma bad_input_run (html : option str) (html_path : option Path) (out : Path)
    (base_dir : option Path) (pdf : PdfOptions) (render : RenderOptions) (w : world) :
  (html = None /\ html_path = None) \/ (html <> None /\ html_path <> None) ->
  html_to_pdf E html html_path out base_dir pdf render w
  = (Raise (ValueError
              (lit "Faqat bittasini bering: html (string) yoki html_path (file).")), w).
Proof.
  intros [[-> ->]|[H1 H2]]; [reflexivity|].
  destruct html, html_path; try congruence. reflexivity.
Qed.

(** The run up to the check of the HTML file, when the file is not there. *)
Lemma html_missing_run (hp out : Path) (base_dir : option Path)
    (pdf : PdfOptions) (render : RenderOptions) (w : world)
    (n1 : gmap (list str) node) :
  fault E (EvResolve out) = None ->
  fault E (EvMkdir (output_parent E out)) = None ->
  fault E (EvResolve hp) = None ->
  fault E (EvExists (Path_resolve (cwd E) hp)) = None ->
  mkdir_p (nodes w) (loc E (output_parent E out)) = Some n1 ->
  n1 !! loc E hp = None ->
  html_to_pdf E None (Some hp) out base_dir pdf render w
  = (Raise (FileNotFoundError
              (lit "HTML topilmadi: " ++ Path_str (Path_resolve (cwd E) hp))),
     {| nodes := n1;
        trace := trace w ++ [EvResolve out; EvMkdir (output_parent E out);
                             EvResolve hp; EvExists (Path_resolve (cwd E) hp)] |}).
Proof.
  intros F1 F2 F3 F4 Hmk Hl.
  unfold html_to_pdf. cbn [is_None Bool.eqb].
  unfold resolve at 1. unfold bind at 1. unfold bind at 1.
  rewrite (call_no_fault E _ _ F1). unfold ret at 1.
  unfold bind at 1. unfold mkdir. unfold bind at 1.
  fold (output_parent E out). rewrite (call_no_fault E _ _ F2).
  cbn [nodes log_event]. rewrite Hmk.
  unfold bind at 1. unfold resolve at 1. unfold bind at 1. unfold bind at 1.
  rewrite (call_no_fault E _ _ F3). unfold ret at 1.
  unfold exists_. unfold bind at 1. unfold bind at 1.
  rewrite (call_no_fault E _ _ F4).
  cbn [nodes log_event set_nodes]. rewrite loc_resolved, Hl.
  rewrite bool_decide_eq_false_2 by (intros [x Hx]; discriminate).
  cbn [negb]. unfold raise. f_equal.
  unfold log_event, set_nodes. cbn [nodes trace]. f_equal.
  rewrite <- !app_assoc. reflexivity.
Qed.

End Validation.

(** C10. Let the call name an HTML file that does not exist (and is not
    one of the directories made for the output), and let the calls up to
    the check return.  Then the not-found error is raised after the output
    path was resolved and its parent directories were made: these are the
    external calls made, in this order, and the file table at the time of
    the error holds the output directory, also when it did not before. *)
Theorem html_not_found_after_mkdir (E : env) (hp out : Path) (base_dir : option Path)
    (pdf : PdfOptions) (render : RenderOptions) (w : world)
    (n1 : gmap (list str) node) :
  fault E (EvResolve out) = None ->
  fault E (EvMkdir (output_parent E out)) = None ->
  fault E (EvResolve hp) = None ->
  fault E (EvExists (Path_resolve (cwd E) hp)) = None ->
  mkdir_p (nodes w) (loc E (output_parent E out)) = Some n1 ->
  nodes w !! loc E hp = None ->
  ~ loc E hp `prefix_of` loc E (output_parent E out) ->
  html_to_pdf E None (Some hp) out base_dir pdf render w
  = (Raise (FileNotFoundError
              (lit "HTML topilmadi: " ++ Path_str (Path_resolve (cwd E) hp))),
     {| nodes := n1;
        trace := trace w ++ [EvResolve out; EvMkdir (output_parent E out);
                             EvResolve hp; EvExists (Path_resolve (cwd E) hp)] |})
  /\ n1 !! loc E (output_parent E out) = Some Dir
  /\ (nodes w !! loc E (output_parent E out) = None -> n1 <> nodes w).
Proof.
  intros F1 F2 F3 F4 Hmk Hl Hpre.
  pose proof (mkdir_p_self _ _ _ Hmk) as Hdir.
  split; [|split].
  - apply html_missing_run; try assumption.
    now rewrite (mkdir_p_other _ _ _ _ Hmk Hpre).
  - exact Hdir.
  - intros Hnone Heq. rewrite Heq in Hdir. congruence.
Qed.

Lemma html_not_found_after_mkdir_witness :
  html_to_pdf example_env None (Some (Path_of_str (lit "missing.html")))
    (Path_of_str (lit "out/x.pdf")) None PdfOptions_default RenderOptions_default
    example_world
  = (Raise (FileNotFoundError
              (lit "HTML topilmadi: "
                 ++ Path_str (Path_resolve (cwd example_env)
                                (Path_of_str (lit "missing.html"))))),
     {| nodes := example_nodes_out;
        trace := trace example_world
                 ++ [EvResolve (Path_of_str (lit "out/x.pdf"));
                     EvMkdir (output_parent example_env (Path_of_str (lit "out/x.pdf")));
                     EvResolve (Path_of_str (lit "missing.html"));
                     EvExists (Path_resolve (cwd example_env)
                                 (Path_of_str (lit "missing.html")))] |})
  /\ example_nodes_out
     !! loc example_env (output_parent example_env (Path_of_str (lit "out/x.pdf")))
     = Some Dir
  /\ (nodes example_world
      !! loc example_env (output_parent example_env (Path_of_str (lit "out/x.pdf")))
      = None ->
      example_nodes_out <> nodes example_world).
Proof.
  apply (html_not_found_after_mkdir example_env
           (Path_of_str (lit "missing.html")) (Path_of_str (lit "out/x.pdf")) None
           PdfOptions_default RenderOptions_default example_world example_nodes_out).
  - reflexivity.
  - reflexivity.
  - reflexivity.
  - reflexivity.
  - vm_compute. reflexivity.
  - vm_compute. reflexivity.
  - intros [k Hk]. vm_compute in Hk. discriminate.
Defined.

(** ** Runs followed on the file table *)

Section Ends.
Variable E : env.

Lemma ends_outcome {A} (m : M A) (w : world) (r : result A) (n' : gmap (list str) node) :
  ends m (nodes w) r n' -> (m w).1 = r.
Proof. intros H. destruct (H w eq_refl) as (w' & -> & _). reflexivity. Qed.

Lemma ends_ret {A} (a : A) n : ends (ret a) n (Ok a) n.
Proof. intros w Hw. now exists w. Qed.

Lemma ends_raise {A} (e : exn) n : ends (@raise A e) n (Raise e) n.
Proof. intros w Hw. now exists w. Qed.

Lemma ends_lift {A} (r : result A) n : ends (lift r) n r n.
Proof. intros w Hw. now exists w. Qed.

Lemma ends_bind_ok {A B} (m : M A) (k : A -> M B) n a n1 r n2 :
  ends m n (Ok a) n1 -> ends (k a) n1 r n2 -> ends (bind m k) n r n2.
Proof.
  intros Hm Hk w Hw. unfold bind. destruct (Hm w Hw) as (w1 & -> & Hw1).
  now apply Hk.
Qed.

Lemma ends_bind_raise {A B} (m : M A) (k : A -> M B) n e n1 :
  ends m n (Raise e) n1 -> ends (bind m k) n (Raise e) n1.
Proof.
  intros Hm w Hw. unfold bind. destruct (Hm w Hw) as (w1 & -> & Hw1).
  now exists w1.
Qed.

Lemma ends_finally {A} (b : M A) (f : M unit) n r n1 n2 :
  ends b n r n1 -> ends f n1 (Ok tt) n2 -> ends (finally b f) n r n2.
Proof.
  intros Hb Hf w Hw. unfold finally. destruct (Hb w Hw) as (w1 & -> & Hw1).
  destruct (Hf w1 Hw1) as (w2 & -> & Hw2). now exists w2.
Qed.

Lemma ends_try_ok {A} (b : M A) (h : exn -> M A) n a n1 :
  ends b n (Ok a) n1 -> ends (try_except b h) n (Ok a) n1.
Proof.
  intros Hb w Hw. unfold try_except. destruct (Hb w Hw) as (w1 & -> & Hw1).
  now exists w1.
Qed.

Lemma ends_try_raise {A} (b : M A) (h : exn -> M A) n e n1 r n2 :
  ends b n (Raise e) n1 -> ends (h e) n1 r n2 -> ends (try_except b h) n r n2.
Proof.
  intros Hb Hh w Hw. unfold try_except. destruct (Hb w Hw) as (w1 & -> & Hw1).
  now apply Hh.
Qed.

Lemma ends_call (ev : event) n : fault E ev = None -> ends (call E ev) n (Ok tt) n.
Proof. intros H w Hw. unfold call. rewrite H. now eexists. Qed.

Lemma ends_call_fault (ev : event) (msg : str) n :
  fault E ev = Some msg -> ends (call E ev) n (Raise (External msg)) n.
Proof. intros H w Hw. unfold call. rewrite H. now eexists. Qed.

Hypothesis Hquiet : quiet E.

Lemma ends_resolve (p : Path) n :
  ends (resolve E p) n (Ok (Path_resolve (cwd E) p)) n.
Proof.
  unfold resolve. eapply ends_bind_ok; [now apply ends_call, Hquiet|apply ends_ret].
Qed.

Lemma ends_Path_cwd n :
  ends (Path_cwd E) n (Ok {| anchored := true; parts := cwd E |}) n.
Proof.
  unfold Path_cwd. eapply ends_bind_ok; [now apply ends_call, Hquiet|apply ends_ret].
Qed.

Lemma ends_mkdir (p : Path) n n1 :
  mkdir_p n (loc E p) = Some n1 -> ends (mkdir E p) n (Ok tt) n1.
Proof.
  intros H. unfold mkdir. eapply ends_bind_ok; [now apply ends_call, Hquiet|].
  intros w Hw. rewrite Hw, H. now eexists.
Qed.

Lemma ends_exists_true (p : Path) n v :
  n !! loc E p = Some v -> ends (exists_ E p) n (Ok true) n.
Proof.
  intros H. unfold exists_. eapply ends_bind_ok; [now apply ends_call, Hquiet|].
  intros w Hw. rewrite Hw, H. rewrite bool_decide_eq_true_2 by eauto. now eexists.
Qed.

Lemma ends_exists_false (p : Path) n :
  n !! loc E p = None -> ends (exists_ E p) n (Ok false) n.
Proof.
  intros H. unfold exists_. eapply ends_bind_ok; [now apply ends_call, Hquiet|].
  intros w Hw. rewrite Hw, H.
  rewrite bool_decide_eq_false_2 by (intros [x Hx]; discriminate). now eexists.
Qed.

Lemma ends_read_text (p : Path) n content :
  n !! loc E p = Some (File content) -> ends (read_text E p) n (Ok content) n.
Proof.
  intros H. unfold read_text. eapply ends_bind_ok; [now apply ends_call, Hquiet|].
  intros w Hw. rewrite Hw, H. now eexists.
Qed.

Lemma ends_write_text (p : Path) (text : str) n :
  n !! loc E (Path_parent p) = Some Dir -> n !! loc E p = None ->
  ends (write_text E p text) n (Ok tt) (<[loc E p := File text]> n).
Proof.
  intros Hd Hp. unfold write_text.
  eapply ends_bind_ok; [now apply ends_call, Hquiet|].
  intros w Hw. rewrite Hw, Hd, Hp. now eexists.
Qed.

Lemma ends_mkdtemp n :
  is_fresh n (loc E {| anchored := true; parts := tmpdir E |}) = true ->
  ends (mkdtemp E) n (Ok {| anchored := true; parts := tmpdir E |})
    (<[loc E {| anchored := true; parts := tmpdir E |} := Dir]> n).
Proof.
  intros H. unfold mkdtemp. eapply ends_bind_ok; [now apply ends_call, Hquiet|].
  intros w Hw. rewrite Hw, H. now eexists.
Qed.

Lemma ends_cleanup (tmp : Path) n :
  ends (cleanup E tmp) n (Ok tt) (rmtree n (loc E tmp)).
Proof.
  unfold cleanup. eapply ends_bind_ok; [now apply ends_call, Hquiet|].
  intros w Hw. rewrite Hw. now eexists.
Qed.

Lemma ends_goto (h : option (str -> route_action)) (uri : str)
    (wt : wait_condition) (timeout : Z) n :
  ends (goto E h uri wt timeout) n
    (match fault E (EvGoto uri wt timeout) with
     | Some msg => Raise (External msg)
     | None => Ok tt
     end) n.
Proof.
  intros w Hw. unfold goto.
  destruct (fault E (EvGoto uri wt timeout)); eexists; (split; [reflexivity|]);
    destruct h; simpl; rewrite ?nodes_fold_log; exact Hw.
Qed.

Lemma ends_evaluate (js : str) n :
  ends (try_except (call E (EvEvaluate js)) (fun _ => ret tt)) n (Ok tt) n.
Proof.
  destruct (fault E (EvEvaluate js)) as [msg|] eqn:Hf.
  - eapply ends_try_raise; [eapply ends_call_fault, Hf|apply ends_ret].
  - apply ends_try_ok. now apply ends_call.
Qed.

Lemma ends_page_pdf (kwargs : pdf_kwargs) n :
  exists n',
    ends (page_pdf E kwargs) n
      (match fault E (EvPdf kwargs) with
       | Some msg => Raise (External msg)
       | None => Ok tt
       end) n'.
Proof.
  unfold page_pdf. destruct (fault E (EvPdf kwargs)) as [msg|] eqn:Hf.
  - exists n. apply ends_bind_raise. eapply ends_call_fault, Hf.
  - exists (<[loc E (Path_of_str (kw_path kwargs)) := File (pdf_bytes E)]> n).
    eapply ends_bind_ok; [now apply ends_call|].
    intros w Hw. rewrite Hw. now eexists.
Qed.

(** The stage ends as [render_outcome] says. *)
Lemma ends_render_export (h : option (str -> route_action)) (out : Path)
    (pdf : PdfOptions) (render : RenderOptions) n :
  exists n',
    ends (render_export E h (tmp_html E) (Path_resolve (cwd E) out) pdf render) n
      (render_outcome E out pdf render) n'.
Proof.
  unfold render_export, render_outcome, goto_event, pdf_event.
  pose proof (ends_goto h (tmp_uri E) (wait_until render) (timeout_ms render) n) as Hg.
  destruct (ends_page_pdf (make_pdf_kwargs (Path_resolve (cwd E) out) pdf) n)
    as (np & Hp).
  assert (Hclose : forall n0, ends (bind (call E EvContextClose)
                                      (fun _ => call E EvBrowserClose)) n0 (Ok tt) n0).
  { intros n0. eapply ends_bind_ok; now apply ends_call, Hquiet. }
  destruct (fault E (EvGoto (tmp_uri E) (wait_until render) (timeout_ms render)))
    as [msg|].
  - exists n. eapply ends_finally; [|apply Hclose].
    eapply ends_try_raise;
      [eapply ends_bind_ok; [apply ends_lift|]; apply ends_bind_raise; exact Hg
      |apply ends_raise].
  - destruct (fault E (EvPdf (make_pdf_kwargs (Path_resolve (cwd E) out) pdf)))
      as [msg|].
    + exists np. eapply ends_finally; [|apply Hclose].
      eapply ends_try_raise;
        [eapply ends_bind_ok; [apply ends_lift|];
         eapply ends_bind_ok; [exact Hg|];
         eapply ends_bind_ok; [apply ends_evaluate|]; exact Hp
        |apply ends_raise].
    + exists np. eapply ends_finally; [|apply Hclose].
      apply ends_try_ok.
      eapply ends_bind_ok; [apply ends_lift|].
      eapply ends_bind_ok; [exact Hg|].
      eapply ends_bind_ok; [apply ends_evaluate|]. exact Hp.
Qed.

End Ends.

(** ** The base URI and the two text transformations never fail on it *)

Lemma forallb_concat {A} (p : A -> bool) (l : list (list A)) :
  (forall x, In x l -> forallb p x = true) -> forallb p (concat l) = true.
Proof.
  induction l as [|x l IH]; intros H; simpl; [reflexivity|].
  rewrite forallb_app, (H x) by now left. apply IH. intros y Hy. apply H. now right.
Qed.

Lemma hexdigit_no_backslash (k : nat) :
  negb (char_eqb (hexdigit k) "\"%char) = true.
Proof.
  unfold hexdigit. do 16 (destruct k as [|k]; [reflexivity|]). now destruct k.
Qed.

Lemma quote_byte_no_backslash (b : ascii) : no_backslash (quote_byte b) = true.
Proof.
  unfold quote_byte, no_backslash. destruct (url_safe b) eqn:Hs; cbn [forallb].
  - destruct (char_eqb b "\"%char) eqn:Hb; [|reflexivity].
    apply char_eqb_eq in Hb. subst b. discriminate.
  - now rewrite !hexdigit_no_backslash.
Qed.

Lemma quote_no_backslash (s : str) : no_backslash (quote s) = true.
Proof.
  unfold quote, no_backslash. apply forallb_concat. intros x Hx.
  apply in_map_iff in Hx as (b & <- & _). apply quote_byte_no_backslash.
Qed.

Lemma inject_base_tag_ok (html base_href : str) :
  no_backslash base_href = true -> exists r, _inject_base_tag html base_href = Ok r.
Proof.
  intros H. unfold _inject_base_tag, Re.sub1.
  rewrite (TagFacts.inject_template _ (TagFacts.base_tag_no_backslash _ H)).
  destruct (contains _ _); [|now eexists].
  destruct (Re.search Re.head_open html) as [[i n]|]; now eexists.
Qed.

Lemma wrap_with_css_ok (html css : str) :
  no_backslash css = true -> exists r, _wrap_with_css html css = Ok r.
Proof.
  intros H. unfold _wrap_with_css, Re.sub1.
  rewrite (TagFacts.wrap_template _ (TagFacts.style_tag_no_backslash _ H)).
  destruct (contains _ _); [|now eexists].
  destruct (Re.search Re.head_close html) as [[i n]|]; now eexists.
Qed.

(** ** Whole runs *)

Section Runs.
Variable E : env.
Hypothesis Hquiet : quiet E.
Local Open Scope m_scope.

Ltac step_with tac := eapply ends_bind_ok; [tac|]; lazy beta iota.

(** From the temporary directory on: the session ends as the stage does. *)
Lemma ends_session (html_text : str) (out : Path) (pdf : PdfOptions)
    (render : RenderOptions) (n1 : gmap (list str) node) :
  is_fresh n1 (loc E {| anchored := true; parts := tmpdir E |}) = true ->
  exists n',
    ends
      (with_TemporaryDirectory E (fun tmp =>
         let tmp_html := Path_div tmp (lit "index.html") in
         write_text E tmp_html html_text ;;
         with_async_playwright E (
           call E EvLaunch ;;
           call E EvNewContext ;;
           call E EvNewPage ;;
           handler <-
             (if negb (allow_network render) then
                call E (EvRoute (lit "**/*")) ;; ret (Some route_handler)
              else ret None) ;;
           call E (EvEmulateMedia (emulate_media render)) ;;
           render_export E handler tmp_html (Path_resolve (cwd E) out) pdf render)))
      n1 (render_outcome E out pdf render) n'.
Proof.
  intros Hfresh. unfold with_TemporaryDirectory, with_async_playwright.
  set (tmp := {| anchored := true; parts := tmpdir E |}) in *.
  set (n2 := <[loc E tmp := Dir]> n1).
  set (n3 := <[loc E (tmp_html E) := File html_text]> n2).
  destruct (ends_render_export E Hquiet
              (if negb (allow_network render) then Some route_handler else None)
              out pdf render n3) as (n4 & Hstage).
  exists (rmtree n4 (loc E tmp)).
  step_with ltac:(now apply ends_mkdtemp).
  eapply ends_finally; [|now apply ends_cleanup].
  change (Path_div tmp (lit "index.html")) with (tmp_html E).
  step_with ltac:(apply (ends_write_text E Hquiet)).
  - rewrite loc_tmp_html_parent. apply lookup_insert_eq.
  - subst n2. rewrite lookup_insert_ne.
    + apply (is_fresh_lookup _ _ _ Hfresh). rewrite loc_tmp_html.
      now exists [lit "index.html"].
    + rewrite loc_tmp_html. intros Heq.
      apply (f_equal length) in Heq. rewrite length_app in Heq. simpl in Heq. lia.
  - eapply ends_bind_ok; [now apply ends_call, Hquiet|].
    eapply ends_finally; [|now apply ends_call, Hquiet].
    step_with ltac:(now apply ends_call, Hquiet).
    step_with ltac:(now apply ends_call, Hquiet).
    step_with ltac:(now apply ends_call, Hquiet).
    destruct (allow_network render); cbn [negb] in *.
    + step_with ltac:(apply ends_ret).
      step_with ltac:(now apply ends_call, Hquiet).
      exact Hstage.
    + step_with ltac:(eapply ends_bind_ok;
                      [now apply ends_call, Hquiet|apply ends_ret]).
      step_with ltac:(now apply ends_call, Hquiet).
      exact Hstage.
Qed.

(** Reading the HTML source. *)
Lemma ends_source (html : option str) (html_path base_dir : option Path)
    (n1 : gmap (list str) node) :
  html_source_ok E html_path n1 ->
  exists text bd,
    ends
      (match html_path with
       | Some html_path =>
           html_path <- resolve E html_path ;;
           found <- exists_ E html_path ;;
           if negb found then
             raise (FileNotFoundError (lit "HTML topilmadi: " ++ Path_str html_path))
           else
             html_text <- read_text E html_path ;;
             ret (html_text, default (Path_parent html_path) base_dir)
       | None =>
           base_dir <- match base_dir with
                       | Some d => ret d
                       | None => Path_cwd E
                       end ;;
           ret (default [] html, base_dir)
       end)
      n1 (Ok (text, bd)) n1.
Proof.
  intros Hsrc. destruct html_path as [hp|].
  - destruct Hsrc as (content & Hc). do 2 eexists.
    step_with ltac:(now apply ends_resolve).
    step_with ltac:(apply (ends_exists_true E Hquiet _ _ (File content));
                    now rewrite loc_resolved).
    cbn [negb].
    step_with ltac:(apply (ends_read_text E Hquiet _ _ content);
                    now rewrite loc_resolved).
    apply ends_ret.
  - destruct base_dir as [d|]; do 2 eexists.
    + step_with ltac:(apply ends_ret). apply ends_ret.
    + step_with ltac:(now apply ends_Path_cwd). apply ends_ret.
Qed.

(** Adding the extra style sheet. *)
Lemma ends_css (html_text : str) (render : RenderOptions) (n1 : gmap (list str) node) :
  css_ok E render n1 ->
  exists text,
    ends
      (match extra_css_path render with
       | Some extra_css_path =>
           css_path <- resolve E extra_css_path ;;
           found <- exists_ E css_path ;;
           if negb found then
             raise (FileNotFoundError (lit "CSS topilmadi: " ++ Path_str css_path))
           else
             css_text <- read_text E css_path ;;
             lift (_wrap_with_css html_text css_text)
       | None => ret html_text
       end)
      n1 (Ok text) n1.
Proof.
  unfold css_ok. intros Hcss. destruct (extra_css_path render) as [cp|].
  - destruct Hcss as (css & Hc & Hb).
    destruct (wrap_with_css_ok html_text css Hb) as (text & Ht).
    exists text.
    step_with ltac:(now apply ends_resolve).
    step_with ltac:(apply (ends_exists_true E Hquiet _ _ (File css));
                    now rewrite loc_resolved).
    cbn [negb].
    step_with ltac:(apply (ends_read_text E Hquiet _ _ css);
                    now rewrite loc_resolved).
    rewrite Ht. apply ends_lift.
  - exists html_text. apply ends_ret.
Qed.

Lemma ends_css_missing (html_text : str) (render : RenderOptions) (cp : Path)
    (n1 : gmap (list str) node) :
  extra_css_path render = Some cp -> n1 !! loc E cp = None ->
  ends
    (match extra_css_path render with
     | Some extra_css_path =>
         css_path <- resolve E extra_css_path ;;
         found <- exists_ E css_path ;;
         if negb found then
           raise (FileNotFoundError (lit "CSS topilmadi: " ++ Path_str css_path))
         else
           css_text <- read_text E css_path ;;
           lift (_wrap_with_css html_text css_text)
     | None => ret html_text
     end)
    n1
    (Raise (FileNotFoundError
              (lit "CSS topilmadi: " ++ Path_str (Path_resolve (cwd E) cp))))
    n1.
Proof.
  intros -> Hl.
  step_with ltac:(now apply ends_resolve).
  step_with ltac:(apply (ends_exists_false E Hquiet); now rewrite loc_resolved).
  cbn [negb]. apply ends_raise.
Qed.

(** Adding the base tag. *)
Lemma ends_base (html_text : str) (base_dir : Path) (render : RenderOptions)
    (n1 : gmap (list str) node) :
  exists text,
    ends
      (if add_base_tag render then
         base_dir <- resolve E base_dir ;;
         uri <- lift (Path_as_uri base_dir) ;;
         lift (_inject_base_tag html_text (uri ++ lit "/"))
       else ret html_text)
      n1 (Ok text) n1.
Proof.
  destruct (add_base_tag render).
  - destruct (inject_base_tag_ok html_text
                ((lit "file://" ++ quote (Path_str (Path_resolve (cwd E) base_dir)))
                   ++ lit "/")) as (text & Ht).
    { rewrite !no_backslash_app, quote_no_backslash. reflexivity. }
    exists text.
    step_with ltac:(now apply ends_resolve).
    step_with ltac:(apply ends_lift).
    rewrite Ht. apply ends_lift.
  - exists html_text. apply ends_ret.
Qed.

(** A run whose preparation goes through ends as the stage decides. *)
Lemma html_to_pdf_prepared (html : option str) (html_path : option Path) (out : Path)
    (base_dir : option Path) (pdf : PdfOptions) (render : RenderOptions)
    (n n1 : gmap (list str) node) :
  exactly_one html html_path ->
  mkdir_p n (loc E (output_parent E out)) = Some n1 ->
  html_source_ok E html_path n1 ->
  css_ok E render n1 ->
  is_fresh n1 (loc E {| anchored := true; parts := tmpdir E |}) = true ->
  exists n',
    ends (html_to_pdf E html html_path out base_dir pdf render) n
      (match render_outcome E out pdf render with
       | Ok _ => Ok (Path_resolve (cwd E) out)
       | Raise e => Raise e
       end) n'.
Proof.
  intros Hone Hmk Hsrc Hcss Hfresh.
  destruct (ends_source html html_path base_dir n1 Hsrc) as (t1 & bd & H1).
  destruct (ends_css t1 render n1 Hcss) as (t2 & H2).
  destruct (ends_base t2 bd render n1) as (t3 & H3).
  destruct (ends_session t3 out pdf render n1 Hfresh) as (n' & H4).
  exists n'. unfold html_to_pdf.
  assert (Hvalid : Bool.eqb (is_None html) (is_None html_path) = false).
  { destruct Hone as [[Ha Hb]|[Ha Hb]]; destruct html, html_path;
      try congruence; reflexivity. }
  rewrite Hvalid.
  step_with ltac:(now apply ends_resolve).
  step_with ltac:(apply (ends_mkdir E Hquiet); exact Hmk).
  step_with ltac:(exact H1).
  step_with ltac:(exact H2).
  step_with ltac:(exact H3).
  destruct (render_outcome E out pdf render) as [[]|e].
  - step_with ltac:(exact H4). apply ends_ret.
  - apply ends_bind_raise. exact H4.
Qed.

(** A run that finds no style sheet where one was asked for. *)
Lemma html_to_pdf_css_missing (html : option str) (html_path : option Path)
    (out : Path) (base_dir : option Path) (pdf : PdfOptions) (render : RenderOptions)
    (cp : Path) (n n1 : gmap (list str) node) :
  exactly_one html html_path ->
  mkdir_p n (loc E (output_parent E out)) = Some n1 ->
  html_source_ok E html_path n1 ->
  extra_css_path render = Some cp -> n1 !! loc E cp = None ->
  ends (html_to_pdf E html html_path out base_dir pdf render) n
    (Raise (FileNotFoundError
              (lit "CSS topilmadi: " ++ Path_str (Path_resolve (cwd E) cp))))
    n1.
Proof.
  intros Hone Hmk Hsrc Hcp Hl.
  destruct (ends_source html html_path base_dir n1 Hsrc) as (t1 & bd & H1).
  unfold html_to_pdf.
  assert (Hvalid : Bool.eqb (is_None html) (is_None html_path) = false).
  { destruct Hone as [[Ha Hb]|[Ha Hb]]; destruct html, html_path;
      try congruence; reflexivity. }
  rewrite Hvalid.
  step_with ltac:(now apply ends_resolve).
  step_with ltac:(apply (ends_mkdir E Hquiet); exact Hmk).
  step_with ltac:(exact H1).
  apply ends_bind_raise. now apply ends_css_missing.
Qed.

End Runs.

(** C1 fails as stated: an invalid input configuration raises
    [ValueError], a missing HTML file or style sheet raises
    [FileNotFoundError]; none of them is wrapped in [HtmlToPdfError]. *)
Lemma html_to_pdf_error_kinds_counterexample :
  (html_to_pdf example_env None None (Path_of_str (lit "out.pdf")) None
     PdfOptions_default RenderOptions_default example_world).1
  = Raise (ValueError (lit "Faqat bittasini bering: html (string) yoki html_path (file)."))
  /\
  (html_to_pdf example_env None (Some (Path_of_str (lit "missing.html")))
     (Path_of_str (lit "out.pdf")) None
     PdfOptions_default RenderOptions_default example_world).1
  = Raise (FileNotFoundError (lit "HTML topilmadi: /home/u/missing.html"))
  /\
  (html_to_pdf example_env None (Some (Path_of_str (lit "page.html")))
     (Path_of_str (lit "out.pdf")) None
     PdfOptions_default (render_with_css "none.css") example_world).1
  = Raise (FileNotFoundError (lit "CSS topilmadi: /home/u/none.css")).
Proof. repeat split; vm_compute; reflexivity. Qed.

(** C1, as the code has it.
    - An invalid input configuration raises [ValueError].
    In an environment where the calls outside the render and export stage
    return, and once the output directory is made:
    - an HTML file that does not exist raises [FileNotFoundError];
    - a style sheet that does not exist raises [FileNotFoundError];
    - with a readable source, a readable style sheet without backslash
      and a new temporary directory, a failure of the navigation or of the
      export raises [HtmlToPdfError], which carries the exception and its
      text; when both return, the call returns the resolved output path. *)
Theorem html_to_pdf_outcomes (E : env) (html : option str) (html_path : option Path)
    (out : Path) (base_dir : option Path) (pdf : PdfOptions) (render : RenderOptions)
    (w : world) (n1 : gmap (list str) node) :
  ((html = None /\ html_path = None) \/ (html <> None /\ html_path <> None) ->
   (html_to_pdf E html html_path out base_dir pdf render w).1
   = Raise (ValueError
              (lit "Faqat bittasini bering: html (string) yoki html_path (file).")))
  /\
  (quiet E ->
   mkdir_p (nodes w) (loc E (output_parent E out)) = Some n1 ->
   (forall hp,
      html = None -> html_path = Some hp -> n1 !! loc E hp = None ->
      (html_to_pdf E html html_path out base_dir pdf render w).1
      = Raise (FileNotFoundError
                 (lit "HTML topilmadi: " ++ Path_str (Path_resolve (cwd E) hp))))
   /\
   (forall cp,
      exactly_one html html_path -> html_source_ok E html_path n1 ->
      extra_css_path render = Some cp -> n1 !! loc E cp = None ->
      (html_to_pdf E html html_path out base_dir pdf render w).1
      = Raise (FileNotFoundError
                 (lit "CSS topilmadi: " ++ Path_str (Path_resolve (cwd E) cp))))
   /\
   (exactly_one html html_path -> html_source_ok E html_path n1 ->
    css_ok E render n1 ->
    is_fresh n1 (loc E {| anchored := true; parts := tmpdir E |}) = true ->
    (forall msg,
       fault E (goto_event E render) = Some msg ->
       (html_to_pdf E html html_path out base_dir pdf render w).1
       = Raise (wrapped msg))
    /\
    (forall msg,
       fault E (goto_event E render) = None ->
       fault E (pdf_event E out pdf) = Some msg ->
       (html_to_pdf E html html_path out base_dir pdf render w).1
       = Raise (wrapped msg))
    /\
    (fault E (goto_event E render) = None ->
     fault E (pdf_event E out pdf) = None ->
     (html_to_pdf E html html_path out base_dir pdf render w).1
     = Ok (Path_resolve (cwd E) out)))).
Proof.
  split.
  - intros Hbad. now rewrite bad_input_run.
  - intros Hq Hmk. split; [|split].
    + intros hp -> -> Hl.
      rewrite (html_missing_run E hp out base_dir pdf render w n1);
        try (apply Hq; reflexivity); try assumption. reflexivity.
    + intros cp Hone Hsrc Hcp Hl.
      apply (ends_outcome _ w _ n1).
      now apply html_to_pdf_css_missing.
    + intros Hone Hsrc Hcss Hfresh.
      destruct (html_to_pdf_prepared E Hq html html_path out base_dir pdf render
                  (nodes w) n1 Hone Hmk Hsrc Hcss Hfresh) as (n' & Hends).
      apply ends_outcome in Hends. rewrite Hends. unfold render_outcome.
      split; [|split].
      * intros msg ->. reflexivity.
      * intros msg -> ->. reflexivity.
      * intros -> ->. reflexivity.
Qed.

Lemma html_to_pdf_outcomes_witness :
  (html_to_pdf example_env None (Some (Path_of_str (lit "page.html")))
     (Path_of_str (lit "out/x.pdf")) None
     PdfOptions_default (render_with_css "extra.css") example_world).1
  = Ok (Path_resolve (cwd example_env) (Path_of_str (lit "out/x.pdf"))).
Proof.
  destruct (html_to_pdf_outcomes example_env None (Some (Path_of_str (lit "page.html")))
              (Path_of_str (lit "out/x.pdf")) None
              PdfOptions_default (render_with_css "extra.css") example_world
              example_nodes_out) as [_ H].
  destruct H as (_ & _ & H).
  - intros ev _. reflexivity.
  - vm_compute. reflexivity.
  - destruct H as (_ & _ & H).
    + right. split; [reflexivity|discriminate].
    + exists (lit "<html><head></head><body>hi</body></html>"). vm_compute. reflexivity.
    + exists (lit "p{margin:0}"). split; vm_compute; reflexivity.
    + vm_compute. reflexivity.
    + apply H; reflexivity.
Defined.

(** * Further properties of the two transformations *)

Section FirstTagSearch.
Import Re ReFacts.
Variable re : regex.
Variable P : str -> Prop.
Hypothesis match_iff : forall s n,
  match_here re s = Some n <-> exists tag rest, s = tag ++ rest /\ P tag /\ n = length tag.

(** The first tag of a kind is where [search] stops. *)
Lemma first_tag_search (html pre tag post : str) :
  first_tag P html pre tag post ->
  search re html = Some (length pre, length tag).
Proof.
  intros (-> & Htag & Hmin). apply search_at.
  - rewrite length_app. lia.
  - intros j Hj.
    destruct (match_here re (drop j (pre ++ tag ++ post))) as [n|] eqn:E;
      [|reflexivity].
    exfalso. apply match_iff in E as (tag' & rest & Heq & Htag' & _).
    specialize (Hmin (take j (pre ++ tag ++ post)) tag' rest).
    rewrite <- Heq, take_drop in Hmin. specialize (Hmin eq_refl Htag').
    rewrite length_take in Hmin. lia.
  - rewrite drop_app_length. apply match_iff. now exists tag, post.
Qed.

Lemma search_is_first_tag (html : str) (i n : nat) :
  search re html = Some (i, n) ->
  first_tag P html (take i html) (take n (drop i html)) (drop (i + n) html).
Proof.
  intros Hs. destruct (search_sound re _ _ _ Hs) as (Hm & Hlen & Hmin).
  pose proof (match_here_length re _ _ Hm) as Hn.
  apply match_iff in Hm as (tag & rest & Hd & Htag & ->).
  assert (Ht : take (length tag) (drop i html) = tag)
    by (rewrite Hd; apply take_app_length).
  assert (Hr : drop (i + length tag) html = rest)
    by (rewrite <- drop_drop, Hd; apply drop_app_length).
  rewrite Ht, Hr. split; [|split; [exact Htag|]].
  - rewrite <- Hd. symmetry. apply take_drop.
  - intros pre' tag' post' Heq Htag'. rewrite length_take.
    destruct (Nat.le_gt_cases i (length pre')) as [Hle|Hgt]; [lia|].
    specialize (Hmin _ Hgt). rewrite Heq, drop_app_length in Hmin.
    assert (match_here re (tag' ++ post') = Some (length tag')) as Hc
      by (apply match_iff; now exists tag', post').
    congruence.
Qed.

End FirstTagSearch.

Section PrepareFacts.
Import Re ReFacts TagFacts.

Lemma letter_not_digit (c : ascii) :
  is_ascii_letter c = true -> is_digit c = false /\ char_eqb c "0"%char = false.
Proof.
  unfold is_ascii_letter, is_digit, in_range. intros H. split.
  - apply andb_false_iff.
    apply orb_true_iff in H as [H|H]; apply andb_true_iff in H as [H1 H2];
      apply Nat.leb_le in H1, H2; right; apply Nat.leb_gt; lia.
  - apply char_eqb_neq. intros ->. discriminate.
Qed.

Lemma bad_escape_letter_spec (c : ascii) :
  bad_escape_letter c = true ->
  is_ascii_letter c = true /\ char_eqb c "g"%char = false /\ escape_char c = None.
Proof.
  unfold bad_escape_letter, escape_char. intros H.
  apply andb_true_iff in H as [Hl Hn]. apply negb_true_iff in Hn.
  cbn [existsb lit list_ascii_of_string] in Hn.
  repeat (apply orb_false_iff in Hn as [? Hn]).
  repeat split; try assumption.
  repeat match goal with H : char_eqb c _ = false |- _ => rewrite H; clear H end.
  destruct (char_eqb c "\"%char) eqn:Hb; [|reflexivity].
  apply char_eqb_eq in Hb. subst c. discriminate.
Qed.

(** One round of the template compiler on a backslash followed by a
    letter that is no escape. *)
Lemma parse_bad_escape (fuel groups : nat) (c : ascii) (rest : str) :
  bad_escape_letter c = true ->
  parse_template_aux fuel groups ("\"%char :: c :: rest) = Raise TemplateError.
Proof.
  intros H. apply bad_escape_letter_spec in H as (Hl & Hg & He).
  destruct (letter_not_digit c Hl) as (Hd & H0).
  destruct fuel as [|fuel]; [reflexivity|].
  cbn [parse_template_aux]. cbn [char_eqb Ascii.eqb Bool.eqb negb andb].
  unfold char_eqb in *. now rewrite Hg, H0, Hd, He, Hl.
Qed.

(** X1. A text that has [<head] somewhere but no opening head tag (the tag
    is never closed by [>]) comes back from [_inject_base_tag] as it was:
    no base tag is inserted and nothing is raised. *)
Theorem inject_base_tag_without_tag (html base_href : str) :
  no_backslash base_href = true ->
  contains (lit "<head") (lower html) = true ->
  ~ has_tag is_head_open_tag html ->
  _inject_base_tag html base_href = Ok html.
Proof. exact (inject_base_tag_guard_without_tag html base_href). Qed.

Lemma inject_base_tag_without_tag_witness :
  _inject_base_tag (lit "<html><head lang=en") (lit "file:///tmp/")
  = Ok (lit "<html><head lang=en").
Proof.
  apply (inject_base_tag_without_tag (lit "<html><head lang=en")
           (lit "file:///tmp/")).
  - reflexivity.
  - reflexivity.
  - apply search_none_no_tag. reflexivity.
Defined.

(** X2. [_inject_base_tag] is not idempotent on a text with an opening head
    tag: the second application inserts a second base tag after the same
    tag, before the first one. *)
Theorem inject_base_tag_twice_on_head (html base_href : str) :
  no_backslash base_href = true ->
  has_tag is_head_open_tag html ->
  exists pre tag post,
    first_tag is_head_open_tag html pre tag post /\
    inject_base_tag_twice html base_href
    = Ok (pre ++ tag ++ (newline :: lit "  " ++ base_tag base_href)
            ++ (newline :: lit "  " ++ base_tag base_href) ++ post).
Proof. exact (inject_base_tag_twice_head html base_href). Qed.

Lemma inject_base_tag_twice_on_head_witness :
  exists pre tag post,
    first_tag is_head_open_tag (lit "<html><head></head></html>") pre tag post /\
    inject_base_tag_twice (lit "<html><head></head></html>") (lit "file:///tmp/")
    = Ok (pre ++ tag ++ (newline :: lit "  " ++ base_tag (lit "file:///tmp/"))
            ++ (newline :: lit "  " ++ base_tag (lit "file:///tmp/")) ++ post).
Proof.
  apply (inject_base_tag_twice_on_head (lit "<html><head></head></html>")
           (lit "file:///tmp/")).
  - reflexivity.
  - exists (lit "<html>"), (lit "<head>"), (lit "</head></html>").
    split; [reflexivity|]. exists (lit "<head"), []. repeat split.
    apply not_elem_of_nil.
Defined.

(** X3. [_inject_base_tag] is not idempotent on a text without [<head]
    either: the first application builds the skeleton around the text, the
    second one inserts a second base tag after the head tag of that
    skeleton. *)
Theorem inject_base_tag_twice_on_plain (html base_href : str) :
  no_backslash base_href = true ->
  contains (lit "<head") (lower html) = false ->
  inject_base_tag_twice html base_href
  = Ok (lit "<!doctype html><html><head>"
          ++ (newline :: lit "  " ++ base_tag base_href) ++ base_tag base_href
          ++ lit "</head><body>" ++ html ++ lit "</body></html>").
Proof. exact (inject_base_tag_twice_skeleton html base_href). Qed.

Lemma inject_base_tag_twice_on_plain_witness :
  inject_base_tag_twice (lit "<p>hi</p>") (lit "file:///tmp/")
  = Ok (lit "<!doctype html><html><head>"
          ++ (newline :: lit "  " ++ base_tag (lit "file:///tmp/"))
          ++ base_tag (lit "file:///tmp/")
          ++ lit "</head><body>" ++ lit "<p>hi</p>" ++ lit "</body></html>").
Proof.
  apply (inject_base_tag_twice_on_plain (lit "<p>hi</p>") (lit "file:///tmp/"));
    reflexivity.
Defined.

(** X4. When the lowered HTML text contains [<head], a CSS text whose
    first backslash is followed by an ASCII letter other than a, b, f, g,
    n, r, t, v makes [_wrap_with_css] raise, whatever else the two texts
    hold: the CSS text is part of the replacement template of [re.sub]. *)
Theorem wrap_with_css_bad_escape (html css1 css2 : str) (c : ascii) :
  contains (lit "<head") (lower html) = true ->
  no_backslash css1 = true ->
  bad_escape_letter c = true ->
  _wrap_with_css html (css1 ++ "\"%char :: c :: css2) = Raise TemplateError.
Proof.
  intros Hguard Hcss Hc. unfold _wrap_with_css, sub1, parse_template.
  rewrite Hguard. unfold style_tag.
  set (rest := css2 ++ [newline] ++ lit "</style>").
  replace ((lit "<style>" ++ [newline] ++ (css1 ++ "\"%char :: c :: css2)
              ++ [newline] ++ lit "</style>") ++ lit "\n\1")
    with ((lit "<style>" ++ [newline] ++ css1) ++ "\"%char :: c :: rest ++ lit "\n\1")
    by (subst rest; now rewrite <- !app_assoc).
  rewrite length_app.
  replace (S (length (lit "<style>" ++ [newline] ++ css1)
              + length ("\"%char :: c :: rest ++ lit "\n\1")))
    with (length (lit "<style>" ++ [newline] ++ css1)
          + S (length ("\"%char :: c :: rest ++ lit "\n\1"))) by lia.
  rewrite parse_literal_prefix
    by (rewrite !no_backslash_app, Hcss; reflexivity).
  now rewrite parse_bad_escape.
Qed.

Lemma wrap_with_css_bad_escape_witness :
  _wrap_with_css (lit "<html><head></head></html>")
    (lit ".icon:before{content:'" ++ "\"%char :: "e"%char :: lit "900'}")
  = Raise TemplateError.
Proof.
  apply (wrap_with_css_bad_escape (lit "<html><head></head></html>")
           (lit ".icon:before{content:'") (lit "900'}") "e"%char);
    reflexivity.
Defined.

(** X5. When the lowered HTML text contains [<head] but the text has no
    head-closing tag, [_wrap_with_css] returns the text as it was: the
    style sheet is dropped without an error. *)
Theorem wrap_with_css_guard_without_close (html css : str) :
  no_backslash css = true ->
  contains (lit "<head") (lower html) = true ->
  ~ has_tag is_head_close_tag html ->
  _wrap_with_css html css = Ok html.
Proof.
  intros Hcss Hguard Hno. unfold _wrap_with_css, sub1. rewrite Hguard.
  rewrite (wrap_template _ (style_tag_no_backslash _ Hcss)).
  now rewrite (search_no_tag head_close is_head_close_tag head_close_match html Hno).
Qed.

Lemma no_close_tag_of_search (html : str) :
  search head_close html = None -> ~ has_tag is_head_close_tag html.
Proof.
  intros Hs Hhas.
  destruct (search_first_tag head_close is_head_close_tag head_close_match html Hhas)
    as (pre & tag & post & _ & Hs').
  congruence.
Qed.

Lemma wrap_with_css_guard_without_close_witness :
  _wrap_with_css (lit "<header>Report</header><p>text</p>") (lit "p{margin:0}")
  = Ok (lit "<header>Report</header><p>text</p>").
Proof.
  apply (wrap_with_css_guard_without_close
           (lit "<header>Report</header><p>text</p>") (lit "p{margin:0}")).
  - reflexivity.
  - reflexivity.
  - apply no_close_tag_of_search. reflexivity.
Defined.

(** X6. On a document whose first opening head tag comes before its first
    head-closing tag, the two transformations together put the base tag
    right after the former and the style block right before the latter;
    the rest of the text is unchanged. *)
Theorem prepare_head (pre otag mid ctag post css base_href : str) :
  no_backslash css = true ->
  no_backslash base_href = true ->
  first_tag is_head_open_tag (pre ++ otag ++ mid ++ ctag ++ post)
    pre otag (mid ++ ctag ++ post) ->
  first_tag is_head_close_tag (pre ++ otag ++ mid ++ ctag ++ post)
    (pre ++ otag ++ mid) ctag post ->
  prepare (pre ++ otag ++ mid ++ ctag ++ post) css base_href
  = Ok (pre ++ otag ++ (newline :: lit "  " ++ base_tag base_href)
          ++ mid ++ (style_tag css ++ [newline]) ++ ctag ++ post).
Proof.
  intros Hcss Hb Hopen Hclose.
  set (html := pre ++ otag ++ mid ++ ctag ++ post) in *.
  assert (Hhas : has_tag is_head_open_tag html).
  { destruct Hopen as (_ & Ht & _). now exists pre, otag, (mid ++ ctag ++ post). }
  pose proof (first_tag_search head_close is_head_close_tag head_close_match
                _ _ _ _ Hclose) as Hsc.
  unfold prepare, _wrap_with_css. rewrite (has_head_open_guard _ Hhas).
  assert (Hsplit : html = (pre ++ otag ++ mid) ++ ctag ++ post)
    by (subst html; now rewrite <- !app_assoc).
  rewrite Hsplit in Hsc |- *.
  rewrite (sub1_at head_close _ _ (pre ++ otag ++ mid) ctag post
             (wrap_template _ (style_tag_no_backslash _ Hcss)) Hsc).
  rewrite expand_app, expand_literals. cbn [expand]. rewrite app_nil_r.
  set (styled := mid ++ (style_tag css ++ [newline]) ++ ctag ++ post).
  match goal with
  | |- context [_inject_base_tag ?t base_href] =>
      replace t with (pre ++ otag ++ styled)
        by (subst styled; now rewrite <- !app_assoc)
  end.
  pose proof (first_open_tag_stable pre otag (mid ++ ctag ++ post) styled Hopen) as Hso.
  unfold _inject_base_tag.
  assert (Hg : contains (lit "<head") (lower (pre ++ otag ++ styled)) = true).
  { apply has_head_open_guard. destruct Hopen as (_ & Ht & _).
    now exists pre, otag, styled. }
  rewrite Hg.
  rewrite (sub1_at head_open _ _ pre otag styled
             (inject_template _ (base_tag_no_backslash _ Hb)) Hso).
  cbn [expand]. rewrite expand_literals. subst styled.
  now rewrite <- !app_assoc.
Qed.

Lemma prepare_head_witness :
  prepare (lit "<html>" ++ lit "<head>" ++ lit "<title>t</title>" ++ lit "</head>"
             ++ lit "<body>x</body></html>")
    (lit "p{margin:0}") (lit "file:///home/u/")
  = Ok (lit "<html>" ++ lit "<head>"
          ++ (newline :: lit "  " ++ base_tag (lit "file:///home/u/"))
          ++ lit "<title>t</title>" ++ (style_tag (lit "p{margin:0}") ++ [newline])
          ++ lit "</head>" ++ lit "<body>x</body></html>").
Proof.
  apply (prepare_head (lit "<html>") (lit "<head>") (lit "<title>t</title>")
           (lit "</head>") (lit "<body>x</body></html>")
           (lit "p{margin:0}") (lit "file:///home/u/")).
  - reflexivity.
  - reflexivity.
  - apply (search_is_first_tag head_open is_head_open_tag head_open_match
             (lit "<html><head><title>t</title></head><body>x</body></html>") 6 6).
    reflexivity.
  - apply (search_is_first_tag head_close is_head_close_tag head_close_match
             (lit "<html><head><title>t</title></head><body>x</body></html>") 28 7).
    reflexivity.
Defined.

(** X7. On a text whose lowered form has no [<head], the two
    transformations together build one skeleton whose head holds the base
    tag and then the style block, the input being the body; here the CSS
    text may hold anything, backslashes too, since it does not go through
    a replacement template. *)
Theorem prepare_skeleton (html css base_href : str) :
  no_backslash base_href = true ->
  contains (lit "<head") (lower html) = false ->
  prepare html css base_href
  = Ok (lit "<!doctype html><html><head>"
          ++ (newline :: lit "  " ++ base_tag base_href)
          ++ style_tag css ++ lit "</head><body>" ++ html ++ lit "</body></html>").
Proof.
  intros Hb Hguard. unfold prepare, _wrap_with_css. rewrite Hguard.
  set (rest := style_tag css ++ lit "</head><body>" ++ html ++ lit "</body></html>").
  unfold _inject_base_tag.
  assert (Hg : contains (lit "<head")
                 (lower (lit "<!doctype html><html><head>" ++ rest)) = true).
  { apply has_head_open_guard.
    exists (lit "<!doctype html><html>"), (lit "<head>"), rest.
    split; [reflexivity|]. exists (lit "<head"), []. repeat split.
    apply not_elem_of_nil. }
  rewrite Hg. unfold sub1.
  rewrite (inject_template _ (base_tag_no_backslash _ Hb)).
  change (search head_open (lit "<!doctype html><html><head>" ++ rest))
    with (Some (21, 6)).
  cbn [expand]. rewrite expand_literals. reflexivity.
Qed.

Lemma prepare_skeleton_witness :
  prepare (lit "<p>hi</p>") (lit ".i:before{content:'\e900'}") (lit "file:///home/u/")
  = Ok (lit "<!doctype html><html><head>"
          ++ (newline :: lit "  " ++ base_tag (lit "file:///home/u/"))
          ++ style_tag (lit ".i:before{content:'\e900'}")
          ++ lit "</head><body>" ++ lit "<p>hi</p>" ++ lit "</body></html>").
Proof.
  apply (prepare_skeleton (lit "<p>hi</p>") (lit ".i:before{content:'\e900'}")
           (lit "file:///home/u/")); reflexivity.
Defined.

(** X8. The base URI that [html_to_pdf] builds (the URI of a resolved
    directory and a slash) never makes [_inject_base_tag] raise: [as_uri]
    percent-encodes every character that a replacement template would
    read as an escape. *)
Theorem inject_base_tag_on_uri (cwd : list str) (base_dir : Path) (html : str) :
  exists uri text,
    Path_as_uri (Path_resolve cwd base_dir) = Ok uri /\
    no_backslash (uri ++ lit "/") = true /\
    _inject_base_tag html (uri ++ lit "/") = Ok text.
Proof.
  exists (lit "file://" ++ quote (Path_str (Path_resolve cwd base_dir))).
  assert (Hb : no_backslash
                 ((lit "file://" ++ quote (Path_str (Path_resolve cwd base_dir)))
                    ++ lit "/") = true)
    by (rewrite !no_backslash_app, quote_no_backslash; reflexivity).
  destruct (inject_base_tag_ok html _ Hb) as (text & Ht).
  exists text. now repeat split.
Qed.

End PrepareFacts.

(** * Further properties of the command line *)

Lemma split_one (sep : ascii) (t : str) : (sep ∉ t) -> split sep t = [t].
Proof.
  induction t as [|c t IH]; intros H; [reflexivity|].
  apply not_elem_of_cons in H as [Hc Ht]. simpl.
  assert (Hcs : char_eqb c sep = false) by (apply char_eqb_neq; congruence).
  now rewrite Hcs, (IH Ht).
Qed.

Lemma split_app (sep : ascii) (t rest : str) :
  (sep ∉ t) -> split sep (t ++ sep :: rest) = t :: split sep rest.
Proof.
  induction t as [|c t IH]; intros H.
  - simpl. now rewrite char_eqb_refl.
  - apply not_elem_of_cons in H as [Hc Ht]. simpl.
    assert (Hcs : char_eqb c sep = false) by (apply char_eqb_neq; congruence).
    now rewrite Hcs, (IH Ht).
Qed.

(** X9. A margin of four tokens is read as these tokens, each without the
    white space around it. *)
Theorem parse_margin_tokens (t1 t2 t3 t4 : str) :
  Forall (fun t => ","%char ∉ t) [t1; t2; t3; t4] ->
  parse_margin (t1 ++ ","%char :: t2 ++ ","%char :: t3 ++ ","%char :: t4)
  = Some (strip t1, strip t2, strip t3, strip t4).
Proof.
  intros H. inversion H as [|? ? H1 H']; subst.
  inversion H' as [|? ? H2 H'']; subst.
  inversion H'' as [|? ? H3 H''']; subst.
  inversion H''' as [|? ? H4 _]; subst.
  unfold parse_margin.
  rewrite (split_app _ _ _ H1), (split_app _ _ _ H2), (split_app _ _ _ H3),
    (split_one _ _ H4).
  reflexivity.
Qed.

Lemma parse_margin_tokens_witness :
  parse_margin (lit "1cm" ++ ","%char :: lit " 2cm " ++ ","%char :: lit ""
                  ++ ","%char :: lit "4cm ")
  = Some (strip (lit "1cm"), strip (lit " 2cm "), strip (lit ""), strip (lit "4cm ")).
Proof.
  apply (parse_margin_tokens (lit "1cm") (lit " 2cm ") (lit "") (lit "4cm ")).
  repeat constructor; vm_compute; intros H;
    repeat (apply elem_of_cons in H as [H|H]; [discriminate|]);
    now apply elem_of_nil in H.
Defined.

(** X10. Once [parse_args] has returned the arguments, the rest of
    [main] reaches its own [sys.exit] exactly when the margin is not made
    of four tokens, and the status is then 2: [main] calls [sys.exit]
    nowhere else.  (What [argparse] does inside [parse_args], before, is
    not part of the statement.) *)
Theorem main_exit_status (E : env) (args : Args) (w : world) :
  ((main E args w).1 = SysExit 2 <-> ~ four_tokens (arg_margin args)) /\
  (forall code, (main E args w).1 = SysExit code -> code = 2%Z).
Proof.
  unfold main.
  destruct (parse_margin (arg_margin args)) as [[[[t r] b] l]|] eqn:Hp.
  - assert (Hfour : four_tokens (arg_margin args))
      by now apply (parse_margin_four _ (t, r, b, l)).
    match goal with
    | |- context [html_to_pdf ?a ?b ?c ?d ?e ?f ?g ?h] =>
        destruct (html_to_pdf a b c d e f g h) as [[p|e0] w']
    end; cbn [fst]; split; try (intros code H; discriminate);
      split; intros H; try discriminate; now destruct H.
  - cbn [fst]. split; [|intros code [= <-]; reflexivity].
    split; [|reflexivity]. intros _ (t1 & t2 & t3 & t4 & Hno & Heq).
    inversion Hno as [|? ? H1 H']; subst.
    inversion H' as [|? ? H2 H'']; subst.
    inversion H'' as [|? ? H3 H''']; subst.
    inversion H''' as [|? ? H4 _]; subst.
    unfold parse_margin in Hp.
    rewrite Heq, (split_app _ _ _ H1), (split_app _ _ _ H2), (split_app _ _ _ H3),
      (split_one _ _ H4) in Hp.
    discriminate.
Qed.

Lemma lstrip_head (s : str) (c : ascii) (rest : str) :
  lstrip s = c :: rest -> isspace c = false.
Proof.
  induction s as [|x s IH]; simpl; [discriminate|].
  destruct (isspace x) eqn:Hx; [exact IH|]. intros [= <- _]. exact Hx.
Qed.

Lemma lstrip_snoc (a : str) (h : ascii) :
  isspace h = false -> exists a', lstrip (a ++ [h]) = a' ++ [h].
Proof.
  intros Hh. induction a as [|x a IH]; simpl.
  - rewrite Hh. now exists [].
  - destruct (isspace x); [exact IH|]. now exists (x :: a).
Qed.

Lemma strip_stripped (s : str) : stripped (strip s).
Proof.
  unfold strip. split.
  - intros c rest H.
    destruct (lstrip s) as [|h y] eqn:Hy; [discriminate|].
    pose proof (lstrip_head _ _ _ Hy) as Hh.
    simpl in H. destruct (lstrip_snoc (rev y) h Hh) as (a' & Ha).
    rewrite Ha, rev_app_distr in H. simpl in H. now injection H as <- _.
  - intros init c H. apply (f_equal (@rev ascii)) in H.
    rewrite rev_involutive, rev_app_distr in H. simpl in H.
    now apply lstrip_head in H.
Qed.

(** X11. The margins that [main] hands on never start or end with white
    space. *)
Theorem parse_margin_stripped (margin t r b l : str) :
  parse_margin margin = Some (t, r, b, l) ->
  stripped t /\ stripped r /\ stripped b /\ stripped l.
Proof.
  unfold parse_margin. intros H.
  destruct (split ","%char margin) as [|t1 [|t2 [|t3 [|t4 [|t5 ts]]]]];
    try discriminate.
  injection H as <- <- <- <-. repeat split; apply strip_stripped.
Qed.

Lemma parse_margin_stripped_witness :
  stripped (lit "16mm") /\ stripped (lit "14mm") /\ stripped (lit "1 cm")
  /\ stripped (lit "").
Proof.
  apply (parse_margin_stripped (lit " 16mm,14mm , 1 cm ,  ")). reflexivity.
Defined.

(** * Which exceptions a conversion can end with *)

Lemma parse_template_aux_raise (fuel groups : nat) : forall (t : str) (e : exn),
  Re.parse_template_aux fuel groups t = Raise e -> e = TemplateError.
Proof.
  induction fuel as [|fuel IH]; intros t e H; [simpl in H; congruence|].
  cbn [Re.parse_template_aux] in H.
  repeat match type of H with
         | context [match ?x with _ => _ end] =>
             lazymatch x with
             | Re.parse_template_aux _ _ _ => fail
             | _ => destruct x eqn:?
             end
         end;
    try discriminate; try (injection H as <-; reflexivity);
    unfold result_map in H;
    match type of H with
    | context [Re.parse_template_aux fuel groups ?r] =>
        destruct (Re.parse_template_aux fuel groups r) eqn:E;
        [discriminate|injection H as <-; now apply (IH _ _ E)]
    end.
Qed.

Lemma wrap_with_css_raise (html css : str) (e : exn) :
  _wrap_with_css html css = Raise e -> e = TemplateError.
Proof.
  unfold _wrap_with_css, Re.sub1, Re.parse_template.
  destruct (contains _ _); [|discriminate].
  destruct (Re.parse_template_aux _ _ _) as [tpl|e'] eqn:Hp.
  - destruct (Re.search _ _) as [[i n]|]; discriminate.
  - intros [= <-]. now apply parse_template_aux_raise in Hp.
Qed.

Section Shapes.
Variable E : env.
Local Open Scope m_scope.

Lemma rp_ret {A} (a : A) (Q : result A -> Prop) : Q (Ok a) -> run_post (ret a) Q.
Proof. intros H w. exact H. Qed.

Lemma rp_raise {A} (e : exn) (Q : result A -> Prop) :
  Q (Raise e) -> run_post (raise e) Q.
Proof. intros H w. exact H. Qed.

Lemma rp_lift {A} (r : result A) (Q : result A -> Prop) : Q r -> run_post (lift r) Q.
Proof. intros H w. exact H. Qed.

Lemma rp_weaken {A} (m : M A) (tpl : bool) (P : A -> Prop) :
  run_post m (only_external P) -> run_post m (shape tpl P).
Proof.
  intros H w. specialize (H w). destruct (m w).1 as [a|[]]; simpl in *;
    try contradiction; exact H.
Qed.

Lemma rp_bind {A B} (m : M A) (k : A -> M B) (tpl : bool)
    (P1 : A -> Prop) (P : B -> Prop) :
  run_post m (shape tpl P1) ->
  (forall a, P1 a -> run_post (k a) (shape tpl P)) ->
  run_post (bind m k) (shape tpl P).
Proof.
  intros Hm Hk w. unfold bind. specialize (Hm w).
  destruct (m w) as [[a|e] w1]; cbn [fst] in *.
  - now apply Hk.
  - destruct e; exact Hm.
Qed.

Lemma rp_bind_ext {A B} (m : M A) (k : A -> M B) (P1 : A -> Prop) (P : B -> Prop) :
  run_post m (only_external P1) ->
  (forall a, P1 a -> run_post (k a) (only_external P)) ->
  run_post (bind m k) (only_external P).
Proof.
  intros Hm Hk w. unfold bind. specialize (Hm w).
  destruct (m w) as [[a|e] w1]; cbn [fst] in *.
  - now apply Hk.
  - destruct e; exact Hm.
Qed.

Lemma rp_finally {A} (b : M A) (f : M unit) (tpl : bool) (P : A -> Prop) :
  run_post b (shape tpl P) ->
  run_post f (only_external (fun _ => True)) ->
  run_post (finally b f) (shape tpl P).
Proof.
  intros Hb Hf w. unfold finally. specialize (Hb w).
  destruct (b w) as [r w1]. specialize (Hf w1).
  destruct (f w1) as [[u|e] w2]; cbn [fst] in *; [exact Hb|].
  destruct e; try contradiction. exact I.
Qed.

(** [except Exception as e: raise HtmlToPdfError(...) from e] around a
    body that can only fail in an external call. *)
Lemma rp_try_wrap {A} (b : M A) (tpl : bool) (P : A -> Prop) :
  run_post b (only_external P) ->
  run_post
    (try_except b
       (fun e => raise (HtmlToPdfError (lit "PDF render xatosi: " ++ str_exn e) e)))
    (shape tpl P).
Proof.
  intros Hb w. unfold try_except. specialize (Hb w).
  destruct (b w) as [[a|e] w1]; cbn [fst] in *; [exact Hb|].
  destruct e; try contradiction. simpl. now exists msg.
Qed.

(** [except Exception: pass] *)
Lemma rp_try_pass (b : M unit) :
  run_post (try_except b (fun _ => ret tt)) (only_external (fun _ => True)).
Proof. intros w. unfold try_except. now destruct (b w) as [[a|e] w1]. Qed.

Lemma rp_call (ev : event) : run_post (call E ev) (only_external (fun _ => True)).
Proof. intros w. unfold call. now destruct (fault E ev). Qed.

Lemma rp_call_then {A} (ev : event) (k : M A) (P : A -> Prop) :
  run_post k (only_external P) ->
  run_post (call E ev ;; k) (only_external P).
Proof. intros Hk. eapply rp_bind_ext; [apply rp_call|]. intros _ _. exact Hk. Qed.

Lemma rp_resolve (p : Path) :
  run_post (resolve E p) (only_external (fun a => a = Path_resolve (cwd E) p)).
Proof. unfold resolve. apply rp_call_then. now apply rp_ret. Qed.

Lemma rp_Path_cwd : run_post (Path_cwd E) (only_external (fun _ => True)).
Proof. unfold Path_cwd. apply rp_call_then. now apply rp_ret. Qed.

Lemma rp_mkdir (p : Path) : run_post (mkdir E p) (only_external (fun _ => True)).
Proof.
  unfold mkdir. apply rp_call_then. intros w.
  now destruct (mkdir_p (nodes w) (loc E p)).
Qed.

Lemma rp_exists (p : Path) : run_post (exists_ E p) (only_external (fun _ => True)).
Proof. unfold exists_. apply rp_call_then. now intros w. Qed.

Lemma rp_read_text (p : Path) (tpl : bool) :
  run_post (read_text E p) (shape tpl (fun _ => True)).
Proof.
  unfold read_text. eapply rp_bind; [apply rp_weaken, rp_call|]. intros _ _ w.
  now destruct (nodes w !! loc E p) as [[c|]|].
Qed.

Lemma rp_write_text (p : Path) (text : str) (tpl : bool) :
  run_post (write_text E p text) (shape tpl (fun _ => True)).
Proof.
  unfold write_text. eapply rp_bind; [apply rp_weaken, rp_call|]. intros _ _ w.
  destruct (nodes w !! loc E (Path_parent p)) as [[c|]|]; try exact I.
  now destruct (nodes w !! loc E p) as [[c|]|].
Qed.

Lemma rp_mkdtemp :
  run_post (mkdtemp E)
    (only_external (fun a => a = {| anchored := true; parts := tmpdir E |})).
Proof.
  unfold mkdtemp. apply rp_call_then. intros w.
  now destruct (is_fresh (nodes w) _).
Qed.

Lemma rp_cleanup (tmp : Path) : run_post (cleanup E tmp) (only_external (fun _ => True)).
Proof. unfold cleanup. apply rp_call_then. now intros w. Qed.

Lemma rp_goto (h : option (str -> route_action)) (uri : str)
    (wt : wait_condition) (timeout : Z) :
  run_post (goto E h uri wt timeout) (only_external (fun _ => True)).
Proof. intros w. unfold goto. now destruct (fault E (EvGoto uri wt timeout)). Qed.

Lemma rp_page_pdf (kwargs : pdf_kwargs) :
  run_post (page_pdf E kwargs) (only_external (fun _ => True)).
Proof. unfold page_pdf. apply rp_call_then. now intros w. Qed.

(** The stage, from a temporary file with an absolute path. *)
Lemma rp_render_export (h : option (str -> route_action)) (tmp_file out : Path)
    (pdf : PdfOptions) (render : RenderOptions) (tpl : bool) :
  anchored tmp_file = true ->
  run_post (render_export E h tmp_file out pdf render) (shape tpl (fun _ => True)).
Proof.
  intros Ha. unfold render_export.
  apply rp_finally; [|apply rp_call_then, rp_call].
  apply rp_try_wrap. unfold Path_as_uri. rewrite Ha.
  eapply (rp_bind_ext _ _ (fun _ => True)); [now apply rp_lift|]. intros uri _.
  eapply rp_bind_ext; [apply rp_goto|]. intros _ _.
  eapply rp_bind_ext; [apply rp_try_pass|]. intros _ _.
  apply rp_page_pdf.
Qed.

(** Every run of [html_to_pdf] on a valid input configuration ends in
    one of the outcomes of [shape]; a template error needs a style sheet. *)
Lemma html_to_pdf_shape (html : option str) (html_path : option Path) (out : Path)
    (base_dir : option Path) (pdf : PdfOptions) (render : RenderOptions) :
  exactly_one html html_path ->
  run_post (html_to_pdf E html html_path out base_dir pdf render)
    (shape (negb (is_None (extra_css_path render)))
       (fun p => p = Path_resolve (cwd E) out)).
Proof.
  intros Hone. unfold html_to_pdf.
  assert (Hvalid : Bool.eqb (is_None html) (is_None html_path) = false).
  { destruct Hone as [[Ha Hb]|[Ha Hb]]; destruct html, html_path;
      try congruence; reflexivity. }
  rewrite Hvalid.
  set (tpl := negb (is_None (extra_css_path render))).
  eapply rp_bind; [apply rp_weaken, rp_resolve|]. intros out' ->.
  eapply rp_bind; [apply rp_weaken, rp_mkdir|]. intros _ _.
  eapply (rp_bind _ _ tpl (fun _ => True)).
  { destruct html_path as [hp|].
    - eapply rp_bind; [apply rp_weaken, rp_resolve|]. intros hp' _.
      eapply rp_bind; [apply rp_weaken, rp_exists|]. intros found _.
      destruct found; cbn [negb]; [|now apply rp_raise].
      eapply rp_bind; [apply rp_read_text|]. intros text _. now apply rp_ret.
    - eapply (rp_bind _ _ tpl (fun _ => True)); [|intros bd _; now apply rp_ret].
      destruct base_dir; [now apply rp_ret|apply rp_weaken, rp_Path_cwd]. }
  intros [text bd] _.
  eapply (rp_bind _ _ tpl (fun _ => True)).
  { subst tpl. destruct (extra_css_path render) as [cp|]; [|now apply rp_ret].
    eapply rp_bind; [apply rp_weaken, rp_resolve|]. intros cp' _.
    eapply rp_bind; [apply rp_weaken, rp_exists|]. intros found _.
    destruct found; cbn [negb]; [|now apply rp_raise].
    eapply rp_bind; [apply rp_read_text|]. intros css _.
    apply rp_lift. destruct (_wrap_with_css text css) as [t|e] eqn:Hw; [exact I|].
    apply wrap_with_css_raise in Hw. now subst e. }
  intros text2 _.
  eapply (rp_bind _ _ tpl (fun _ => True)).
  { destruct (add_base_tag render); [|now apply rp_ret].
    eapply rp_bind; [apply rp_weaken, rp_resolve|]. intros bd' ->.
    eapply (rp_bind _ _ tpl
              (fun u => u = lit "file://" ++ quote (Path_str (Path_resolve (cwd E) bd))));
      [now apply rp_lift|].
    intros uri ->. apply rp_lift.
    assert (Hb : no_backslash
                   ((lit "file://" ++ quote (Path_str (Path_resolve (cwd E) bd)))
                      ++ lit "/") = true)
      by (rewrite !no_backslash_app, quote_no_backslash; reflexivity).
    destruct (inject_base_tag_ok text2 _ Hb) as (t & Ht). now rewrite Ht. }
  intros text3 _.
  eapply (rp_bind _ _ tpl (fun _ => True)); [|intros _ _; now apply rp_ret].
  unfold with_TemporaryDirectory, with_async_playwright.
  eapply rp_bind; [apply rp_weaken, rp_mkdtemp|]. intros tmp ->.
  apply rp_finally; [|apply rp_cleanup].
  eapply rp_bind; [apply rp_write_text|]. intros _ _.
  eapply rp_bind; [apply rp_weaken, rp_call|]. intros _ _.
  apply rp_finally; [|apply rp_call].
  eapply rp_bind; [apply rp_weaken, rp_call|]. intros _ _.
  eapply rp_bind; [apply rp_weaken, rp_call|]. intros _ _.
  eapply rp_bind; [apply rp_weaken, rp_call|]. intros _ _.
  eapply (rp_bind _ _ tpl (fun _ => True)).
  { destruct (negb (allow_network render)); [|now apply rp_ret].
    apply rp_weaken, rp_call_then. now apply rp_ret. }
  intros h _.
  eapply rp_bind; [apply rp_weaken, rp_call|]. intros _ _.
  now apply rp_render_export.
Qed.

End Shapes.

(** X12. The [ValueError] of the input check is the only one the program
    raises itself: a run of [html_to_pdf] ends with [ValueError] exactly
    when the inline text and the file path are both given or both
    missing, whatever the files hold and whichever external calls fail
    (their exceptions are [External]).  In particular [as_uri] never
    refuses a path as relative: both paths it is called on are resolved. *)
Theorem html_to_pdf_value_error (E : env) (html : option str) (html_path : option Path)
    (out : Path) (base_dir : option Path) (pdf : PdfOptions) (render : RenderOptions)
    (w : world) :
  (exists msg,
     (html_to_pdf E html html_path out base_dir pdf render w).1 = Raise (ValueError msg))
  <-> ~ exactly_one html html_path.
Proof.
  split.
  - intros [msg H] Hone.
    pose proof (html_to_pdf_shape E html html_path out base_dir pdf render Hone w) as Hs.
    rewrite H in Hs. exact Hs.
  - intros Hnot. eexists. rewrite bad_input_run; [reflexivity|].
    destruct html as [h|], html_path as [hp|].
    + right. split; discriminate.
    + exfalso. apply Hnot. left. split; [discriminate|reflexivity].
    + exfalso. apply Hnot. right. split; [reflexivity|discriminate].
    + left. split; reflexivity.
Qed.

(** X13. The path [html_to_pdf] returns is the resolved output path, in every
    run that returns. *)
Theorem html_to_pdf_returns_output (E : env) (html : option str)
    (html_path : option Path) (out : Path) (base_dir : option Path)
    (pdf : PdfOptions) (render : RenderOptions) (w : world) (p : Path) :
  (html_to_pdf E html html_path out base_dir pdf render w).1 = Ok p ->
  p = Path_resolve (cwd E) out.
Proof.
  intros H.
  assert (Hone : exactly_one html html_path).
  { destruct html as [h|], html_path as [hp|].
    - rewrite bad_input_run in H; [discriminate|]. right. split; discriminate.
    - left. split; [discriminate|reflexivity].
    - right. split; [reflexivity|discriminate].
    - rewrite bad_input_run in H; [discriminate|]. left. split; reflexivity. }
  pose proof (html_to_pdf_shape E html html_path out base_dir pdf render Hone w) as Hs.
  rewrite H in Hs. exact Hs.
Qed.

Lemma html_to_pdf_returns_output_witness :
  (html_to_pdf example_env None (Some (Path_of_str (lit "page.html")))
     (Path_of_str (lit "out/x.pdf")) None
     PdfOptions_default (render_with_css "extra.css") example_world).1
  = Ok {| anchored := true; parts := [lit "home"; lit "u"; lit "out"; lit "x.pdf"] |}
  /\ {| anchored := true; parts := [lit "home"; lit "u"; lit "out"; lit "x.pdf"] |}
     = Path_resolve (cwd example_env) (Path_of_str (lit "out/x.pdf")).
Proof.
  assert (H : (html_to_pdf example_env None (Some (Path_of_str (lit "page.html")))
                 (Path_of_str (lit "out/x.pdf")) None
                 PdfOptions_default (render_with_css "extra.css") example_world).1
              = Ok {| anchored := true;
                      parts := [lit "home"; lit "u"; lit "out"; lit "x.pdf"] |})
    by (vm_compute; reflexivity).
  split; [exact H|].
  exact (html_to_pdf_returns_output _ _ _ _ _ _ _ _ _ H).
Defined.

(** X14. An [HtmlToPdfError] that leaves [html_to_pdf] always carries the
    exception of an external call as its cause, and its text is
    [PDF render xatosi: ] followed by the text of that exception. *)
Theorem html_to_pdf_domain_error (E : env) (html : option str)
    (html_path : option Path) (out : Path) (base_dir : option Path)
    (pdf : PdfOptions) (render : RenderOptions) (w : world) (msg : str) (cause : exn) :
  (html_to_pdf E html html_path out base_dir pdf render w).1
  = Raise (HtmlToPdfError msg cause) ->
  exists m, cause = External m /\ msg = lit "PDF render xatosi: " ++ m.
Proof.
  intros H.
  assert (Hone : exactly_one html html_path).
  { destruct html as [h|], html_path as [hp|].
    - rewrite bad_input_run in H; [discriminate|]. right. split; discriminate.
    - left. split; [discriminate|reflexivity].
    - right. split; [reflexivity|discriminate].
    - rewrite bad_input_run in H; [discriminate|]. left. split; reflexivity. }
  pose proof (html_to_pdf_shape E html html_path out base_dir pdf render Hone w) as Hs.
  rewrite H in Hs. destruct Hs as [m Hm]. exists m.
  unfold wrapped in Hm. injection Hm as -> ->. now split.
Qed.

Lemma html_to_pdf_domain_error_witness :
  (html_to_pdf failing_goto_env None (Some (Path_of_str (lit "page.html")))
     (Path_of_str (lit "out/x.pdf")) None
     PdfOptions_default (render_with_css "extra.css") example_world).1
  = Raise (HtmlToPdfError (lit "PDF render xatosi: Timeout 60000ms exceeded.")
             (External (lit "Timeout 60000ms exceeded.")))
  /\ exists m,
       External (lit "Timeout 60000ms exceeded.") = External m /\
       lit "PDF render xatosi: Timeout 60000ms exceeded." = lit "PDF render xatosi: " ++ m.
Proof.
  assert (H : (html_to_pdf failing_goto_env None (Some (Path_of_str (lit "page.html")))
                 (Path_of_str (lit "out/x.pdf")) None
                 PdfOptions_default (render_with_css "extra.css") example_world).1
              = Raise (HtmlToPdfError
                         (lit "PDF render xatosi: Timeout 60000ms exceeded.")
                         (External (lit "Timeout 60000ms exceeded."))))
    by (vm_compute; reflexivity).
  split; [exact H|].
  exact (html_to_pdf_domain_error _ _ _ _ _ _ _ _ _ _ H).
Defined.

(** X15. A replacement template can only be refused in a call with an extra
    style sheet: the base tag [html_to_pdf] builds is always accepted. *)
Theorem html_to_pdf_template_error (E : env) (html : option str)
    (html_path : option Path) (out : Path) (base_dir : option Path)
    (pdf : PdfOptions) (render : RenderOptions) (w : world) :
  (html_to_pdf E html html_path out base_dir pdf render w).1 = Raise TemplateError ->
  extra_css_path render <> None.
Proof.
  intros H.
  assert (Hone : exactly_one html html_path).
  { destruct html as [h|], html_path as [hp|].
    - rewrite bad_input_run in H; [discriminate|]. right. split; discriminate.
    - left. split; [discriminate|reflexivity].
    - right. split; [reflexivity|discriminate].
    - rewrite bad_input_run in H; [discriminate|]. left. split; reflexivity. }
  pose proof (html_to_pdf_shape E html html_path out base_dir pdf render Hone w) as Hs.
  rewrite H in Hs. simpl in Hs. intros Hnone. rewrite Hnone in Hs. discriminate.
Qed.

Lemma html_to_pdf_template_error_witness :
  (html_to_pdf example_env None (Some (Path_of_str (lit "page.html")))
     (Path_of_str (lit "out/x.pdf")) None
     PdfOptions_default (render_with_css "extra.css") escape_css_world).1
  = Raise TemplateError
  /\ extra_css_path (render_with_css "extra.css") <> None.
Proof.
  assert (H : (html_to_pdf example_env None (Some (Path_of_str (lit "page.html")))
                 (Path_of_str (lit "out/x.pdf")) None
                 PdfOptions_default (render_with_css "extra.css") escape_css_world).1
              = Raise TemplateError)
    by (vm_compute; reflexivity).
  split; [exact H|].
  exact (html_to_pdf_template_error _ _ _ _ _ _ _ _ H).
Defined.

(** X16. [main] never ends with the [ValueError] of the input check: it
    always calls [html_to_pdf] with a file path and no inline text. *)
Theorem main_no_value_error (E : env) (args : Args) (w : world) (msg : str) :
  (main E args w).1 <> Uncaught (ValueError msg).
Proof.
  unfold main.
  destruct (parse_margin (arg_margin args)) as [[[[t r] b] l]|]; [|discriminate].
  match goal with
  | |- context [html_to_pdf ?E ?a ?b ?c ?d ?e ?f ?g] =>
      pose proof (html_to_pdf_shape E a b c d e f
                    (or_intror (conj eq_refl (@Some_ne_None _ _))) g) as Hs;
      destruct (html_to_pdf E a b c d e f g) as [[p|e0] w']
  end; cbn [fst] in *; [discriminate|].
  intros [= ->]. exact Hs.
Qed.

(** * The wait for the fonts *)

Section FontWait.
Variables E1 E2 : env.
Hypothesis same_cwd : cwd E1 = cwd E2.
Hypothesis same_tmpdir : tmpdir E1 = tmpdir E2.
Hypothesis same_pdf : pdf_bytes E1 = pdf_bytes E2.
Hypothesis same_fault : forall ev, is_font_wait ev = false -> fault E1 ev = fault E2 ev.

Lemma fw_call (ev : event) :
  is_font_wait ev = false -> agree (call E1 ev) (call E2 ev).
Proof.
  intros Hev w1 w2 H. unfold call. rewrite (same_fault ev Hev).
  destruct (fault E2 ev); now split.
Qed.

Lemma fw_call_then {A} (ev : event) (k1 k2 : M A) :
  is_font_wait ev = false -> agree k1 k2 ->
  agree (bind (call E1 ev) (fun _ => k1)) (bind (call E2 ev) (fun _ => k2)).
Proof. intros Hev Hk. apply agree_bind; [now apply fw_call|intros _; exact Hk]. Qed.

Lemma fw_loc (p : Path) : loc E1 p = loc E2 p.
Proof. unfold loc. now rewrite same_cwd. Qed.

Lemma fw_resolve (p : Path) : agree (resolve E1 p) (resolve E2 p).
Proof. unfold resolve. rewrite same_cwd. apply fw_call_then; [reflexivity|apply agree_ret]. Qed.

Lemma fw_Path_cwd : agree (Path_cwd E1) (Path_cwd E2).
Proof. unfold Path_cwd. rewrite same_cwd. apply fw_call_then; [reflexivity|apply agree_ret]. Qed.

Lemma fw_mkdir (p : Path) : agree (mkdir E1 p) (mkdir E2 p).
Proof.
  unfold mkdir. apply fw_call_then; [reflexivity|].
  intros w1 w2 H. rewrite fw_loc, H.
  destruct (mkdir_p (nodes w2) (loc E2 p)); now split.
Qed.

Lemma fw_exists (p : Path) : agree (exists_ E1 p) (exists_ E2 p).
Proof.
  unfold exists_. apply fw_call_then; [reflexivity|].
  intros w1 w2 H. rewrite fw_loc, H. now split.
Qed.

Lemma fw_read_text (p : Path) : agree (read_text E1 p) (read_text E2 p).
Proof.
  unfold read_text. apply fw_call_then; [reflexivity|].
  intros w1 w2 H. rewrite fw_loc, H.
  destruct (nodes w2 !! loc E2 p) as [[c|]|]; now split.
Qed.

Lemma fw_write_text (p : Path) (text : str) :
  agree (write_text E1 p text) (write_text E2 p text).
Proof.
  unfold write_text. apply fw_call_then; [reflexivity|].
  intros w1 w2 H. rewrite !fw_loc, H.
  destruct (nodes w2 !! loc E2 (Path_parent p)) as [[c|]|];
    destruct (nodes w2 !! loc E2 p) as [[c'|]|]; simpl; now rewrite ?H.
Qed.

Lemma fw_mkdtemp : agree (mkdtemp E1) (mkdtemp E2).
Proof.
  unfold mkdtemp. rewrite same_tmpdir. apply fw_call_then; [reflexivity|].
  intros w1 w2 H. rewrite fw_loc, H.
  destruct (is_fresh _ _); simpl; now rewrite ?H.
Qed.

Lemma fw_cleanup (tmp : Path) : agree (cleanup E1 tmp) (cleanup E2 tmp).
Proof.
  unfold cleanup. apply fw_call_then; [reflexivity|].
  intros w1 w2 H. rewrite fw_loc. simpl. now rewrite H.
Qed.

Lemma fw_page_pdf (kwargs : pdf_kwargs) :
  agree (page_pdf E1 kwargs) (page_pdf E2 kwargs).
Proof.
  unfold page_pdf. apply fw_call_then; [reflexivity|].
  intros w1 w2 H. rewrite fw_loc, same_pdf. simpl. now rewrite H.
Qed.

Lemma fw_goto (h : option (str -> route_action)) (uri : str)
    (wt : wait_condition) (timeout : Z) :
  agree (goto E1 h uri wt timeout) (goto E2 h uri wt timeout).
Proof.
  intros w1 w2 H. unfold goto.
  rewrite (same_fault (EvGoto uri wt timeout) eq_refl).
  destruct (fault E2 (EvGoto uri wt timeout)); destruct h; simpl;
    rewrite ?nodes_fold_log; simpl; now split.
Qed.

(** [try: await page.evaluate(...) except Exception: pass] returns in
    both environments. *)
Lemma fw_font_wait (js : str) :
  agree (try_except (call E1 (EvEvaluate js)) (fun _ => ret tt))
        (try_except (call E2 (EvEvaluate js)) (fun _ => ret tt)).
Proof.
  intros w1 w2 H. unfold try_except, call.
  destruct (fault E1 (EvEvaluate js)), (fault E2 (EvEvaluate js)); now split.
Qed.

Ltac fw_step :=
  first
    [ apply agree_ret | apply agree_raise | apply agree_lift
    | apply fw_font_wait
    | apply fw_call; reflexivity
    | apply fw_resolve | apply fw_Path_cwd | apply fw_mkdir
    | apply fw_exists | apply fw_read_text | apply fw_write_text
    | apply fw_mkdtemp | apply fw_cleanup | apply fw_page_pdf
    | apply fw_goto
    | apply agree_finally | apply agree_try_except; [|intros ?]
    | apply agree_bind; [|intros ?]
    | match goal with
      | |- agree (match ?x with _ => _ end) _ => destruct x
      | |- agree (if ?b then _ else _) _ => destruct b
      end ].

(** X17. A failure of the wait for the fonts is not seen from outside: two
    environments that differ only in whether that wait fails give the same
    outcome of [html_to_pdf] and leave the same files. *)
Theorem html_to_pdf_font_wait (html : option str) (html_path : option Path)
    (out : Path) (base_dir : option Path) (pdf : PdfOptions) (render : RenderOptions) :
  agree (html_to_pdf E1 html html_path out base_dir pdf render)
        (html_to_pdf E2 html html_path out base_dir pdf render).
Proof.
  unfold html_to_pdf, with_TemporaryDirectory, with_async_playwright, render_export.
  cbv zeta.
  repeat fw_step.
Qed.

End FontWait.

Lemma html_to_pdf_font_wait_witness :
  agree (html_to_pdf example_env None (Some (Path_of_str (lit "page.html")))
           (Path_of_str (lit "out/x.pdf")) None PdfOptions_default no_network)
        (html_to_pdf failing_fonts_env None (Some (Path_of_str (lit "page.html")))
           (Path_of_str (lit "out/x.pdf")) None PdfOptions_default no_network).
Proof.
  apply (html_to_pdf_font_wait example_env failing_fonts_env);
    try reflexivity.
  intros ev Hev. destruct ev; try reflexivity. discriminate.
Defined.

(** * What a conversion leaves untouched *)

Lemma rmtree_lookup_outside (n : gmap (list str) node) (ps k : list str) :
  ~ ps `prefix_of` k -> rmtree n ps !! k = n !! k.
Proof.
  intros Hk. unfold rmtree. destruct (n !! k) as [v|] eqn:Hl.
  - now apply map_lookup_filter_Some_2.
  - apply map_lookup_filter_None. left. exact Hl.
Qed.

Lemma rmtree_lookup_inside (n : gmap (list str) node) (ps k : list str) :
  ps `prefix_of` k -> rmtree n ps !! k = None.
Proof.
  intros Hk. unfold rmtree. apply map_lookup_filter_None. right.
  intros v _ Hnot. now apply Hnot.
Qed.

Section Frame.
Variable E : env.
Variable k : list str.
Local Open Scope m_scope.

Lemma keeps_ret {A} (a : A) : keeps k (ret a).
Proof. now intros w. Qed.

Lemma keeps_raise {A} (e : exn) : keeps k (@raise A e).
Proof. now intros w. Qed.

Lemma keeps_lift {A} (r : result A) : keeps k (lift r).
Proof. intros w. unfold lift. now destruct r. Qed.

Lemma keeps_bind {A B} (m : M A) (f : A -> M B) :
  keeps k m -> (forall a, keeps k (f a)) -> keeps k (bind m f).
Proof.
  intros Hm Hf w. unfold bind. specialize (Hm w).
  destruct (m w) as [[a|e] w1]; cbn [snd] in *; [|exact Hm].
  now rewrite Hf.
Qed.

Lemma keeps_try_except {A} (b : M A) (h : exn -> M A) :
  keeps k b -> (forall e, keeps k (h e)) -> keeps k (try_except b h).
Proof.
  intros Hb Hh w. unfold try_except. specialize (Hb w).
  destruct (b w) as [[a|e] w1]; cbn [snd] in *; [exact Hb|].
  now rewrite Hh.
Qed.

Lemma keeps_finally {A} (b : M A) (f : M unit) :
  keeps k b -> keeps k f -> keeps k (finally b f).
Proof.
  intros Hb Hf w. unfold finally. specialize (Hb w).
  destruct (b w) as [r w1]. specialize (Hf w1).
  destruct (f w1) as [[u|e] w2]; cbn [snd] in *; now rewrite Hf.
Qed.

Lemma keeps_call (ev : event) : keeps k (call E ev).
Proof. intros w. unfold call. now destruct (fault E ev). Qed.

Lemma keeps_call_then {A} (ev : event) (m : M A) :
  keeps k m -> keeps k (call E ev ;; m).
Proof. intros Hm. apply keeps_bind; [apply keeps_call|intros _; exact Hm]. Qed.

(** The value of [resolve] is known. *)
Lemma keeps_resolve_bind {A} (p : Path) (f : Path -> M A) :
  keeps k (f (Path_resolve (cwd E) p)) -> keeps k (bind (resolve E p) f).
Proof.
  intros Hf w. unfold resolve, bind, call, ret.
  destruct (fault E (EvResolve p)); cbn [snd]; [reflexivity|].
  now rewrite Hf.
Qed.

Lemma keeps_Path_cwd : keeps k (Path_cwd E).
Proof. unfold Path_cwd. apply keeps_call_then, keeps_ret. Qed.

Lemma keeps_mkdir (p : Path) : ~ k `prefix_of` loc E p -> keeps k (mkdir E p).
Proof.
  intros Hk. unfold mkdir. apply keeps_call_then. intros w.
  destruct (mkdir_p (nodes w) (loc E p)) as [n|] eqn:Hm; [|reflexivity].
  cbn [snd set_nodes nodes]. now apply (mkdir_p_other _ _ _ _ Hm).
Qed.

Lemma keeps_exists (p : Path) : keeps k (exists_ E p).
Proof. unfold exists_. apply keeps_call_then. now intros w. Qed.

Lemma keeps_read_text (p : Path) : keeps k (read_text E p).
Proof.
  unfold read_text. apply keeps_call_then. intros w.
  now destruct (nodes w !! loc E p) as [[c|]|].
Qed.

Lemma keeps_write_text (p : Path) (text : str) :
  k <> loc E p -> keeps k (write_text E p text).
Proof.
  intros Hk. unfold write_text. apply keeps_call_then. intros w.
  destruct (nodes w !! loc E (Path_parent p)) as [[c|]|]; try reflexivity.
  destruct (nodes w !! loc E p) as [[c|]|]; try reflexivity;
    cbn [snd set_nodes nodes]; now apply lookup_insert_ne.
Qed.

Lemma keeps_page_pdf (kwargs : pdf_kwargs) :
  k <> loc E (Path_of_str (kw_path kwargs)) -> keeps k (page_pdf E kwargs).
Proof.
  intros Hk. unfold page_pdf. apply keeps_call_then. intros w.
  cbn [snd set_nodes nodes]. now apply lookup_insert_ne.
Qed.

Lemma keeps_goto (h : option (str -> route_action)) (uri : str)
    (wt : wait_condition) (timeout : Z) :
  keeps k (goto E h uri wt timeout).
Proof.
  intros w. unfold goto.
  destruct (fault E (EvGoto uri wt timeout)); destruct h; cbn [snd];
    now rewrite ?nodes_fold_log.
Qed.

Lemma keeps_cleanup (tmp : Path) :
  ~ loc E tmp `prefix_of` k -> keeps k (cleanup E tmp).
Proof.
  intros Hk. unfold cleanup. apply keeps_call_then. intros w.
  cbn [snd set_nodes nodes]. now apply rmtree_lookup_outside.
Qed.

(** The temporary directory is new when it is made and gone when its
    removal returns: an entry below it is then as it was; an entry
    elsewhere is kept when the body keeps it. *)
Lemma keeps_with_TemporaryDirectory {A} (body : Path -> M A) :
  (loc E (tmp_root E) `prefix_of` k -> fault E (EvCleanup (tmp_root E)) = None) ->
  (~ loc E (tmp_root E) `prefix_of` k -> keeps k (body (tmp_root E))) ->
  keeps k (with_TemporaryDirectory E body).
Proof.
  intros Hin Hout w.
  unfold with_TemporaryDirectory, mkdtemp, bind, call. fold (tmp_root E).
  destruct (fault E EvMkdtemp); [reflexivity|].
  destruct (is_fresh (nodes (log_event EvMkdtemp w)) (loc E (tmp_root E))) eqn:Hfresh;
    [|reflexivity].
  unfold finally, cleanup, bind, call.
  match goal with
  | |- context [body (tmp_root E) ?w1] => set (w1' := w1)
  end.
  destruct (decide (loc E (tmp_root E) `prefix_of` k)) as [Hpre|Hpre].
  - rewrite (Hin Hpre).
    destruct (body (tmp_root E) w1') as [r w2]. cbn [snd set_nodes nodes].
    rewrite (rmtree_lookup_inside _ _ _ Hpre). symmetry.
    now apply (is_fresh_lookup _ _ _ Hfresh).
  - pose proof (Hout Hpre w1') as Hb.
    destruct (body (tmp_root E) w1') as [r w2]. cbn [snd] in Hb.
    assert (Hw1 : nodes w1' !! k = nodes w !! k).
    { subst w1'. cbn [set_nodes nodes log_event]. apply lookup_insert_ne.
      intros Heq. apply Hpre. now rewrite Heq. }
    destruct (fault E (EvCleanup (tmp_root E))); cbn [snd set_nodes nodes log_event].
    + now rewrite <- Hw1, <- Hb.
    + rewrite (rmtree_lookup_outside _ _ _ Hpre). now rewrite <- Hw1, <- Hb.
Qed.

Lemma keeps_render_export (h : option (str -> route_action)) (tmp_file out : Path)
    (pdf : PdfOptions) (render : RenderOptions) :
  k <> loc E (Path_of_str (Path_str out)) ->
  keeps k (render_export E h tmp_file out pdf render).
Proof.
  intros Hk. unfold render_export.
  apply keeps_finally; [|apply keeps_call_then, keeps_call].
  apply keeps_try_except; [|intros e; apply keeps_raise].
  apply keeps_bind; [apply keeps_lift|intros uri].
  apply keeps_bind; [apply keeps_goto|intros _].
  apply keeps_bind;
    [apply keeps_try_except; [apply keeps_call|intros e; apply keeps_ret]|intros _].
  now apply keeps_page_pdf.
Qed.

Ltac keeps_step :=
  first
    [ apply keeps_ret | apply keeps_raise | apply keeps_lift | apply keeps_call
    | apply keeps_Path_cwd | apply keeps_exists | apply keeps_read_text
    | apply keeps_resolve_bind
    | apply keeps_finally
    | apply keeps_bind; [|intros ?]
    | match goal with
      | |- keeps _ (match ?x with _ => _ end) => destruct x
      | |- keeps _ (if ?b then _ else _) => destruct b
      end ].

(** X18. A conversion changes nothing but the chain of directories down to
    the directory of the output, the document itself, and the temporary
    directory; and when the removal of the temporary directory returns,
    nothing is left below it either.  This holds however the run ends. *)
Theorem html_to_pdf_frame (html : option str) (html_path : option Path) (out : Path)
    (base_dir : option Path) (pdf : PdfOptions) (render : RenderOptions) (w : world) :
  ~ k `prefix_of` loc E (output_parent E out) ->
  k <> pdf_loc E out ->
  (loc E (tmp_root E) `prefix_of` k -> fault E (EvCleanup (tmp_root E)) = None) ->
  nodes (html_to_pdf E html html_path out base_dir pdf render w).2 !! k = nodes w !! k.
Proof.
  intros Hdir Hpdf Htmp. revert w.
  change (keeps k (html_to_pdf E html html_path out base_dir pdf render)).
  unfold html_to_pdf.
  destruct (Bool.eqb _ _); [apply keeps_raise|].
  apply keeps_resolve_bind.
  apply keeps_bind; [now apply keeps_mkdir|intros _].
  apply keeps_bind; [repeat keeps_step|intros [text bd]].
  apply keeps_bind; [repeat keeps_step|intros text2].
  apply keeps_bind; [repeat keeps_step|intros text3].
  apply keeps_bind; [|intros _; apply keeps_ret].
  apply keeps_with_TemporaryDirectory; [exact Htmp|]. intros Hout.
  apply keeps_bind.
  { apply keeps_write_text. fold (tmp_html E). rewrite loc_tmp_html.
    intros Heq. apply Hout. rewrite Heq. now apply prefix_app_r. }
  intros _. unfold with_async_playwright.
  apply keeps_call_then. apply keeps_finally; [|apply keeps_call].
  do 3 apply keeps_call_then.
  apply keeps_bind; [repeat keeps_step|intros h].
  apply keeps_call_then. now apply keeps_render_export.
Qed.

End Frame.

Lemma html_to_pdf_frame_witness :
  nodes (html_to_pdf example_env None (Some (Path_of_str (lit "page.html")))
           (Path_of_str (lit "out/x.pdf")) None
           PdfOptions_default (render_with_css "extra.css") example_world).2
    !! [lit "home"; lit "u"; lit "page.html"]
  = nodes example_world !! [lit "home"; lit "u"; lit "page.html"].
Proof.
  apply (html_to_pdf_frame example_env [lit "home"; lit "u"; lit "page.html"]).
  - intros [x Hx]. vm_compute in Hx. discriminate.
  - intros Hx. vm_compute in Hx. discriminate.
  - intros [x Hx]. vm_compute in Hx. discriminate.
Defined.

(** * Where the document is *)

Lemma split_join_plain (sep : ascii) (l : list str) :
  l <> [] -> Forall (fun t => sep ∉ t) l -> split sep (join [sep] l) = l.
Proof.
  induction l as [|t l IH]; intros Hne H; [congruence|].
  inversion H as [|? ? Ht Hl]; subst.
  destruct l as [|t' l]; [now apply split_one|].
  change (join [sep] (t :: t' :: l)) with (t ++ sep :: join [sep] (t' :: l)).
  rewrite (split_app _ _ _ Ht). f_equal. now apply IH.
Qed.

Lemma plain_spec (c : str) :
  plain c = true -> is_name c = true /\ "/"%char ∉ c.
Proof.
  unfold plain. intros H. apply andb_true_iff in H as [Hn Hs].
  split; [exact Hn|]. now apply bool_decide_eq_true in Hs.
Qed.

Lemma filter_names_plain (l : list str) :
  forallb plain l = true -> filter (fun c => is_name c = true) l = l.
Proof.
  induction l as [|c l IH]; intros H; [reflexivity|].
  simpl in H. apply andb_true_iff in H as [Hc Hl].
  apply plain_spec in Hc as [Hn _].
  rewrite filter_cons_True by exact Hn. now rewrite IH.
Qed.

Lemma plain_no_slash (l : list str) :
  forallb plain l = true -> Forall (fun t => "/"%char ∉ t) l.
Proof.
  induction l as [|c l IH]; intros H; [constructor|].
  simpl in H. apply andb_true_iff in H as [Hc Hl].
  constructor; [now apply plain_spec in Hc|now apply IH].
Qed.

(** [Path(str(p))] is [p] for an absolute path of plain components. *)
Lemma Path_of_str_str (p : Path) :
  anchored p = true -> forallb plain (parts p) = true ->
  Path_of_str (Path_str p) = p.
Proof.
  destruct p as [a ps]. cbn [anchored parts]. intros -> Hplain.
  unfold Path_of_str, Path_str. cbn [anchored parts]. f_equal.
  change (lit "/" ++ join (lit "/") ps) with ("/"%char :: join ["/"%char] ps).
  cbn [split]. rewrite char_eqb_refl.
  destruct ps as [|c ps]; [reflexivity|].
  rewrite split_join_plain; [|discriminate|now apply plain_no_slash].
  rewrite filter_cons_False by (intros H; discriminate H).
  now apply filter_names_plain.
Qed.

Section Document.
Variable E : env.
Local Open Scope m_scope.

Lemma hoare_ret {A} (a : A) (P : gmap (list str) node -> Prop)
    (Q : A -> gmap (list str) node -> Prop) :
  (forall n, P n -> Q a n) -> hoare P (ret a) Q.
Proof. intros H w Hw a' [= <-]. now apply H. Qed.

Lemma hoare_bind {A B} (m : M A) (f : A -> M B) P Q R :
  hoare P m Q -> (forall a, hoare (Q a) (f a) R) -> hoare P (bind m f) R.
Proof.
  intros Hm Hf w Hw b. unfold bind. specialize (Hm w Hw).
  destruct (m w) as [[a|e] w1]; cbn [fst snd] in *; [|discriminate].
  apply Hf. now apply Hm.
Qed.

(** The steps before the one that matters. *)
Lemma hoare_skip {A B} (m : M A) (f : A -> M B) P R :
  (forall a, hoare (fun _ => True) (f a) R) -> hoare P (bind m f) R.
Proof.
  intros Hf. apply (hoare_bind _ _ P (fun _ _ => True)); [|exact Hf].
  now intros w _ a _.
Qed.

Lemma hoare_finally {A} (b : M A) (f : M unit) P Q R :
  hoare P b Q -> (forall a, hoare (Q a) f (fun _ => R a)) -> hoare P (finally b f) R.
Proof.
  intros Hb Hf w Hw a. unfold finally. specialize (Hb w Hw).
  destruct (b w) as [r w1]. cbn [fst snd] in *.
  specialize (fun a H => Hf a w1 H tt).
  destruct (f w1) as [[u|e] w2]; cbn [fst snd] in *; [|discriminate].
  intros ->. destruct u. apply Hf; [now apply Hb|reflexivity].
Qed.

(** [except Exception as e: raise ...] *)
Lemma hoare_try_raise {A} (b : M A) (h : exn -> exn) P Q :
  hoare P b Q -> hoare P (try_except b (fun e => raise (h e))) Q.
Proof.
  intros Hb w Hw a. unfold try_except. specialize (Hb w Hw).
  destruct (b w) as [[a'|e] w1]; cbn [fst snd] in *; [|discriminate].
  exact (Hb a).
Qed.

Lemma hoare_call (ev : event) P : hoare P (call E ev) (fun _ => P).
Proof. intros w Hw a. unfold call. now destruct (fault E ev). Qed.

Lemma hoare_call_then {A} (ev : event) (m : M A) P Q :
  hoare P m Q -> hoare P (call E ev ;; m) Q.
Proof. intros Hm. eapply hoare_bind; [apply hoare_call|intros ?; cbv beta; exact Hm]. Qed.

Lemma hoare_resolve_bind {A} (p : Path) (f : Path -> M A) P Q :
  hoare P (f (Path_resolve (cwd E) p)) Q -> hoare P (bind (resolve E p) f) Q.
Proof.
  intros Hf. eapply (hoare_bind _ _ P (fun a n => a = Path_resolve (cwd E) p /\ P n)).
  - unfold resolve. apply hoare_call_then. now apply hoare_ret.
  - intros a w [-> Hw]. now apply Hf.
Qed.

Lemma hoare_mkdtemp_bind {A} (f : Path -> M A) P Q :
  hoare (fun _ => True) (f (tmp_root E)) Q -> hoare P (bind (mkdtemp E) f) Q.
Proof.
  intros Hf. eapply (hoare_bind _ _ P (fun a _ => a = tmp_root E)).
  - unfold mkdtemp. apply hoare_call_then. intros w _ p.
    destruct (is_fresh _ _); [|discriminate]. now intros [= <-].
  - intros a w ->. now apply Hf.
Qed.

Lemma hoare_page_pdf (kwargs : pdf_kwargs) P :
  hoare P (page_pdf E kwargs)
    (fun _ n => n !! loc E (Path_of_str (kw_path kwargs)) = Some (File (pdf_bytes E))).
Proof.
  unfold page_pdf. eapply hoare_bind; [apply hoare_call|intros ?; cbv beta].
  intros w _ u _. cbn [snd set_nodes nodes]. apply lookup_insert_eq.
Qed.

Lemma hoare_cleanup (tmp : Path) (k : list str) (v : node) :
  ~ loc E tmp `prefix_of` k ->
  hoare (fun n => n !! k = Some v) (cleanup E tmp) (fun _ n => n !! k = Some v).
Proof.
  intros Hk. unfold cleanup. apply hoare_call_then. intros w Hw u _.
  cbn [snd set_nodes nodes]. now rewrite rmtree_lookup_outside.
Qed.

(** A run of the stage that returns has written the document. *)
Lemma hoare_render_export (h : option (str -> route_action)) (tmp_file out : Path)
    (pdf : PdfOptions) (render : RenderOptions) P :
  hoare P (render_export E h tmp_file out pdf render)
    (fun _ n => n !! loc E (Path_of_str (Path_str out)) = Some (File (pdf_bytes E))).
Proof.
  unfold render_export.
  eapply hoare_finally; [|intros ?; cbv beta; apply hoare_call_then, hoare_call].
  apply (hoare_try_raise _
           (fun e => HtmlToPdfError (lit "PDF render xatosi: " ++ str_exn e) e)).
  apply hoare_skip. intros uri. apply hoare_skip. intros ?; cbv beta.
  apply hoare_skip. intros ?; cbv beta. apply hoare_page_pdf.
Qed.

(** A run of [html_to_pdf] that returns has written the document where
    the browser reads the output path, when that place is not below the
    temporary directory. *)
Lemma hoare_html_to_pdf (html : option str) (html_path : option Path) (out : Path)
    (base_dir : option Path) (pdf : PdfOptions) (render : RenderOptions) :
  ~ loc E (tmp_root E) `prefix_of` pdf_loc E out ->
  hoare (fun _ => True) (html_to_pdf E html html_path out base_dir pdf render)
    (fun _ n => n !! pdf_loc E out = Some (File (pdf_bytes E))).
Proof.
  intros Hout. unfold html_to_pdf.
  destruct (Bool.eqb _ _); [now intros w _ a|].
  apply hoare_resolve_bind.
  apply hoare_skip; intros ?; cbv beta.
  apply hoare_skip; intros [text bd].
  apply hoare_skip; intros text2; cbv beta.
  apply hoare_skip; intros text3; cbv beta.
  apply (hoare_bind _ _ _ (fun _ n => n !! pdf_loc E out = Some (File (pdf_bytes E))));
    [|intros ?; cbv beta; now apply hoare_ret].
  unfold with_TemporaryDirectory. apply hoare_mkdtemp_bind.
  eapply hoare_finally; [|intros ?; cbv beta; now apply hoare_cleanup].
  apply hoare_skip. intros ?; cbv beta. unfold with_async_playwright.
  apply hoare_call_then.
  eapply hoare_finally; [|intros ?; cbv beta; apply hoare_call].
  do 3 apply hoare_call_then.
  apply hoare_skip. intros h. apply hoare_call_then.
  apply hoare_render_export.
Qed.

End Document.

(** X19. When [html_to_pdf] returns a path, the file at that path holds the
    document the browser printed.  The resolved output path is made of
    plain components and is not below the temporary directory. *)
Theorem html_to_pdf_document (E : env) (html : option str) (html_path : option Path)
    (out : Path) (base_dir : option Path) (pdf : PdfOptions) (render : RenderOptions)
    (w : world) (p : Path) :
  forallb plain (parts (Path_resolve (cwd E) out)) = true ->
  ~ loc E (tmp_root E) `prefix_of` parts (Path_resolve (cwd E) out) ->
  (html_to_pdf E html html_path out base_dir pdf render w).1 = Ok p ->
  nodes (html_to_pdf E html html_path out base_dir pdf render w).2 !! parts p
  = Some (File (pdf_bytes E)).
Proof.
  intros Hplain Htmp Hok.
  assert (Hloc : pdf_loc E out = parts (Path_resolve (cwd E) out)).
  { unfold pdf_loc. rewrite Path_of_str_str by (reflexivity || exact Hplain).
    apply loc_resolved. }
  assert (Hp : p = Path_resolve (cwd E) out).
  { assert (Hone : exactly_one html html_path).
    { destruct html as [h|], html_path as [hp|].
      - rewrite bad_input_run in Hok; [discriminate|]. right. split; discriminate.
      - left. split; [discriminate|reflexivity].
      - right. split; [reflexivity|discriminate].
      - rewrite bad_input_run in Hok; [discriminate|]. left. split; reflexivity. }
    pose proof (html_to_pdf_shape E html html_path out base_dir pdf render Hone w) as Hs.
    rewrite Hok in Hs. exact Hs. }
  subst p. rewrite <- Hloc.
  apply (hoare_html_to_pdf E html html_path out base_dir pdf render) with (a := Path_resolve (cwd E) out);
    [now rewrite Hloc|exact I|exact Hok].
Qed.

Lemma html_to_pdf_document_witness :
  nodes (html_to_pdf example_env None (Some (Path_of_str (lit "page.html")))
           (Path_of_str (lit "out/x.pdf")) None
           PdfOptions_default (render_with_css "extra.css") example_world).2
    !! [lit "home"; lit "u"; lit "out"; lit "x.pdf"]
  = Some (File (lit "%PDF-1.4")).
Proof.
  apply (html_to_pdf_document example_env None (Some (Path_of_str (lit "page.html")))
           (Path_of_str (lit "out/x.pdf")) None
           PdfOptions_default (render_with_css "extra.css") example_world
           {| anchored := true; parts := [lit "home"; lit "u"; lit "out"; lit "x.pdf"] |}).
  - vm_compute. reflexivity.
  - intros [x Hx]. vm_compute in Hx. discriminate.
  - vm_compute. reflexivity.
Defined.

(** * The external calls of a conversion *)

Section Emits.
Variable E : env.
Variable P : event -> Prop.
Local Open Scope m_scope.

Lemma emits_ret {A} (a : A) : emits P (ret a).
Proof. intros w. exists []. split; [now rewrite app_nil_r|constructor]. Qed.

Lemma emits_raise {A} (e : exn) : emits P (@raise A e).
Proof. intros w. exists []. split; [now rewrite app_nil_r|constructor]. Qed.

Lemma emits_lift {A} (r : result A) : emits P (lift r).
Proof.
  intros w. exists []. split; [|constructor].
  unfold lift. destruct r; now rewrite app_nil_r.
Qed.

Lemma emits_bind {A B} (m : M A) (f : A -> M B) :
  emits P m -> (forall a, (exists w, (m w).1 = Ok a) -> emits P (f a)) ->
  emits P (bind m f).
Proof.
  intros Hm Hf w. unfold bind. destruct (Hm w) as (evs1 & Ht1 & Hp1).
  destruct (m w) as [[a|e] w1] eqn:Hmw; cbn [snd] in *.
  - destruct (Hf a (ex_intro _ w (f_equal fst Hmw)) w1) as (evs2 & Ht2 & Hp2).
    exists (evs1 ++ evs2). split; [|now apply Forall_app].
    now rewrite Ht2, Ht1, app_assoc.
  - now exists evs1.
Qed.

Lemma emits_try_except {A} (b : M A) (h : exn -> M A) :
  emits P b -> (forall e, emits P (h e)) -> emits P (try_except b h).
Proof.
  intros Hb Hh w. unfold try_except. destruct (Hb w) as (evs1 & Ht1 & Hp1).
  destruct (b w) as [[a|e] w1]; cbn [snd] in *.
  - now exists evs1.
  - destruct (Hh e w1) as (evs2 & Ht2 & Hp2).
    exists (evs1 ++ evs2). split; [|now apply Forall_app].
    now rewrite Ht2, Ht1, app_assoc.
Qed.

Lemma emits_finally {A} (b : M A) (f : M unit) :
  emits P b -> emits P f -> emits P (finally b f).
Proof.
  intros Hb Hf w. unfold finally. destruct (Hb w) as (evs1 & Ht1 & Hp1).
  destruct (b w) as [r w1]. cbn [snd] in *.
  destruct (Hf w1) as (evs2 & Ht2 & Hp2).
  exists (evs1 ++ evs2). split; [|now apply Forall_app].
  destruct (f w1) as [[u|e] w2]; cbn [snd] in *; now rewrite Ht2, Ht1, app_assoc.
Qed.

Lemma emits_call (ev : event) : P ev -> emits P (call E ev).
Proof.
  intros Hev w. exists [ev]. split; [|now repeat constructor].
  unfold call. now destruct (fault E ev).
Qed.

Lemma emits_resolve (p : Path) :
  P (EvResolve p) -> emits P (resolve E p).
Proof.
  intros Hev. unfold resolve.
  apply emits_bind; [now apply emits_call|intros _ _; apply emits_ret].
Qed.

Lemma resolve_value (p a : Path) :
  (exists w, (resolve E p w).1 = Ok a) -> a = Path_resolve (cwd E) p.
Proof.
  intros [w H]. unfold resolve, bind, call, ret in H.
  destruct (fault E (EvResolve p)); [discriminate|]. now injection H as <-.
Qed.

Lemma emits_Path_cwd : P EvCwd -> emits P (Path_cwd E).
Proof.
  intros Hev. unfold Path_cwd.
  apply emits_bind; [now apply emits_call|intros _ _; apply emits_ret].
Qed.

Lemma emits_quiet {A} (m : M A) :
  (forall w, trace (m w).2 = trace w) -> emits P m.
Proof. intros H w. exists []. split; [now rewrite app_nil_r|constructor]. Qed.

Lemma emits_mkdir (p : Path) : P (EvMkdir p) -> emits P (mkdir E p).
Proof.
  intros Hev. unfold mkdir.
  apply emits_bind; [now apply emits_call|intros _ _].
  apply emits_quiet. intros w. now destruct (mkdir_p _ _).
Qed.

Lemma emits_exists (p : Path) : P (EvExists p) -> emits P (exists_ E p).
Proof.
  intros Hev. unfold exists_.
  apply emits_bind; [now apply emits_call|intros _ _]. now apply emits_quiet.
Qed.

Lemma emits_read_text (p : Path) : P (EvReadText p) -> emits P (read_text E p).
Proof.
  intros Hev. unfold read_text.
  apply emits_bind; [now apply emits_call|intros _ _].
  apply emits_quiet. intros w. now destruct (nodes w !! loc E p) as [[c|]|].
Qed.

Lemma emits_write_text (p : Path) (text : str) :
  P (EvWriteText p text) -> emits P (write_text E p text).
Proof.
  intros Hev. unfold write_text.
  apply emits_bind; [now apply emits_call|intros _ _].
  apply emits_quiet. intros w.
  destruct (nodes w !! loc E (Path_parent p)) as [[c|]|]; try reflexivity.
  now destruct (nodes w !! loc E p) as [[c|]|].
Qed.

Lemma emits_mkdtemp : P EvMkdtemp -> emits P (mkdtemp E).
Proof.
  intros Hev. unfold mkdtemp.
  apply emits_bind; [now apply emits_call|intros _ _].
  apply emits_quiet. intros w. now destruct (is_fresh _ _).
Qed.

Lemma mkdtemp_value (a : Path) :
  (exists w, (mkdtemp E w).1 = Ok a) -> a = tmp_root E.
Proof.
  intros [w H]. unfold mkdtemp, bind, call in H.
  destruct (fault E EvMkdtemp); [discriminate|].
  destruct (is_fresh _ _); [|discriminate]. now injection H as <-.
Qed.

Lemma emits_cleanup (tmp : Path) : P (EvCleanup tmp) -> emits P (cleanup E tmp).
Proof.
  intros Hev. unfold cleanup.
  apply emits_bind; [now apply emits_call|intros _ _]. now apply emits_quiet.
Qed.

Lemma emits_page_pdf (kwargs : pdf_kwargs) :
  P (EvPdf kwargs) -> emits P (page_pdf E kwargs).
Proof.
  intros Hev. unfold page_pdf.
  apply emits_bind; [now apply emits_call|intros _ _]. now apply emits_quiet.
Qed.

Lemma emits_goto (h : option (str -> route_action)) (uri : str)
    (wt : wait_condition) (timeout : Z) :
  P (EvGoto uri wt timeout) ->
  (forall h0 url, h = Some h0 -> P (route_event h0 url)) ->
  emits P (goto E h uri wt timeout).
Proof.
  intros Hev Hh w. unfold goto. destruct h as [h0|].
  - exists (EvGoto uri wt timeout :: map (route_event h0) (uri :: requests E)).
    split.
    + destruct (fault E (EvGoto uri wt timeout)); cbn [snd];
        rewrite trace_fold_log; cbn [log_event trace]; now rewrite <- app_assoc.
    + constructor; [exact Hev|]. apply Forall_forall. intros ev Hin.
      apply list_elem_of_fmap in Hin as (url & -> & _). now apply Hh.
  - exists [EvGoto uri wt timeout]. split; [|now repeat constructor].
    now destruct (fault E (EvGoto uri wt timeout)).
Qed.

End Emits.

Ltac emits_auto side :=
  repeat first
    [ apply emits_ret | apply emits_raise | apply emits_lift
    | apply emits_call; side | apply emits_resolve; side
    | apply emits_Path_cwd; side | apply emits_exists; side
    | apply emits_read_text; side
    | apply emits_finally
    | apply emits_try_except; [|intros ?]
    | apply emits_bind; [|intros ? ?]
    | match goal with
      | |- emits _ (match ?x with _ => _ end) => destruct x
      end ].

(** X20. Every external call of a conversion is about what it should be: the
    directory made is the one of the resolved output path, the file
    written and the address the browser is sent to are [index.html] in the
    temporary directory, the directory removed is the temporary one, the
    document is exported to the resolved output path, and nothing is
    printed or logged.  The run only adds to the trace. *)
Theorem html_to_pdf_calls (E : env) (html : option str) (html_path : option Path)
    (out : Path) (base_dir : option Path) (pdf : PdfOptions) (render : RenderOptions) :
  emits (expected E out) (html_to_pdf E html html_path out base_dir pdf render).
Proof.
  unfold html_to_pdf.
  destruct (Bool.eqb _ _); [apply emits_raise|].
  apply emits_bind; [now apply emits_resolve|intros out' Hv].
  apply resolve_value in Hv. subst out'.
  apply emits_bind; [now apply emits_mkdir|intros _ _].
  apply emits_bind; [emits_auto ltac:(exact I)|intros [text bd] _].
  apply emits_bind; [emits_auto ltac:(exact I)|intros text2 _].
  apply emits_bind; [emits_auto ltac:(exact I)|intros text3 _].
  apply emits_bind; [|intros _ _; apply emits_ret].
  unfold with_TemporaryDirectory.
  apply emits_bind; [now apply emits_mkdtemp|intros tmp Hv].
  apply mkdtemp_value in Hv. subst tmp.
  apply emits_finally; [|now apply emits_cleanup].
  apply emits_bind; [now apply emits_write_text|intros _ _].
  unfold with_async_playwright.
  apply emits_bind; [now apply emits_call|intros _ _].
  apply emits_finally; [|now apply emits_call].
  do 3 (apply emits_bind; [now apply emits_call|intros _ _]).
  apply emits_bind; [emits_auto ltac:(exact I)|intros h _].
  apply emits_bind; [now apply emits_call|intros _ _].
  unfold render_export.
  apply emits_finally; [|emits_auto ltac:(exact I)].
  apply emits_try_except; [|intros e; apply emits_raise].
  apply emits_bind; [apply emits_lift|intros uri [w Hv]].
  injection Hv as <-.
  apply emits_bind.
  { apply emits_goto; [reflexivity|].
    intros h0 url _. unfold route_event. now destruct (h0 url). }
  intros _ _.
  apply emits_bind; [emits_auto ltac:(exact I)|intros _ _].
  now apply emits_page_pdf.
Qed.

(** X21. With the network allowed nothing is intercepted: the run installs no
    route and answers no request of the page. *)
Theorem html_to_pdf_no_interception (E : env) (html : option str)
    (html_path : option Path) (out : Path) (base_dir : option Path)
    (pdf : PdfOptions) (render : RenderOptions) :
  allow_network render = true ->
  emits (fun ev => is_route ev = false)
    (html_to_pdf E html html_path out base_dir pdf render).
Proof.
  intros Hallow. unfold html_to_pdf.
  destruct (Bool.eqb _ _); [apply emits_raise|].
  apply emits_bind; [now apply emits_resolve|intros out' _].
  apply emits_bind; [now apply emits_mkdir|intros _ _].
  apply emits_bind; [emits_auto ltac:(reflexivity)|intros [text bd] _].
  apply emits_bind; [emits_auto ltac:(reflexivity)|intros text2 _].
  apply emits_bind; [emits_auto ltac:(reflexivity)|intros text3 _].
  apply emits_bind; [|intros _ _; apply emits_ret].
  unfold with_TemporaryDirectory.
  apply emits_bind; [now apply emits_mkdtemp|intros tmp _].
  apply emits_finally; [|now apply emits_cleanup].
  apply emits_bind; [now apply emits_write_text|intros _ _].
  unfold with_async_playwright.
  apply emits_bind; [now apply emits_call|intros _ _].
  apply emits_finally; [|now apply emits_call].
  do 3 (apply emits_bind; [now apply emits_call|intros _ _]).
  rewrite Hallow. cbn [negb].
  apply emits_bind; [apply emits_ret|intros h [w Hv]].
  injection Hv as <-.
  apply emits_bind; [now apply emits_call|intros _ _].
  unfold render_export.
  apply emits_finally; [|emits_auto ltac:(reflexivity)].
  apply emits_try_except; [|intros e; apply emits_raise].
  apply emits_bind; [apply emits_lift|intros uri _].
  apply emits_bind; [apply emits_goto; [reflexivity|discriminate]|intros _ _].
  apply emits_bind; [emits_auto ltac:(reflexivity)|intros _ _].
  now apply emits_page_pdf.
Qed.

Lemma html_to_pdf_no_interception_witness :
  emits (fun ev => is_route ev = false)
    (html_to_pdf example_env None (Some (Path_of_str (lit "page.html")))
       (Path_of_str (lit "out/x.pdf")) None
       PdfOptions_default (render_with_css "extra.css")).
Proof.
  apply (html_to_pdf_no_interception example_env). reflexivity.
Defined.

(** * The options of the export *)

(** X22. The page size goes to the browser in one way only: as width and
    height when both are given and neither is the empty text, as format
    in every other case (a width alone is dropped). *)
Theorem make_pdf_kwargs_page_size (out : Path) (pdf : PdfOptions) :
  (kw_format (make_pdf_kwargs out pdf) = None <->
   exists w h,
     width pdf = Some w /\ height pdf = Some h /\ w <> [] /\ h <> [] /\
     kw_width (make_pdf_kwargs out pdf) = Some w /\
     kw_height (make_pdf_kwargs out pdf) = Some h)
  /\
  (kw_format (make_pdf_kwargs out pdf) = Some (format pdf) <->
   kw_width (make_pdf_kwargs out pdf) = None /\
   kw_height (make_pdf_kwargs out pdf) = None).
Proof.
  unfold make_pdf_kwargs. cbn [kw_format kw_width kw_height].
  destruct (width pdf) as [[|c w]|], (height pdf) as [[|c' h]|];
    cbn [truthy andb]; (split; split);
    try (intros H; discriminate H);
    try (intros (w0 & h0 & H1 & H2 & H3 & H4 & _); congruence);
    try (intros [H1 H2]; congruence);
    try (intros _; split; reflexivity);
    try reflexivity.
  intros _. exists (c :: w), (c' :: h). repeat split; discriminate.
Qed.
